(** * Mapkeeper: the suggestion engine and its AI proxy

    A shallow embedding of [functions/mapkeeper.js] (the serverless proxy with
    its rate limiter and response cache) and of the [Mapkeeper] class of the
    browser application (candidate generation, ranking, rationale retrieval,
    recency set, search, seed choice, suggestion, import of CSV files),
    followed by the properties of the specification and by further
    properties of the code.

    Conventions of the embedding.
    - A JavaScript string is a [string]: one character per code unit, for
      code units below 256.
    - A [Map] or a plain object used as a dictionary is a [gmap]; a [Set],
      whose iteration order is its insertion order, is a duplicate-free list.
    - [Date.now()] is an integer number of milliseconds, a [Z].
    - Scores are exact rationals ([Q]); the rounding of IEEE doubles is not
      modelled.
    - DOM updates and console output are left out. *)

From Stdlib Require Import ZArith QArith Qround Lqa String Ascii List Lia.
From stdpp Require Import gmap strings list fin_maps pretty sorting.

Open Scope string_scope.
Open Scope Z_scope.

(** ** JavaScript strings *)

Module JsString.

Definition code (c : ascii) : Z := Z.of_nat (nat_of_ascii c).

(** [\s] restricted to code units below 256: TAB, LF, VT, FF, CR, SPACE and
    NO-BREAK SPACE. *)
Definition is_space (c : ascii) : bool :=
  let n := code c in
  ((9 <=? n) && (n <=? 13)) || (n =? 32) || (n =? 160).

(** [String.prototype.toLowerCase] on code units below 256: the ASCII
    capitals and the Latin-1 capitals (all of U+00C0..U+00DE but the
    multiplication sign U+00D7) move up by 32. *)
Definition lower_char (c : ascii) : ascii :=
  let n := code c in
  if ((65 <=? n) && (n <=? 90))
     || ((192 <=? n) && (n <=? 222) && negb (n =? 215))
  then ascii_of_nat (Z.to_nat (n + 32)) else c.

Fixpoint toLowerCase (s : string) : string :=
  match s with
  | EmptyString => EmptyString
  | String c s' => String (lower_char c) (toLowerCase s')
  end.

(** [s.split(c)] for a one-character separator: always at least one piece. *)
Fixpoint split (sep : ascii) (s : string) : list string :=
  match s with
  | EmptyString => [EmptyString]
  | String c s' =>
      if Ascii.eqb c sep then EmptyString :: split sep s'
      else match split sep s' with
           | piece :: pieces => String c piece :: pieces
           | [] => [String c EmptyString]
           end
  end.

(** [s.split(/\s+/)]: the separator is a maximal run of white space, so a
    white-space character opens a new piece only when the next character
    is not white space too. *)
Fixpoint split_ws (s : string) : list string :=
  match s with
  | EmptyString => [EmptyString]
  | String c s' =>
      if is_space c then
        match s' with
        | String c' _ => if is_space c' then split_ws s'
                         else EmptyString :: split_ws s'
        | EmptyString => EmptyString :: split_ws s'
        end
      else match split_ws s' with
           | piece :: pieces => String c piece :: pieces
           | [] => [String c EmptyString]
           end
  end.

(** [l.join(sep)]. *)
Definition join (sep : string) (l : list string) : string :=
  String.concat sep l.

(** [s.includes(sub)]. *)
Fixpoint includes (sub s : string) : bool :=
  String.prefix sub s ||
  match s with
  | EmptyString => false
  | String _ s' => includes sub s'
  end.

Definition startsWith (pre s : string) : bool := String.prefix pre s.

(** [s.substring(0, n)]. *)
Definition substring0 (n : nat) (s : string) : string :=
  String.substring 0 n s.

(** The number of code units of [s] equal to [c]. *)
Fixpoint count_char (c : ascii) (s : string) : nat :=
match s with
| EmptyString => 0
| String x s' => (if Ascii.eqb x c then 1 else 0) + count_char c s'
end.

(** [x | 0]: the signed 32-bit integer of [x]. *)
Definition to_int32 (x : Z) : Z := (x + 2 ^ 31) mod 2 ^ 32 - 2 ^ 31.

(** One turn of the loop of [hashString]:
    [hash = ((hash << 5) - hash) + char; hash = hash & hash]. *)
Definition hash_step (hash : Z) (c : ascii) : Z :=
  let hash := (to_int32 (Z.shiftl hash 5) - hash) + code c in
  to_int32 (Z.land hash hash).

Fixpoint hash_loop (hash : Z) (str : string) : Z :=
  match str with
  | EmptyString => hash
  | String c str' => hash_loop (hash_step hash c) str'
  end.

(** [hashString(str)]: the hash printed in decimal. *)
Definition hashString (str : string) : string := pretty (hash_loop 0 str).

(** The double quote, used inside the prompt templates. *)
Definition dquote : string := String (ascii_of_nat 34) EmptyString.

Definition newline : string := String (ascii_of_nat 10) EmptyString.

(** Truthiness of a string: only the empty string is falsy. *)
Definition nonempty (s : string) : bool :=
  match s with EmptyString => false | _ => true end.

(** [s || d] for an optional string [s]. *)
Definition or_default (s : option string) (d : string) : string :=
  match s with
  | Some v => if nonempty v then v else d
  | None => d
  end.

End JsString.

(** ** Data shared by the proxy and the browser application *)

(** A quote record, with the fields the engine reads. *)
Record Quote := mkQuote {
  id : string;
  text : string;
  author : option string;
  book_title : option string
}.

(** A value produced by [JSON.parse]. *)
#[warnings="-register-all"]
Inductive json :=
| JNull
| JBool (b : bool)
| JNum (q : Q)
| JStr (s : string)
| JArr (items : list json)
| JObj (fields : list (string * json)).

Module Json.

Definition truthy (v : json) : bool :=
  match v with
  | JNull => false
  | JBool b => b
  | JNum q => negb (Qeq_bool q 0)
  | JStr s => JsString.nonempty s
  | JArr _ | JObj _ => true
  end.

Fixpoint assoc (k : string) (fields : list (string * json)) : option json :=
  match fields with
  | [] => None
  | (k', v) :: rest => if String.eqb k k' then Some v else assoc k rest
  end.

(** [v.k] for one of the keys [title], [rationale], [labels] and a [v]
    other than [null]: [None] is [undefined]. *)
Definition prop (v : json) (k : string) : option json :=
  match v with
  | JObj fields => assoc k fields
  | _ => None
  end.

(** [v || d]. *)
Definition or_else (v : option json) (d : json) : json :=
  match v with
  | Some x => if truthy x then x else d
  | None => d
  end.

Definition isArray (v : option json) : bool :=
  match v with Some (JArr _) => true | _ => false end.

End Json.

(** The structured explanation of a connection. *)
Record Rationale := mkRationale {
  title : json;
  rationale : json;
  labels : json
}.

(** [{ title: parsed.title || 'Connected Ideas', rationale: ..., labels: ... }],
    the object built from a parsed reply by both implementations; reading a
    property of [null] throws, which is [None] here. *)
Definition rationale_of_parsed (parsed : json) : option Rationale :=
  match parsed with
  | JNull => None
  | _ =>
      Some {| title := Json.or_else (Json.prop parsed "title")
                                    (JStr "Connected Ideas");
              rationale := Json.or_else (Json.prop parsed "rationale")
                             (JStr "These quotes share interesting connections.");
              labels := if Json.isArray (Json.prop parsed "labels")
                        then default JNull (Json.prop parsed "labels")
                        else JArr [JStr "adjacent"] |}
  end.

(** One chat message of the upstream wire format. *)
Record message := mkMessage { role : string; content : string }.

(** The body of the request sent to the chat endpoint. *)
Record request := mkRequest {
  req_model : string;
  req_messages : list message;
  req_temperature : Q;
  req_max_tokens : Z;
  req_json_object : bool
}.

(** What the caller of [fetch] observes. For a 2xx reply, [BodyContent c] is
    the string [choices[0].message.content] of the decoded body, and
    [BodyThrows m] a body whose decoding or traversal throws an error with
    message [m]. *)
Inductive body_result :=
| BodyThrows (msg : string)
| BodyContent (c : string).

Inductive fetch_reply :=
| FetchRejects (msg : string)
| HttpReply (status : Z) (body : body_result).

(** [response.ok]. *)
Definition response_ok (status : Z) : bool :=
  (200 <=? status) && (status <=? 299).

(** A completed or failed computation. *)
Inductive outcome (A : Type) :=
| Returns (a : A)
| Throws (msg : string).
Arguments Returns {A} a.
Arguments Throws {A} msg.

(** Computations over a mutable state [S] that may throw; a throw keeps the
    changes made before it. *)
Definition Flow (S A : Type) : Type := S -> outcome A * S.

#[export] Instance Flow_ret {S} : MRet (Flow S) := fun A a w => (Returns a, w).

#[export] Instance Flow_bind {S} : MBind (Flow S) := fun A B f m w =>
  match m w with
  | (Returns a, w') => f a w'
  | (Throws msg, w') => (Throws msg, w')
  end.

Definition throw {S A : Type} (msg : string) : Flow S A :=
  fun w => (Throws msg, w).

(** [try { body } catch (error) { handler(error.message) }]. *)
Definition try_catch {S A : Type} (body : Flow S A)
    (handler : string -> Flow S A) : Flow S A :=
  fun w =>
    match body w with
    | (Returns a, w') => (Returns a, w')
    | (Throws msg, w') => handler msg w'
    end.

(** ** The serverless proxy, [functions/mapkeeper.js] *)

Module Server.

Import JsString.

Definition DEFAULT_MODEL : string := "gpt-4o-mini".
Definition DEFAULT_TEMPERATURE : Q := 7 # 10.
Definition DEFAULT_MAX_TOKENS : Z := 150.
Definition RATE_LIMIT_WINDOW : Z := 60 * 1000.
Definition RATE_LIMIT_MAX_REQUESTS : nat := 30.
Definition CACHE_TTL : Z := 60 * 60 * 1000.

(** The cache holds rationales (suggestions) and strings (narrations). *)
Inductive cache_value :=
| VRationale (r : Rationale)
| VText (s : string).

Definition truthy (v : cache_value) : bool :=
  match v with
  | VRationale _ => true
  | VText s => nonempty s
  end.

(** The value [v] when [if (v)] takes its branch. *)
Definition if_truthy (v : option cache_value) : option cache_value :=
  match v with
  | Some x => if truthy x then Some x else None
  | None => None
  end.

Record cache_entry := mkEntry { data : cache_value; expires : Z }.

(** The trace of a flow: which of the three services it reached, in
    order. The trace is not a variable of the program; every operation
    below appends to it as its first step. *)
Inductive event :=
| RateLimitChecked (clientId : string)
| CacheRead (key : string)
| CacheWritten (key : string)
| AICalled (messages : list message).

(** The two module-level maps, the number of clock readings made so far
    and the trace. *)
Record world := mkWorld {
  rateLimitStore : gmap string (list Z);
  responseCache : gmap string cache_entry;
  reads : nat;
  events : list event
}.

Definition M : Type -> Type := Flow world.

Definition log (e : event) : M unit := fun w =>
  (Returns tt, mkWorld (rateLimitStore w) (responseCache w) (reads w)
                       (events w ++ [e])).

Definition get_store : M (gmap string (list Z)) :=
  fun w => (Returns (rateLimitStore w), w).

Definition put_store (store : gmap string (list Z)) : M unit := fun w =>
  (Returns tt, mkWorld store (responseCache w) (reads w) (events w)).

Definition get_cache : M (gmap string cache_entry) :=
  fun w => (Returns (responseCache w), w).

Definition put_cache (cache : gmap string cache_entry) : M unit := fun w =>
  (Returns tt, mkWorld (rateLimitStore w) cache (reads w) (events w)).

(** The request body, [JSON.parse(event.body)]. [path] is [None] when the
    field is missing or not an array. *)
Record request_body := mkBody {
  seed : option Quote;
  suggestion : option Quote;
  path : option (list Quote);
  systemPrompt : option string;
  model : option string;
  temperature : option Q;
  maxTokens : option Z
}.

Record ai_options := mkOptions {
  opt_model : string;
  opt_temperature : Q;
  opt_max_tokens : option Z
}.

Record suggest_response := mkSuggest { resp_suggestion : cache_value }.

Record route_response := mkRoute {
  resp_path : list string;
  resp_narration : cache_value
}.

(** [x || d] on numbers: 0 is falsy; a missing number is [None]. *)
Definition Q_or (x : option Q) (d : Q) : Q :=
  match x with
  | Some q => if Qeq_bool q 0 then d else q
  | None => d
  end.

Definition Z_or (x : option Z) (d : Z) : Z :=
  match x with
  | Some z => if z =? 0 then d else z
  | None => d
  end.

(** [t ? `${pre}${t}` : ''] for an optional string [t]. *)
Definition prefixed (pre : string) (t : option string) : string :=
  match t with
  | Some v => if nonempty v then pre ++ v else EmptyString
  | None => EmptyString
  end.

(** The em dash U+2014 of the templates lies outside the code units of
    [string]; it is kept as the bytes of its UTF-8 form. *)
Definition em_dash : string := "—".

Definition getClientId (body : request_body) : string :=
  hashString (or_default (systemPrompt body) "default").

Definition getCacheKey (type id : string) (systemPrompt : option string)
  : string :=
  let promptHash := hashString (or_default systemPrompt "default") in
  type ++ ":" ++ id ++ ":" ++ promptHash.

Definition suggestionSystemPrompt : string :=
  "You are Mapkeeper, a thoughtful guide through a personal library of quotes and highlights. Your role is to suggest meaningful connections between ideas, helping users discover unexpected pathways through their own collected wisdom.

When suggesting a quote, provide:
1. A brief, compelling title for why this quote connects
2. A concise rationale (2-3 sentences) explaining the connection
3. Labels indicating the type of connection: " ++ dquote ++ "adjacent" ++ dquote
  ++ " (closely related), " ++ dquote ++ "oblique" ++ dquote
  ++ " (unexpected angle), or " ++ dquote ++ "wildcard" ++ dquote
  ++ " (surprising leap)

Be curious, insightful, and respectful of the personal nature of these collected thoughts.".

(** The user message of a suggestion, shared text of the template. *)
Definition suggestionUserMessage (dash : string) (seed : option Quote)
    (suggestion : Quote) : string :=
  "I'm exploring this quote:
" ++ dquote ++ or_default (text <$> seed) "Starting my journey" ++ dquote ++ "
" ++ prefixed (dash ++ " ") (seed ≫= author) ++ "
" ++ prefixed ", " (seed ≫= book_title) ++ "

You're suggesting this next quote:
" ++ dquote ++ text suggestion ++ dquote ++ "
" ++ prefixed (dash ++ " ") (author suggestion) ++ "
" ++ prefixed ", " (book_title suggestion) ++ "

Please provide a JSON response with:
- title: A compelling connection title (max 50 characters)
- rationale: Why this quote connects (2-3 sentences)
- labels: Array of connection types [" ++ dquote ++ "adjacent" ++ dquote ++ "|"
  ++ dquote ++ "oblique" ++ dquote ++ "|" ++ dquote ++ "wildcard" ++ dquote ++ "]

Respond only with valid JSON.".

Definition buildSuggestionPrompt (seed : option Quote) (suggestion : Quote)
    (systemPrompt : option string) : list message :=
  let systemMessage := or_default systemPrompt suggestionSystemPrompt in
  let userMessage := suggestionUserMessage em_dash seed suggestion in
  [ mkMessage "system" systemMessage; mkMessage "user" userMessage ].

Definition routeSystemPrompt : string :=
  "You are Mapkeeper, a thoughtful guide through a personal library of quotes and highlights. Create a narrative that weaves together the user's journey through their selected quotes, highlighting the connections and themes that emerge.".

Definition buildRoutePrompt (path : list Quote)
    (systemPrompt : option string) : list message :=
  let systemMessage := or_default systemPrompt routeSystemPrompt in
  let pathText :=
    join (newline ++ newline)
      (imap (fun index quote =>
               pretty (Z.of_nat index + 1) ++ ". " ++ dquote ++ text quote
               ++ dquote ++ " " ++ em_dash ++ " "
               ++ or_default (author quote) "Unknown" ++ ", "
               ++ or_default (book_title quote) "Unknown Book") path) in
  let userMessage :=
    "Here is the path I've taken through my quotes:

" ++ pathText ++ "

Please write a thoughtful narration (2-3 paragraphs) that weaves together this journey, highlighting the connections, themes, and insights that emerge from this particular sequence of quotes. Focus on the intellectual and emotional arc of the path." in
  [ mkMessage "system" systemMessage; mkMessage "user" userMessage ].

Section Environment.

(** The surroundings of the program: [JSON.parse], the variable
    [process.env.OPENAI_API_KEY], the network seen through [fetch], and
    the clock, whose [n]-th reading is [Date_now n]. *)
Variable JSON_parse : string -> outcome json.
Variable OPENAI_API_KEY : option string.
Variable fetch : request -> fetch_reply.
Variable Date_now : nat -> Z.

Definition now : M Z := fun w =>
  (Returns (Date_now (reads w)),
   mkWorld (rateLimitStore w) (responseCache w) (S (reads w)) (events w)).

(** [timestamps.filter(t => t > windowStart)]. *)
Definition live (windowStart : Z) (timestamps : list Z) : list Z :=
  filter (fun t => windowStart < t) timestamps.

(** The loop "Clean old entries" over the whole store. *)
Definition clean_old_entries (windowStart : Z)
    (store : gmap string (list Z)) : gmap string (list Z) :=
  omap (fun timestamps =>
          let validTimestamps := live windowStart timestamps in
          if decide (length validTimestamps = 0%nat) then None
          else Some validTimestamps) store.

Definition checkRateLimit (clientId : string) : M bool :=
  log (RateLimitChecked clientId);;
  now ← now;
  let windowStart := now - RATE_LIMIT_WINDOW in
  store ← get_store;
  put_store (clean_old_entries windowStart store);;
  store ← get_store;
  let clientTimestamps := default [] (store !! clientId) in
  let recentRequests := live windowStart clientTimestamps in
  if decide (RATE_LIMIT_MAX_REQUESTS <= length recentRequests)%nat
  then mret false
  else
    put_store (<[clientId := (recentRequests ++ [now])%list]> store);;
    mret true.

Definition getFromCache (key : string) : M (option cache_value) :=
  log (CacheRead key);;
  cache ← get_cache;
  match cache !! key with
  | None => mret None
  | Some entry =>
      now ← now;
      if expires entry <? now
      then put_cache (delete key cache);; mret None
      else mret (Some (data entry))
  end.

Definition setCache (key : string) (data : cache_value) : M unit :=
  log (CacheWritten key);;
  now ← now;
  cache ← get_cache;
  put_cache (<[key := mkEntry data (now + CACHE_TTL)]> cache).

Definition callOpenAI (messages : list message) (options : ai_options)
  : M string :=
  log (AICalled messages);;
  match OPENAI_API_KEY with
  | None => throw "OpenAI API key not configured"
  | Some apiKey =>
      if negb (nonempty apiKey) then throw "OpenAI API key not configured"
      else
        match messages !! 1%nat with
        | None =>
            throw "Cannot read properties of undefined (reading 'content')"
        | Some user =>
            let requestBody :=
              {| req_model := or_default (Some (opt_model options))
                                         DEFAULT_MODEL;
                 req_messages := messages;
                 req_temperature := Q_or (Some (opt_temperature options))
                                         DEFAULT_TEMPERATURE;
                 req_max_tokens := Z_or (opt_max_tokens options)
                                        DEFAULT_MAX_TOKENS;
                 req_json_object := includes "JSON" (content user) |} in
            match fetch requestBody with
            | FetchRejects msg => throw msg
            | HttpReply status body =>
                if negb (response_ok status)
                then throw ("OpenAI API error: " ++ pretty status)
                else match body with
                     | BodyThrows msg => throw msg
                     | BodyContent c => mret c
                     end
            end
        end
  end.

(** The object of the [catch] branch. *)
Definition parseFallback (response : string) : Rationale :=
  {| title := JStr "Connected Ideas";
     rationale := JStr (substring0 200 response ++ "...");
     labels := JArr [JStr "adjacent"] |}.

Definition parseSuggestionResponse (response : string) : Rationale :=
  match JSON_parse response with
  | Returns parsed =>
      match rationale_of_parsed parsed with
      | Some r => r
      | None => parseFallback response
      end
  | Throws _ => parseFallback response
  end.

Definition handleSuggestLogic (body : request_body)
  : M suggest_response :=
  match suggestion body with
  | None => throw "Missing suggestion text"
  | Some suggestion =>
      if negb (nonempty (text suggestion))
      then throw "Missing suggestion text"
      else
        (* Check rate limit *)
        let clientId := getClientId body in
        allowed ← checkRateLimit clientId;
        if negb allowed then throw "Rate limit exceeded"
        else
          (* Check cache *)
          let cacheKey :=
            getCacheKey "suggest" (id suggestion) (systemPrompt body) in
          cached ← getFromCache cacheKey;
          match if_truthy cached with
          | Some cached => mret (mkSuggest cached)
          | None =>
              (* Prepare prompt *)
              let prompt :=
                buildSuggestionPrompt (seed body) suggestion
                                      (systemPrompt body) in
              (* Call OpenAI *)
              aiResponse ← callOpenAI prompt
                {| opt_model := or_default (model body) DEFAULT_MODEL;
                   opt_temperature :=
                     Q_or (temperature body) DEFAULT_TEMPERATURE;
                   opt_max_tokens :=
                     Some (Z_or (maxTokens body) DEFAULT_MAX_TOKENS) |};
              (* Parse response *)
              let parsedResponse := parseSuggestionResponse aiResponse in
              (* Cache result *)
              setCache cacheKey (VRationale parsedResponse);;
              mret (mkSuggest (VRationale parsedResponse))
          end
  end.

Definition handleRouteLogic (body : request_body) : M route_response :=
  match path body with
  | None => throw "Missing or invalid path"
  | Some [] => throw "Missing or invalid path"
  | Some path =>
      (* Check rate limit *)
      let clientId := getClientId body in
      allowed ← checkRateLimit clientId;
      if negb allowed then throw "Rate limit exceeded"
      else
        (* Check cache *)
        let pathIds := join "-" (map id path) in
        let cacheKey := getCacheKey "route" pathIds (systemPrompt body) in
        cached ← getFromCache cacheKey;
        match if_truthy cached with
        | Some cached => mret (mkRoute (split "-" pathIds) cached)
        | None =>
            (* Prepare prompt *)
            let prompt := buildRoutePrompt path (systemPrompt body) in
            (* Call OpenAI *)
            aiResponse ← callOpenAI prompt
              {| opt_model := or_default (model body) DEFAULT_MODEL;
                 opt_temperature :=
                   Q_or (temperature body) DEFAULT_TEMPERATURE;
                 opt_max_tokens := (fun n => n * 2) <$> maxTokens body |};
            (* Cache result *)
            setCache cacheKey (VText aiResponse);;
            mret (mkRoute (split "-" pathIds) (VText aiResponse))
        end
  end.

(** The next [m] readings of the clock. *)
Definition readings (w : world) (m : nat) : list Z :=
  map (fun k => Date_now (reads w + k)) (seq 0 m).

(** [n] successive checks for one client, with their results. *)
Fixpoint repeat_checks (clientId : string) (n : nat) (w : world)
  : list (outcome bool) * world :=
  match n with
  | O => ([], w)
  | S n' =>
      let '(r, w1) := checkRateLimit clientId w in
      let '(rs, w2) := repeat_checks clientId n' w1 in
      (r :: rs, w2)
  end.

End Environment.

End Server.

(** ** The browser application, class [Mapkeeper] *)

Module Browser.

Import JsString.

(** *** [Set]: members in insertion order *)

Section JsSet.
Context {A : Type} `{EqDecision A}.

Definition set_has (x : A) (s : list A) : bool := bool_decide (x ∈ s).

Definition set_add (x : A) (s : list A) : list A :=
  if set_has x s then s else (s ++ [x])%list.

Definition set_delete (x : A) (s : list A) : list A :=
  filter (fun y => y <> x) s.

(** [new Set(array)]. *)
Definition set_of_array (l : list A) : list A :=
  foldl (fun s x => set_add x s) [] l.
End JsSet.

Record Settings := mkSettings {
  model : string;
  temperature : Q;
  maxTokens : Z;
  openaiApiKey : string;
  systemPrompt : string
}.

(** [this.currentSuggestion = { quote, seed, ...rationale }]. *)
Record Suggestion := mkSuggestion {
  quote : Quote;
  seed : Quote;
  explanation : Rationale
}.

(** The fields of the application object that the engine uses, and the
    list of the requests sent so far. *)
Record app := mkApp {
  quotes : list Quote;
  neighbors : gmap string (list string);
  path : list Quote;
  settings : Settings;
  cache : gmap string Rationale;
  currentSuggestion : option Suggestion;
  recentPicks : list string;
  sent : list request
}.

(** *** Candidate generation *)

(** The position of [this.quotes.find(q => q.id === neighborId)]; a quote
    object is identified by its position in [this.quotes]. *)
Fixpoint find_quote (neighborId : string) (quotes : list Quote)
  : option nat :=
  match quotes with
  | [] => None
  | q :: rest =>
      if String.eqb (id q) neighborId then Some 0%nat
      else S <$> find_quote neighborId rest
  end.

(** The body of [neighbors.forEach]. *)
Definition add_neighbor (a : app) (candidates : list nat)
    (neighborId : string) : list nat :=
  match find_quote neighborId (quotes a) with
  | Some i =>
      match quotes a !! i with
      | Some quote =>
          if negb (set_has (id quote) (recentPicks a))
          then set_add i candidates else candidates
      | None => candidates
      end
  | None => candidates
  end.

(** The body of [this.quotes.forEach]. *)
Definition add_lexical (a : app) (seed : Quote) (seedWords : list string)
    (candidates : list nat) (entry : nat * Quote) : list nat :=
  let '(i, quote) := entry in
  if String.eqb (id quote) (id seed) || set_has (id quote) (recentPicks a)
  then candidates
  else
    let quoteWords := split_ws (toLowerCase (text quote)) in
    let commonWords :=
      filter (fun word => (3 < String.length word)%nat /\ word ∈ quoteWords)
             seedWords in
    if decide (2 <= length commonWords)%nat
    then set_add i candidates else candidates.

(** The set [candidates], as positions in [this.quotes]. *)
Definition candidate_set (a : app) (seed : Quote) : list nat :=
  let candidates := [] in
  (* Add semantic neighbors *)
  let neighbors := default [] (neighbors a !! id seed) in
  let candidates := foldl (add_neighbor a) candidates neighbors in
  (* Add lexical matches *)
  let seedWords := split_ws (toLowerCase (text seed)) in
  foldl (add_lexical a seed seedWords) candidates
        (imap (fun i q => (i, q)) (quotes a)).

Definition getCandidates (a : app) (seed : Quote) : list Quote :=
  omap (fun i => quotes a !! i) (candidate_set a seed).

(** *** Ranking *)

(** [l.indexOf(x)]; [None] is -1. *)
Fixpoint indexOf (x : string) (l : list string) : option nat :=
  match l with
  | [] => None
  | y :: rest => if String.eqb y x then Some 0%nat else S <$> indexOf x rest
  end.

Definition Qnat (n : nat) : Q := inject_Z (Z.of_nat n).

(** The callback of [candidates.map], with [rnd] the value of
    [Math.random()]. *)
Definition score (a : app) (seed candidate : Quote) (rnd : Q) : Q :=
  let score := 0%Q in
  (* Semantic similarity *)
  let neighbors := default [] (neighbors a !! id seed) in
  let score :=
    match indexOf (id candidate) neighbors with
    | Some neighborIndex =>
        (score + (Qnat (length neighbors) - Qnat neighborIndex)
                 / Qnat (length neighbors) * (5 # 10))%Q
    | None => score
    end in
  (* Lexical similarity *)
  let seedWords := set_of_array (split_ws (toLowerCase (text seed))) in
  let candidateWords := split_ws (toLowerCase (text candidate)) in
  let commonWords :=
    filter (fun word => word ∈ seedWords) candidateWords in
  let score :=
    (score + Qnat (length commonWords)
             / Qnat (Nat.max (length seedWords) (length candidateWords))
             * (3 # 10))%Q in
  (* Novelty bonus *)
  let score :=
    if decide (author candidate <> author seed)
    then (score + (1 # 10))%Q else score in
  let score :=
    if decide (book_title candidate <> book_title seed)
    then (score + (1 # 10))%Q else score in
  (* Random factor *)
  (score + rnd * (1 # 10))%Q.

(** [Array.prototype.sort] with the comparator [(a, b) => b.score - a.score]:
    a stable sort by descending score. *)
Fixpoint insert_desc (x : Quote * Q) (l : list (Quote * Q))
  : list (Quote * Q) :=
  match l with
  | [] => [x]
  | y :: rest =>
      if Qle_bool (snd y) (snd x) then x :: y :: rest
      else y :: insert_desc x rest
  end.

Definition sort_desc (l : list (Quote * Q)) : list (Quote * Q) :=
  foldr insert_desc [] l.

(** [Math_random k] is the value drawn for the candidate at position [k]. *)
Definition scored (a : app) (Math_random : nat -> Q)
    (candidates : list Quote) (seed : Quote) : list (Quote * Q) :=
  imap (fun k candidate => (candidate, score a seed candidate (Math_random k)))
       candidates.

Definition rankCandidates (a : app) (Math_random : nat -> Q)
    (candidates : list Quote) (seed : Quote) : list Quote :=
  map fst (sort_desc (scored a Math_random candidates seed)).

(** *** Rationale retrieval *)

Definition put_cache (cache : gmap string Rationale) : Flow app unit :=
  fun a =>
    (Returns tt,
     mkApp (quotes a) (neighbors a) (path a) (settings a) cache
           (currentSuggestion a) (recentPicks a) (sent a)).

Definition log_request (r : request) : Flow app unit := fun a =>
  (Returns tt,
   mkApp (quotes a) (neighbors a) (path a) (settings a) (cache a)
         (currentSuggestion a) (recentPicks a) (sent a ++ [r])).

Definition read : Flow app app := fun a => (Returns a, a).

(** The dash of the template, as the source file has it. *)
Definition template_dash : string := "‚Äî".

Definition cacheKey_of (a : app) (suggestion : Quote) : string :=
  id suggestion ++ "-" ++ hashString (systemPrompt (settings a)).

Definition noKeyRationale : Rationale :=
  {| title := JStr "Connected Ideas";
     rationale := JStr "Add your OpenAI API key in Settings to get AI-powered connection explanations.";
     labels := JArr [JStr "adjacent"] |}.

(** The table of the [catch] branch. *)
Definition fallbackMessage (message : string) : string :=
  if includes "401" message then
    "Invalid API key. Please check your OpenAI API key in Settings."
  else if includes "429" message then
    "Rate limit reached. Please try again in a moment."
  else if includes "API request failed" message then
    "Unable to connect to OpenAI. Please check your internet connection and API key."
  else
    "This quote connects to your previous selection through shared themes and concepts.".

Definition fallbackRationale (message : string) : Rationale :=
  {| title := JStr "Connected Ideas";
     rationale := JStr (fallbackMessage message);
     labels := JArr [JStr "adjacent"] |}.

(** The body of the request of [getAIRationale]. *)
Definition requestBody (a : app) (seed : option Quote) (suggestion : Quote)
: request :=
let messages :=
  [ mkMessage "system" (systemPrompt (settings a));
    mkMessage "user"
      (Server.suggestionUserMessage template_dash seed suggestion) ] in
{| req_model := model (settings a);
   req_messages := messages;
   req_temperature := temperature (settings a);
   req_max_tokens := maxTokens (settings a);
   req_json_object := true |}.

Section Environment.

(** [JSON.parse] and the network seen through [fetch]. *)
Variable JSON_parse : string -> outcome json.
Variable fetch : request -> fetch_reply.

(** The [try] block. *)
Definition requestRationale (seed : option Quote) (suggestion : Quote)
    (cacheKey : string) : Flow app Rationale :=
  a ← read;
  let body := requestBody a seed suggestion in
  log_request body;;
  match fetch body with
  | FetchRejects msg => throw msg
  | HttpReply status reply =>
      if negb (response_ok status)
      then throw ("API request failed: " ++ pretty status)
      else
        match reply with
        | BodyThrows msg => throw msg
        | BodyContent content =>
            match JSON_parse content with
            | Throws msg => throw msg
            | Returns parsed =>
                match rationale_of_parsed parsed with
                | None =>
                    (* the message of V8 for [null.title] *)
                    throw "Cannot read properties of null (reading 'title')"
                | Some rationale =>
                    put_cache (<[cacheKey := rationale]> (cache a));;
                    mret rationale
                end
            end
        end
  end.

Definition getAIRationale (seed : option Quote) (suggestion : Quote)
  : Flow app Rationale :=
  a ← read;
  let cacheKey := cacheKey_of a suggestion in
  match cache a !! cacheKey with
  | Some cached => mret cached
  | None =>
      (* Check if API key is available *)
      if negb (nonempty (openaiApiKey (settings a)))
         || negb (startsWith "sk-" (openaiApiKey (settings a)))
      then mret noKeyRationale
      else
        try_catch (requestRationale seed suggestion cacheKey)
                  (fun message => mret (fallbackRationale message))
  end.

End Environment.

(** *** The path and the recency set *)

Definition acceptSuggestion (a : app) : app :=
  match currentSuggestion a with
  | None => a
  | Some current =>
      let quote := quote current in
      let path := (path a ++ [quote])%list in
      let recentPicks := set_add (id quote) (recentPicks a) in
      (* Limit recent picks to prevent repetition *)
      let recentPicks :=
        if decide (20 < length recentPicks)%nat then
          match recentPicks with
          | oldest :: _ => set_delete oldest recentPicks
          | [] => recentPicks
          end
        else recentPicks in
      mkApp (quotes a) (neighbors a) path (settings a) (cache a)
            (currentSuggestion a) recentPicks (sent a)
  end.

(** The assignments of a successful [handleFileUpload]. *)
Definition loadQuotes (quotes : list Quote) (a : app) : app :=
  mkApp quotes (neighbors a) [] (settings a) (cache a)
        (currentSuggestion a) [] (sent a).

(** [this.currentSuggestion = ...] in [getSuggestion]. *)
Definition setCurrentSuggestion (s : Suggestion) (a : app) : app :=
  mkApp (quotes a) (neighbors a) (path a) (settings a) (cache a)
        (Some s) (recentPicks a) (sent a).

(** [this.settings = ...] in [saveSettings] and [resetSettings]. *)
Definition setSettings (s : Settings) (a : app) : app :=
  mkApp (quotes a) (neighbors a) (path a) s (cache a)
        (currentSuggestion a) (recentPicks a) (sent a).

(** [this.neighbors = await neighborsResponse.json()] in [loadData]. *)
Definition setNeighbors (n : gmap string (list string)) (a : app) : app :=
mkApp (quotes a) n (path a) (settings a) (cache a)
      (currentSuggestion a) (recentPicks a) (sent a).

(** [this.path = JSON.parse(savedPath)] in [loadData]. *)
Definition setPath (p : list Quote) (a : app) : app :=
mkApp (quotes a) (neighbors a) p (settings a) (cache a)
      (currentSuggestion a) (recentPicks a) (sent a).

(** [this.quotes = ...] in [loadData]. *)
Definition setQuotes (q : list Quote) (a : app) : app :=
mkApp q (neighbors a) (path a) (settings a) (cache a)
      (currentSuggestion a) (recentPicks a) (sent a).

(** The state built by the constructor. *)
Definition initial (s : Settings) : app :=
mkApp [] ∅ [] s ∅ None [] [].

(** One operation of a session: every assignment to a field of the
  application object, and every call of [getAIRationale] (run to its end
  before the next operation starts), in any surroundings. *)
Inductive step : app -> app -> Prop :=
| step_accept a : step a (acceptSuggestion a)
| step_load quotes a : step a (loadQuotes quotes a)
| step_quotes quotes a : step a (setQuotes quotes a)
| step_neighbors n a : step a (setNeighbors n a)
| step_path p a : step a (setPath p a)
| step_suggestion s a : step a (setCurrentSuggestion s a)
| step_settings s a : step a (setSettings s a)
| step_rationale JSON_parse fetch seed suggestion a :
  step a (getAIRationale JSON_parse fetch seed suggestion a).2.

(** The states of a session. *)
Definition reachable (a : app) : Prop :=
exists s, rtc step (initial s) a.

(** *** The score as the specification words it *)

Definition tokens (q : Quote) : list string :=
split_ws (toLowerCase (text q)).

(** [(N - i) / N * 0.5] at position [i] among [N] neighbors, 0 when absent. *)
Definition graph_term (neighbors : list string) (candidateId : string) : Q :=
match indexOf candidateId neighbors with
| Some i =>
    ((Qnat (length neighbors) - Qnat i) / Qnat (length neighbors) * (5 # 10))%Q
| None => 0%Q
end.

(** The size of the intersection of the two token sets, divided by the
  larger of the two token-set sizes, times 0.3. *)
Definition set_lexical_term (seed candidate : Quote) : Q :=
let seedSet : gset string := list_to_set (tokens seed) in
let candidateSet : gset string := list_to_set (tokens candidate) in
(Qnat (size (seedSet ∩ candidateSet))
 / Qnat (Nat.max (size seedSet) (size candidateSet)) * (3 # 10))%Q.

(** The number of tokens of the candidate, repetitions included, that are
  tokens of the seed, divided by the larger of the size of the token set
  of the seed and the number of tokens of the candidate, repetitions
  included, times 0.3. *)
Definition counted_lexical_term (seed candidate : Quote) : Q :=
let seedSet : gset string := list_to_set (tokens seed) in
(Qnat (length (filter (fun word => word ∈ seedSet) (tokens candidate)))
 / Qnat (Nat.max (size seedSet) (length (tokens candidate))) * (3 # 10))%Q.

(** +0.1 for a differing author and +0.1 for a differing book title. *)
Definition novelty_term (seed candidate : Quote) : Q :=
((if decide (author candidate <> author seed) then 1 # 10 else 0)
 + (if decide (book_title candidate <> book_title seed) then 1 # 10 else 0))%Q.

(** The score of the specification. *)
Definition set_score (a : app) (seed candidate : Quote) (rnd : Q) : Q :=
(graph_term (default [] (neighbors a !! id seed)) (id candidate)
 + set_lexical_term seed candidate
 + novelty_term seed candidate
 + rnd * (1 # 10))%Q.

End Browser.

(** ** The hash as a polynomial *)

Module Hash.

(** [c0 * 31^(n-1) + ... + c(n-1)] for the code units [c0 ... c(n-1)] of
    [s], by Horner's rule on top of [acc]. *)
Fixpoint horner31 (acc : Z) (s : string) : Z :=
  match s with
  | EmptyString => acc
  | String c s' => horner31 (31 * acc + JsString.code c) s'
  end.

End Hash.

(** ** The platform adapters of the proxy *)

Module Adapter.

Import JsString Server.

(** [s.endsWith(suffix)]. *)
Definition endsWith (suffix s : string) : bool :=
  let n := String.length s in
  let m := String.length suffix in
  (m <=? n)%nat && String.eqb (String.substring (n - m) m s) suffix.

(** What the adapters read of a request: the method, the path, the
    [origin] header and the raw body. *)
Record http_request := mkHttpRequest {
  method : string;
  pathname : string;
  origin : option string;
  body : string
}.

(** The body of a response, before [JSON.stringify]. *)
Inductive payload :=
| NoBody
| ErrorBody (error : string)
| SuggestBody (result : suggest_response)
| RouteBody (result : route_response).

Record http_response := mkHttpResponse {
  status : Z;
  headers : gmap string string;
  payload_of : payload
}.

Definition defaultOrigins : list string :=
  ["http://localhost:3000"; "http://localhost:8080"; "https://localhost:3000"].

Definition contentType : gmap string string :=
  {[ "Content-Type" := "application/json" ]}.

(** A value of type [outcome] as a computation. *)
Definition of_outcome {S A : Type} (o : outcome A) : Flow S A :=
  fun w => (o, w).

Section Environment.

(** [process.env.ALLOWED_ORIGINS], and [decode], which stands for
    [JSON.parse] of the raw body followed by the destructuring of the
    result: it throws when either does. *)
Variable ALLOWED_ORIGINS : option string.
Variable decode : string -> outcome request_body.
Variable JSON_parse : string -> outcome json.
Variable OPENAI_API_KEY : option string.
Variable fetch : request -> fetch_reply.
Variable Date_now : nat -> Z.

Definition allowedOrigins : list string :=
  match ALLOWED_ORIGINS with
  | Some v => if nonempty v then split "," v else defaultOrigins
  | None => defaultOrigins
  end.

Definition isAllowed (origin : option string) : bool :=
  match origin with
  | Some o =>
      negb (nonempty o)
      || bool_decide (o ∈ allowedOrigins)
      || bool_decide ("*" ∈ allowedOrigins)
  | None => true
  end.

Definition getCorsHeaders (origin : option string) : gmap string string :=
  {[ "Access-Control-Allow-Origin" :=
       (if isAllowed origin then or_default origin "*" else "null");
     "Access-Control-Allow-Methods" := "GET, POST, OPTIONS";
     "Access-Control-Allow-Headers" := "Content-Type, Authorization";
     "Access-Control-Max-Age" := "86400" ]}.

Definition handleNetlifyRequest (event : http_request) : M http_response :=
  let corsHeaders := getCorsHeaders (origin event) in
  if String.eqb (method event) "OPTIONS"
  then mret (mkHttpResponse 200 corsHeaders NoBody)
  else
    try_catch
      (if endsWith "/suggest" (pathname event) then
         parsed ← of_outcome (decode (body event));
         result ← handleSuggestLogic JSON_parse OPENAI_API_KEY fetch Date_now
                    parsed;
         mret (mkHttpResponse 200
                 (<["Content-Type" := "application/json"]> corsHeaders)
                 (SuggestBody result))
       else if endsWith "/route" (pathname event) then
         parsed ← of_outcome (decode (body event));
         result ← handleRouteLogic OPENAI_API_KEY fetch Date_now parsed;
         mret (mkHttpResponse 200
                 (<["Content-Type" := "application/json"]> corsHeaders)
                 (RouteBody result))
       else
         mret (mkHttpResponse 404
                 (<["Content-Type" := "application/json"]> corsHeaders)
                 (ErrorBody "Not found")))
      (fun _ =>
         mret (mkHttpResponse 500
                 (<["Content-Type" := "application/json"]> corsHeaders)
                 (ErrorBody "Internal server error"))).

Definition handleSuggest (request : http_request) : M http_response :=
  if negb (String.eqb (method request) "POST")
  then mret (mkHttpResponse 405 contentType (ErrorBody "Method not allowed"))
  else
    parsed ← of_outcome (decode (body request));
    result ← handleSuggestLogic JSON_parse OPENAI_API_KEY fetch Date_now
               parsed;
    mret (mkHttpResponse 200 contentType (SuggestBody result)).

Definition handleRoute (request : http_request) : M http_response :=
  if negb (String.eqb (method request) "POST")
  then mret (mkHttpResponse 405 contentType (ErrorBody "Method not allowed"))
  else
    parsed ← of_outcome (decode (body request));
    result ← handleRouteLogic OPENAI_API_KEY fetch Date_now parsed;
    mret (mkHttpResponse 200 contentType (RouteBody result)).

(** [response.headers.set(key, value)] for every entry of [corsHeaders]. *)
Definition withCors (corsHeaders : gmap string string)
    (response : http_response) : http_response :=
  mkHttpResponse (status response) (corsHeaders ∪ headers response)
                 (payload_of response).

Definition handleRequest (request : http_request) : M http_response :=
  let path := pathname request in
  let corsHeaders := getCorsHeaders (origin request) in
  if String.eqb (method request) "OPTIONS"
  then mret (mkHttpResponse 200 corsHeaders NoBody)
  else
    try_catch
      (response ←
         (if endsWith "/suggest" path then handleSuggest request
          else if endsWith "/route" path then handleRoute request
          else mret (mkHttpResponse 404 contentType (ErrorBody "Not found")));
       mret (withCors corsHeaders response))
      (fun _ =>
         mret (mkHttpResponse 500
                 (<["Content-Type" := "application/json"]> corsHeaders)
                 (ErrorBody "Internal server error"))).

End Environment.

End Adapter.

(** ** More of the browser application: search, seed and suggestion *)

Module Explorer.

Import JsString Browser.

(** [array[i]] for a number [i] that is an integer: [undefined] outside of
    the array. *)
Definition at_index {A : Type} (l : list A) (i : Z) : option A :=
  if i <? 0 then None else l !! Z.to_nat i.

Definition getLastPathQuote (a : app) : option Quote := last (path a).

(** [getRandomQuote], with [rnd] the value of [Math.random()]. *)
Definition getRandomQuote (a : app) (rnd : Q) : option Quote :=
  if decide (length (quotes a) = 0%nat) then None
  else
    let availableQuotes :=
      filter (fun q => id q ∉ recentPicks a) (quotes a) in
    let quotes :=
      if decide (0 < length availableQuotes)%nat then availableQuotes
      else quotes a in
    at_index quotes (Qfloor (rnd * Qnat (length quotes))).

(** The callback of [words.forEach] in [searchQuotes]. *)
Definition word_score (text title author : string) (score : Z)
    (word : string) : Z :=
  let score := if includes word text then score + 2 else score in
  let score := if includes word title then score + 1 else score in
  if includes word author then score + 1 else score.

(** The callback of the first [map] of [searchQuotes]. *)
Definition search_score (queryLower : string) (words : list string)
    (quote : Quote) : Z :=
  let score := 0 in
  let text := toLowerCase (text quote) in
  let title := toLowerCase (or_default (book_title quote) EmptyString) in
  let author := toLowerCase (or_default (author quote) EmptyString) in
  (* Exact phrase match *)
  let score := if includes queryLower text then score + 10 else score in
  (* Word matches *)
  foldl (word_score text title author) score words.

(** [searchQuotes]; the scores are integers, which the sort compares as
    rationals. *)
Definition searchQuotes (a : app) (query : string) : list Quote :=
  let queryLower := toLowerCase query in
  let words := split_ws queryLower in
  let items :=
    map (fun quote => (quote, search_score queryLower words quote))
        (quotes a) in
  let items := filter (fun item => 0 < item.2) items in
  map fst (sort_desc (map (fun item => (item.1, inject_Z item.2)) items)).

(** [a || b] on two values that are an object or [null]. *)
Definition or_quote {A : Type} (x y : option A) : option A :=
  match x with Some _ => x | None => y end.

Definition assign (f : app -> app) : Flow app unit :=
  fun a => (Returns tt, f a).

Section Environment.

Variable JSON_parse : string -> outcome json.
Variable fetch : request -> fetch_reply.

(** [getSuggestion(seedQuote)], with [rnd] the value that [Math.random()]
    gives to [getRandomQuote] and [Math_random k] the one it gives for the
    candidate at position [k]. The result is the text that the function
    hands to [addMessage], if any; the modal dialog is left out. *)
Definition getSuggestion (seedQuote : option Quote) (rnd : Q)
    (Math_random : nat -> Q) : Flow app (option string) :=
  try_catch
    (a ← read;
     (* Get seed quote (last in path, provided quote, or random) *)
     match or_quote seedQuote
             (or_quote (getLastPathQuote a) (getRandomQuote a rnd)) with
     | None => mret (Some "Please upload your Kindle highlights first.")
     | Some seed =>
         (* Get candidates *)
         let candidates := getCandidates a seed in
         if decide (length candidates = 0%nat)
         then mret (Some "No more suggestions available.")
         else
           (* Pick best candidate *)
           match head (rankCandidates a Math_random candidates seed) with
           | None =>
               throw "Cannot read properties of undefined (reading 'id')"
           | Some suggestion =>
               (* Get AI rationale *)
               rationale ← getAIRationale JSON_parse fetch (Some seed)
                                          suggestion;
               assign (setCurrentSuggestion
                         (mkSuggestion suggestion seed rationale));;
               mret None
           end
     end)
    (fun _ => mret (Some "Sorry, I had trouble generating a suggestion.")).

End Environment.

End Explorer.

(** ** Import of highlights in CSV form *)

Module Csv.

Import JsString.

(** [String.prototype.trim] on code units below 256. *)
Fixpoint trimStart (s : string) : string :=
  match s with
  | EmptyString => EmptyString
  | String c s' => if is_space c then trimStart s' else s
  end.

Fixpoint trimEnd (s : string) : string :=
  match s with
  | EmptyString => EmptyString
  | String c s' =>
      match trimEnd s' with
      | EmptyString =>
          if is_space c then EmptyString else String c EmptyString
      | t => String c t
      end
  end.

Definition trim (s : string) : string := trimEnd (trimStart s).

Definition quote_char : ascii := ascii_of_nat 34.

Definition comma : ascii := ",".

(** The [while] loop of [parseCSVLine] on what is left of the line. *)
Fixpoint parse_loop (line : string) (result : list string)
    (current : string) (inQuotes : bool) : list string :=
  match line with
  | EmptyString =>
      (* Add the last field *)
      (result ++ [trim current])%list
  | String char rest =>
      if Ascii.eqb char quote_char then
        match rest with
        | String next rest' =>
            if inQuotes && Ascii.eqb next quote_char
            then (* Escaped quote *)
              parse_loop rest' result (current ++ dquote) inQuotes
            else (* Toggle quote state *)
              parse_loop rest result current (negb inQuotes)
        | EmptyString => parse_loop rest result current (negb inQuotes)
        end
      else if Ascii.eqb char comma && negb inQuotes then
        (* Field separator *)
        parse_loop rest (result ++ [trim current])%list EmptyString inQuotes
      else
        parse_loop rest result (current ++ String char EmptyString) inQuotes
  end.

Definition parseCSVLine (line : string) : list string :=
  parse_loop line [] EmptyString false.

(** The table [columnMappings], in the order of its keys. *)
Definition columnMappings : list (string * list string) :=
  [ ("highlight", ["highlight"; "text"; "quote"; "content"]);
    ("book_title", ["book title"; "title"; "book"; "book_title"]);
    ("author", ["book author"; "author"; "book_author"]);
    ("location", ["location"]);
    ("note", ["note"; "notes"]);
    ("color", ["color"; "colour"]);
    ("tags", ["tags"; "tag"]);
    ("location_type", ["location type"; "location_type"]);
    ("highlighted_at",
     ["highlighted at"; "highlighted_at"; "date"; "timestamp"]);
    ("amazon_id", ["amazon book id"; "amazon_book_id"; "book_id"; "id"]) ].

(** The [for] loop over the table: the first field with [colLower] among
    its variations. *)
Definition field_of (colLower : string) : option string :=
  fst <$> List.find (fun entry : string * list string =>
                       bool_decide (colLower ∈ entry.2)) columnMappings.

(** The callback of [header.forEach]. *)
Definition add_column (map : gmap string nat) (entry : nat * string)
  : gmap string nat :=
  let '(index, col) := entry in
  let colLower := trim (toLowerCase col) in
  match field_of colLower with
  | Some field => <[field := index]> map
  | None => map
  end.

Definition createColumnMap (header : list string) : gmap string nat :=
  foldl add_column ∅ (imap (fun index col => (index, col)) header).

(** [s.split(/[,;|]/)]. *)
Definition is_tag_separator (c : ascii) : bool :=
  Ascii.eqb c "," || Ascii.eqb c ";" || Ascii.eqb c "|".

Fixpoint split_tags (s : string) : list string :=
  match s with
  | EmptyString => [EmptyString]
  | String c s' =>
      if is_tag_separator c then EmptyString :: split_tags s'
      else match split_tags s' with
           | piece :: pieces => String c piece :: pieces
           | [] => [String c EmptyString]
           end
  end.

(** [s.padStart(n, c)] for a one-character filler. *)
Fixpoint pad (k : nat) (c : ascii) (s : string) : string :=
  match k with
  | O => s
  | S k' => String c (pad k' c s)
  end.

Definition padStart (n : nat) (c : ascii) (s : string) : string :=
  pad (n - String.length s) c s.

(** [s || null]. *)
Definition or_null (s : string) : option string :=
  if nonempty s then Some s else None.

(** The object that [parseCSVRow] returns. *)
Record Highlight := mkHighlight {
  id : string;
  text : string;
  author : string;
  book_title : string;
  page : option Z;
  location : option Z;
  added_at : option string;
  tags : list string;
  notes : option string;
  source : string;
  color : option string;
  location_type : option string;
  amazon_id : option string
}.

(** The fields of a highlight that the engine reads. *)
Definition quote_of (h : Highlight) : Quote :=
  mkQuote (id h) (text h) (Some (author h)) (Some (book_title h)).

Section Environment.

(** [parseInt], with [None] for [NaN]. *)
Variable parseInt : string -> option Z.

Definition getValue (values : list string) (columnMap : gmap string nat)
    (field : string) : string :=
  match columnMap !! field with
  | Some index => default EmptyString (trim <$> values !! index)
  | None => EmptyString
  end.

Definition parseCSVRow (values : list string) (columnMap : gmap string nat)
    (rowIndex : nat) : option Highlight :=
  let text := getValue values columnMap "highlight" in
  if negb (nonempty text) || String.eqb (toLowerCase text) "n/a" then None
  else
    let author := getValue values columnMap "author" in
    let book_title := getValue values columnMap "book_title" in
    let location := getValue values columnMap "location" in
    let note := getValue values columnMap "note" in
    let color := getValue values columnMap "color" in
    let tags := getValue values columnMap "tags" in
    let location_type := getValue values columnMap "location_type" in
    let highlighted_at := getValue values columnMap "highlighted_at" in
    let amazon_id := getValue values columnMap "amazon_id" in
    (* Parse location as number *)
    let parsedLocation :=
      if nonempty location then parseInt location else None in
    (* Parse tags *)
    let parsedTags :=
      if nonempty tags
      then filter (fun t => nonempty t = true) (map trim (split_tags tags))
      else [] in
    Some {| id := "quote_"
                  ++ padStart 6 "0" (pretty (Z.of_nat rowIndex + 1));
            text := text;
            author := author;
            book_title := book_title;
            page := None;
            location := parsedLocation;
            added_at := or_null highlighted_at;
            tags := parsedTags;
            notes := or_null note;
            source := "Kindle";
            color := or_null color;
            location_type := or_null location_type;
            amazon_id := or_null amazon_id |}.

(** The callback of [lines.slice(1).forEach]. *)
Definition add_row (columnMap : gmap string nat) (quotes : list Highlight)
    (entry : nat * string) : list Highlight :=
  let '(index, line) := entry in
  if negb (nonempty (trim line)) then quotes
  else
    let values := parseCSVLine line in
    match parseCSVRow values columnMap index with
    | Some quote => (quotes ++ [quote])%list
    | None => quotes
    end.

Definition parseCSVHighlights (csvText : string) : list Highlight :=
  let quotes := [] in
  let lines := split (ascii_of_nat 10) (trim csvText) in
  if decide (length lines < 2)%nat then quotes
  else
    (* Parse header *)
    let header := parseCSVLine (default EmptyString (lines !! 0%nat)) in
    let columnMap := createColumnMap header in
    (* Parse data rows *)
    foldl (add_row columnMap) quotes
          (imap (fun index line => (index, line)) (drop 1 lines)).

End Environment.

(** A field as a writer of CSV files quotes it: between two double quotes,
    with every double quote of the field doubled. *)
Fixpoint escaped (field : string) : string :=
  match field with
  | EmptyString => EmptyString
  | String c rest =>
      if Ascii.eqb c quote_char
      then String quote_char (String quote_char (escaped rest))
      else String c (escaped rest)
  end.

Definition quoted (field : string) : string :=
  String quote_char (escaped field ++ dquote).

End Csv.

(** * Properties *)

(** ** Sanity checks of the string primitives *)

Example hashString_default : JsString.hashString "default" = "1544803905".
Proof. vm_compute. reflexivity. Qed.

Example split_ws_edges :
  JsString.split_ws "  the  life "
  = [EmptyString; "the"; "life"; EmptyString].
Proof. reflexivity. Qed.

Example split_dash :
  JsString.split "-" "a-b--c" = ["a"; "b"; EmptyString; "c"].
Proof. reflexivity. Qed.

(** ** The rate limiter *)

Module RateLimitFacts.

Import Server.

Section Clock.

Variable Date_now : nat -> Z.

Lemma live_idemp ws l : live ws (live ws l) = live ws l.
Proof.
  unfold live. induction l as [|t l IH]; [done|].
  rewrite filter_cons. case_decide as Ht.
  - rewrite filter_cons. case_decide; [|done]. by rewrite IH.
  - exact IH.
Qed.

Lemma live_all ws l : Forall (fun t => ws < t) l -> live ws l = l.
Proof.
  unfold live. induction 1 as [|t l Ht _ IH]; [done|].
  rewrite filter_cons. case_decide; [|done]. by rewrite IH.
Qed.

Lemma live_none ws l : Forall (fun t => t <= ws) l -> live ws l = [].
Proof.
  unfold live. induction 1 as [|t l Ht _ IH]; [done|].
  rewrite filter_cons. case_decide; [lia|done].
Qed.

(** The cleaning loop leaves, for each client, its live timestamps. *)
Lemma clean_lookup ws store (k : string) :
  default [] (clean_old_entries ws store !! k)
  = live ws (default [] (store !! k)).
Proof.
  unfold clean_old_entries. rewrite lookup_omap.
  destruct (store !! k) as [ts|]; simpl; [|done].
  case_decide as Hlen; simpl; [|done].
  by destruct (live ws ts).
Qed.

Lemma clean_lookup_Some ws store (k : string) ts :
  clean_old_entries ws store !! k = Some ts ->
  ts = live ws (default [] (store !! k)) /\ ts <> [].
Proof.
  unfold clean_old_entries. rewrite lookup_omap.
  destruct (store !! k) as [ts'|]; simpl; [|done].
  case_decide as Hlen; [done|]. intros [= <-]. split; [done|].
  intros E. apply Hlen. by rewrite E.
Qed.

(** One check, in closed form. *)
Lemma checkRateLimit_run clientId w :
  let now := Date_now (reads w) in
  let windowStart := now - RATE_LIMIT_WINDOW in
  let store1 := clean_old_entries windowStart (rateLimitStore w) in
  let recent := live windowStart (default [] (rateLimitStore w !! clientId)) in
  let trace := (events w ++ [RateLimitChecked clientId])%list in
  checkRateLimit Date_now clientId w =
  if decide (RATE_LIMIT_MAX_REQUESTS <= length recent)%nat
  then (Returns false,
        mkWorld store1 (responseCache w) (S (reads w)) trace)
  else (Returns true,
        mkWorld (<[clientId := (recent ++ [now])%list]> store1)
                (responseCache w) (S (reads w)) trace).
Proof.
  intros now0 windowStart store1 recent trace.
  unfold checkRateLimit, mbind, Flow_bind, mret, Flow_ret; simpl.
  fold now0 windowStart store1.
  assert (E : live windowStart (default [] (store1 !! clientId)) = recent).
  { unfold store1. rewrite clean_lookup. apply live_idemp. }
  rewrite E.
  destruct (decide (RATE_LIMIT_MAX_REQUESTS <= length recent)%nat); done.
Qed.

Lemma checkRateLimit_reads clientId w :
  reads (checkRateLimit Date_now clientId w).2 = S (reads w).
Proof. rewrite checkRateLimit_run. by case_decide. Qed.

Lemma readings_S w m :
  readings Date_now w (S m)
  = Date_now (reads w)
    :: map (fun k => Date_now (S (reads w) + k)) (seq 0 m).
Proof.
  unfold readings. simpl. rewrite Nat.add_0_r. f_equal.
  rewrite <- seq_shift, map_map. apply map_ext. intros k. f_equal. lia.
Qed.

(** [m] checks made inside one window, by a client whose live
    timestamps are [recorded]: the first [30 - |recorded|] are allowed
    and recorded, the others denied and not recorded. *)
Lemma repeat_checks_run clientId m : forall w recorded,
  (forall k, (k < m)%nat ->
     live (Date_now (reads w + k) - RATE_LIMIT_WINDOW)
          (default [] (rateLimitStore w !! clientId)) = recorded) ->
  (forall j k, (j < m)%nat -> (k < m)%nat ->
     Date_now (reads w + k) - Date_now (reads w + j) < RATE_LIMIT_WINDOW) ->
  let room := (RATE_LIMIT_MAX_REQUESTS - length recorded)%nat in
  let run := repeat_checks Date_now clientId m w in
  run.1 = (replicate (Nat.min m room) (Returns true)
           ++ replicate (m - room) (Returns false))%list
  /\ ((0 < m)%nat ->
      default [] (rateLimitStore run.2 !! clientId)
      = (recorded ++ take room (readings Date_now w m))%list)
  /\ reads run.2 = (reads w + m)%nat.
Proof.
  induction m as [|m IH]; intros w recorded Hlive Hwin room run.
  { subst run. simpl. repeat split; [lia|lia]. }
  subst run room. simpl.
  pose proof (checkRateLimit_run clientId w) as Hrun. simpl in Hrun.
  pose proof (Hlive 0%nat ltac:(lia)) as H0. rewrite Nat.add_0_r in H0.
  rewrite H0 in Hrun.
  assert (Hrec : forall k, (k < m)%nat ->
            live (Date_now (S (reads w) + k) - RATE_LIMIT_WINDOW) recorded
            = recorded).
  { intros k Hk. pose proof (Hlive (S k) ltac:(lia)) as Hk'.
    replace (reads w + S k)%nat with (S (reads w) + k)%nat in Hk' by lia.
    rewrite <- Hk' at 1. rewrite live_idemp. exact Hk'. }
  assert (Hwin' : forall j k, (j < m)%nat -> (k < m)%nat ->
            Date_now (S (reads w) + k) - Date_now (S (reads w) + j)
            < RATE_LIMIT_WINDOW).
  { intros j k Hj Hk. pose proof (Hwin (S j) (S k) ltac:(lia) ltac:(lia)) as H.
    by replace (reads w + S k)%nat with (S (reads w) + k)%nat in H by lia;
       replace (reads w + S j)%nat with (S (reads w) + j)%nat in H by lia. }
  destruct (decide (RATE_LIMIT_MAX_REQUESTS <= length recorded)%nat)
    as [Hfull|Hroom].
  - (* denied *)
    rewrite Hrun.
    set (w1 := mkWorld _ _ _ _).
    assert (Hw1 : default [] (rateLimitStore w1 !! clientId) = recorded).
    { unfold w1; simpl. rewrite clean_lookup. exact H0. }
    destruct (IH w1 recorded) as (Hres & Hstore & Hreads).
    { intros k Hk. rewrite Hw1. by apply Hrec. }
    { exact Hwin'. }
    destruct (repeat_checks Date_now clientId m w1) as [rs w2] eqn:E.
    simpl in *.
    replace (RATE_LIMIT_MAX_REQUESTS - length recorded)%nat with 0%nat
      in * by lia.
    rewrite Nat.min_0_r, Nat.sub_0_r in Hres. simpl in Hres.
    rewrite Nat.sub_0_r. simpl. repeat split.
    + by rewrite Hres.
    + intros _. rewrite app_nil_r. destruct m as [|m'].
      * simpl in E. injection E as <- <-. exact Hw1.
      * rewrite Hstore by lia. by rewrite app_nil_r.
    + rewrite Hreads. lia.
  - (* allowed *)
    rewrite Hrun.
    set (w1 := mkWorld _ _ _ _).
    set (now0 := Date_now (reads w)) in *.
    assert (Hw1 : default [] (rateLimitStore w1 !! clientId)
                  = (recorded ++ [now0])%list).
    { unfold w1; simpl. by rewrite lookup_insert_eq. }
    destruct (IH w1 (recorded ++ [now0])%list) as (Hres & Hstore & Hreads).
    { intros k Hk. rewrite Hw1. unfold live. rewrite filter_app.
      fold (live (Date_now (reads w1 + k) - RATE_LIMIT_WINDOW) recorded).
      unfold w1 at 1; simpl.
      pose proof (Hrec k Hk) as Hr. simpl in Hr. rewrite Hr. f_equal.
      rewrite filter_cons. case_decide as Hc; [done|]. exfalso. apply Hc.
      pose proof (Hwin 0%nat (S k) ltac:(lia) ltac:(lia)) as H.
      rewrite Nat.add_0_r in H.
      replace (reads w + S k)%nat with (S (reads w) + k)%nat in H by lia.
      simpl in H. fold now0 in H. lia. }
    { exact Hwin'. }
    destruct (repeat_checks Date_now clientId m w1) as [rs w2] eqn:E.
    simpl in *.
    rewrite length_app in Hres, Hstore. simpl in Hres, Hstore.
    replace (RATE_LIMIT_MAX_REQUESTS - length recorded)%nat
      with (S (RATE_LIMIT_MAX_REQUESTS - (length recorded + 1)))%nat by lia.
    repeat split.
    + rewrite Hres. simpl. done.
    + intros _. rewrite readings_S. simpl. destruct m as [|m'].
      * simpl in E. injection E as <- <-. simpl.
        rewrite lookup_insert_eq. simpl. by rewrite take_nil.
      * rewrite Hstore by lia. rewrite <- app_assoc. done.
    + rewrite Hreads. simpl. lia.
Qed.

(** C6. Thirty-one checks of one client inside one 60-second window,
    starting with no live timestamp: the first thirty are allowed and
    the thirty-first is denied; the store then holds exactly the thirty
    allowed timestamps (the denied check recorded nothing); and a check
    made once these are all 60 seconds old is allowed again and leaves
    only its own timestamp, so the count starts afresh. *)
Theorem rate_limit_window clientId w
  (Hfresh : forall t k, t ∈ default [] (rateLimitStore w !! clientId) ->
              (k < 31)%nat ->
              t <= Date_now (reads w + k) - RATE_LIMIT_WINDOW)
  (Hwindow : forall j k, (j < 31)%nat -> (k < 31)%nat ->
               Date_now (reads w + k) - Date_now (reads w + j)
               < RATE_LIMIT_WINDOW) :
  let run := repeat_checks Date_now clientId 31 w in
  run.1 = (replicate 30 (Returns true) ++ [Returns false])%list
  /\ rateLimitStore run.2 !! clientId = Some (readings Date_now w 30)
  /\ (let later := Date_now (reads w + 31) in
      (forall k, (k < 30)%nat ->
         Date_now (reads w + k) <= later - RATE_LIMIT_WINDOW) ->
      let again := checkRateLimit Date_now clientId run.2 in
      again.1 = Returns true
      /\ rateLimitStore again.2 !! clientId = Some [later]).
Proof.
  intros run.
  destruct (repeat_checks_run clientId 31 w []) as (Hres & Hstore & Hreads).
  { intros k Hk. apply live_none, Forall_forall. intros t Ht. eauto. }
  { exact Hwindow. }
  fold run in Hres, Hstore, Hreads.
  specialize (Hstore ltac:(lia)).
  change (RATE_LIMIT_MAX_REQUESTS - length (@nil Z))%nat with 30%nat
    in Hres, Hstore.
  assert (Hlook : rateLimitStore run.2 !! clientId
                  = Some (readings Date_now w 30)).
  { change (take 30 (readings Date_now w 31))
      with (readings Date_now w 30) in Hstore.
    destruct (rateLimitStore run.2 !! clientId) as [l|]; simpl in Hstore.
    - by rewrite Hstore.
    - discriminate Hstore. }
  split; [exact Hres|]. split; [exact Hlook|].
  intros later Hold again. subst again.
  rewrite checkRateLimit_run. rewrite Hlook. simpl default.
  rewrite Hreads. fold later.
  rewrite live_none.
  2:{ apply Forall_forall. intros t Ht. unfold readings in Ht.
      apply list_elem_of_fmap in Ht as (k & -> & Hk).
      apply elem_of_seq in Hk. apply Hold. lia. }
  simpl. split; [done|]. by rewrite lookup_insert_eq.
Qed.

End Clock.

(** One request per second, from an empty store, then one an hour later. *)
Lemma rate_limit_window_witness :
  let every_second := fun n : nat =>
    if (n <? 31)%nat then Z.of_nat n * 1000 else 3600000 in
  let w0 := mkWorld ∅ ∅ 0 [] in
  let run := repeat_checks every_second "1544803905" 31 w0 in
  run.1 = (replicate 30 (Returns true) ++ [Returns false])%list
  /\ rateLimitStore run.2 !! "1544803905"
     = Some (readings every_second w0 30)
  /\ (checkRateLimit every_second "1544803905" run.2).1 = Returns true
  /\ rateLimitStore (checkRateLimit every_second "1544803905" run.2).2
       !! "1544803905" = Some [3600000].
Proof.
  intros every_second w0 run.
  assert (Hreadings : forall k, (k < 31)%nat ->
            every_second (reads w0 + k)%nat = Z.of_nat k * 1000).
  { intros k Hk. unfold every_second. simpl.
    destruct (Nat.ltb_spec k 31); [done|lia]. }
  destruct (rate_limit_window every_second "1544803905" w0)
    as (Hres & Hstore & Hreset).
  - intros t k Ht _. simpl in Ht. by apply elem_of_nil in Ht.
  - intros j k Hj Hk. rewrite !Hreadings by done.
    unfold RATE_LIMIT_WINDOW. lia.
  - split; [exact Hres|]. split; [exact Hstore|].
    apply Hreset. intros k Hk. rewrite Hreadings by lia.
    change (every_second (reads w0 + 31)%nat) with 3600000.
    unfold RATE_LIMIT_WINDOW. lia.
Defined.

End RateLimitFacts.

(** ** The response cache *)

Module CacheFacts.

Import Server.

Section Clock.

Variable Date_now : nat -> Z.

(** A read of a key that has an entry, in closed form. *)
Lemma getFromCache_run key entry w :
  responseCache w !! key = Some entry ->
  getFromCache Date_now key w =
  if expires entry <? Date_now (reads w)
  then (Returns None,
        mkWorld (rateLimitStore w) (delete key (responseCache w))
                (S (reads w)) (events w ++ [CacheRead key]))
  else (Returns (Some (data entry)),
        mkWorld (rateLimitStore w) (responseCache w)
                (S (reads w)) (events w ++ [CacheRead key])).
Proof.
  intros Hentry.
  unfold getFromCache, mbind, Flow_bind, mret, Flow_ret; simpl.
  rewrite Hentry. simpl.
  by destruct (expires entry <? Date_now (reads w)).
Qed.

(** A read of a key without entry: absent, and the clock is not read. *)
Lemma getFromCache_miss key w :
  responseCache w !! key = None ->
  getFromCache Date_now key w =
  (Returns None,
   mkWorld (rateLimitStore w) (responseCache w) (reads w)
           (events w ++ [CacheRead key])).
Proof.
  intros Hnone.
  unfold getFromCache, mbind, Flow_bind, mret, Flow_ret; simpl.
  by rewrite Hnone.
Qed.

(** A read never throws. *)
Lemma getFromCache_returns key w :
  exists cached, (getFromCache Date_now key w).1 = Returns cached.
Proof.
  destruct (responseCache w !! key) as [entry|] eqn:Hlook.
  - rewrite (getFromCache_run key entry w Hlook).
    destruct (expires entry <? Date_now (reads w)); by eexists.
  - rewrite (getFromCache_miss key w Hlook). by eexists.
Qed.

Lemma setCache_run key v w :
  setCache Date_now key v w =
  (Returns tt,
   mkWorld (rateLimitStore w)
           (<[key := mkEntry v (Date_now (reads w) + CACHE_TTL)]>
              (responseCache w))
           (S (reads w)) (events w ++ [CacheWritten key])).
Proof. reflexivity. Qed.


(** A value written at one reading of the clock and read at the next is
    found exactly when at most one hour has passed. *)
Lemma cache_write_then_read key v w :
  let written := Date_now (reads w) in
  let read := Date_now (S (reads w)) in
  (getFromCache Date_now key (setCache Date_now key v w).2).1
  = Returns (if written + CACHE_TTL <? read then None else Some v).
Proof.
  intros written read. rewrite setCache_run. simpl.
  erewrite getFromCache_run by (simpl; apply lookup_insert_eq).
  simpl. fold written read.
  by destruct (written + CACHE_TTL <? read).
Qed.

End Clock.


End CacheFacts.

(** ** The suggestion flow of the proxy *)

Module SuggestFacts.

Import Server.

Section Environment.

Variable JSON_parse : string -> outcome json.
Variable OPENAI_API_KEY : option string.
Variable fetch : request -> fetch_reply.
Variable Date_now : nat -> Z.

Local Abbreviation handleSuggest :=
  (handleSuggestLogic JSON_parse OPENAI_API_KEY fetch Date_now).

(** A call of the AI client changes nothing but the trace. *)
Lemma callOpenAI_world messages options w :
  (callOpenAI OPENAI_API_KEY fetch messages options w).2
  = mkWorld (rateLimitStore w) (responseCache w) (reads w)
            (events w ++ [AICalled messages]).
Proof.
  unfold callOpenAI, mbind, Flow_bind, mret, Flow_ret, throw; simpl.
  destruct OPENAI_API_KEY as [apiKey|]; [|done].
  destruct (JsString.nonempty apiKey); [|done]. simpl.
  destruct (messages !! 1%nat); [|done].
  destruct (fetch _) as [msg|status body]; [done|].
  destruct (response_ok status); [|done]. simpl.
  by destruct body.
Qed.

(** The flow of a well-formed request, step by step. *)
Lemma handleSuggest_run body s w :
  suggestion body = Some s ->
  JsString.nonempty (text s) = true ->
  let clientId := getClientId body in
  let cacheKey := getCacheKey "suggest" (id s) (systemPrompt body) in
  let prompt := buildSuggestionPrompt (seed body) s (systemPrompt body) in
  let options :=
    {| opt_model := JsString.or_default (model body) DEFAULT_MODEL;
       opt_temperature := Q_or (temperature body) DEFAULT_TEMPERATURE;
       opt_max_tokens := Some (Z_or (maxTokens body) DEFAULT_MAX_TOKENS) |} in
  handleSuggest body w =
  match checkRateLimit Date_now clientId w with
  | (Returns true, w1) =>
      match getFromCache Date_now cacheKey w1 with
      | (Returns cached, w2) =>
          match if_truthy cached with
          | Some v => (Returns (mkSuggest v), w2)
          | None =>
              match callOpenAI OPENAI_API_KEY fetch prompt options w2 with
              | (Returns aiResponse, w3) =>
                  let parsed := parseSuggestionResponse JSON_parse aiResponse in
                  (Returns (mkSuggest (VRationale parsed)),
                   (setCache Date_now cacheKey (VRationale parsed) w3).2)
              | (Throws msg, w3) => (Throws msg, w3)
              end
          end
      | (Throws msg, w2) => (Throws msg, w2)
      end
  | (Returns false, w1) => (Throws "Rate limit exceeded", w1)
  | (Throws msg, w1) => (Throws msg, w1)
  end.
Proof.
  intros Hs Htext clientId cacheKey prompt options.
  unfold handleSuggestLogic. rewrite Hs, Htext. simpl.
  unfold mbind at 1, Flow_bind at 1. fold clientId.
  destruct (checkRateLimit Date_now clientId w) as [[[]|msg] w1]; simpl;
    try done.
  unfold mbind at 1, Flow_bind at 1. fold cacheKey.
  destruct (getFromCache Date_now cacheKey w1) as [[cached|msg] w2]; simpl;
    try done.
  destruct (if_truthy cached) as [v|]; [done|].
  unfold mbind at 1, Flow_bind at 1. fold prompt options.
  destruct (callOpenAI OPENAI_API_KEY fetch prompt options w2)
    as [[aiResponse|msg] w3]; simpl; try done.
Qed.

(** In every flow the limiter is consulted first, the cache second, the AI
    client third, and the cache is written last: the trace of a flow is an
    initial segment of these four events. *)
Lemma suggest_trace_order body s w :
  suggestion body = Some s ->
  JsString.nonempty (text s) = true ->
  let clientId := getClientId body in
  let cacheKey := getCacheKey "suggest" (id s) (systemPrompt body) in
  let prompt := buildSuggestionPrompt (seed body) s (systemPrompt body) in
  exists n,
    events (handleSuggest body w).2
    = (events w ++ take n [RateLimitChecked clientId; CacheRead cacheKey;
                           AICalled prompt; CacheWritten cacheKey])%list.
Proof.
  intros Hs Htext clientId cacheKey prompt.
  rewrite (handleSuggest_run body s w Hs Htext). fold clientId cacheKey prompt.
  rewrite RateLimitFacts.checkRateLimit_run.
  case_decide; [by exists 1%nat|].
  set (w1 := mkWorld _ _ _ _).
  destruct (responseCache w1 !! cacheKey) as [entry|] eqn:Hlook.
  - rewrite (CacheFacts.getFromCache_run Date_now cacheKey entry w1 Hlook).
    destruct (expires entry <? Date_now (reads w1)).
    + simpl.
      match goal with |- context [callOpenAI _ _ ?p ?o ?w] =>
        pose proof (callOpenAI_world p o w) as Hw;
        destruct (callOpenAI OPENAI_API_KEY fetch p o w) as [[ai|msg] w3]
      end; simpl in *; subst w3; simpl.
      * exists 4%nat. simpl. by rewrite <- !app_assoc.
      * exists 3%nat. simpl. by rewrite <- !app_assoc.
    + simpl. destruct (truthy (data entry)).
      * simpl. exists 2%nat. simpl. by rewrite <- !app_assoc.
      * match goal with |- context [callOpenAI _ _ ?p ?o ?w] =>
          pose proof (callOpenAI_world p o w) as Hw;
          destruct (callOpenAI OPENAI_API_KEY fetch p o w) as [[ai|msg] w3]
        end; simpl in *; subst w3; simpl.
        -- exists 4%nat. simpl. by rewrite <- !app_assoc.
        -- exists 3%nat. simpl. by rewrite <- !app_assoc.
  - rewrite (CacheFacts.getFromCache_miss Date_now cacheKey w1 Hlook). simpl.
    match goal with |- context [callOpenAI _ _ ?p ?o ?w] =>
      pose proof (callOpenAI_world p o w) as Hw;
      destruct (callOpenAI OPENAI_API_KEY fetch p o w) as [[ai|msg] w3]
    end; simpl in *; subst w3; simpl.
    + exists 4%nat. simpl. by rewrite <- !app_assoc.
    + exists 3%nat. simpl. by rewrite <- !app_assoc.
Qed.

(** C1, as the code has it. The limiter is consulted before the cache, and
    the cache before the AI client. For a request whose key has an unexpired
    cached entry: when the limiter allows the client, the cached value is
    returned without a call of the AI client, after the check has recorded
    its timestamp in the rate window; when the limiter denies the client,
    the flow raises before the cache is read. *)
Theorem suggest_limiter_before_cache body s entry w
  (Hs : suggestion body = Some s)
  (Htext : JsString.nonempty (text s) = true)
  (Hentry : responseCache w
              !! getCacheKey "suggest" (id s) (systemPrompt body) = Some entry)
  (Htruthy : truthy (data entry) = true)
  (Hfresh : Date_now (S (reads w)) <= expires entry) :
  let clientId := getClientId body in
  let cacheKey := getCacheKey "suggest" (id s) (systemPrompt body) in
  let prompt := buildSuggestionPrompt (seed body) s (systemPrompt body) in
  let now0 := Date_now (reads w) in
  let recent :=
    live (now0 - RATE_LIMIT_WINDOW) (default [] (rateLimitStore w !! clientId)) in
  let run := handleSuggest body w in
  (forall w', exists n,
      events (handleSuggest body w').2
      = (events w' ++ take n [RateLimitChecked clientId; CacheRead cacheKey;
                              AICalled prompt; CacheWritten cacheKey])%list)
  /\ ((length recent < RATE_LIMIT_MAX_REQUESTS)%nat ->
      run.1 = Returns (mkSuggest (data entry))
      /\ events run.2
         = (events w ++ [RateLimitChecked clientId; CacheRead cacheKey])%list
      /\ rateLimitStore run.2 !! clientId = Some (recent ++ [now0])%list
      /\ responseCache run.2 = responseCache w)
  /\ ((RATE_LIMIT_MAX_REQUESTS <= length recent)%nat ->
      run.1 = Throws "Rate limit exceeded"
      /\ events run.2 = (events w ++ [RateLimitChecked clientId])%list
      /\ responseCache run.2 = responseCache w).
Proof.
  intros clientId cacheKey prompt now0 recent run.
  split; [intros w'; by apply suggest_trace_order|].
  subst run. rewrite (handleSuggest_run body s w Hs Htext).
  fold clientId cacheKey prompt.
  rewrite RateLimitFacts.checkRateLimit_run. fold now0 recent.
  split; intros Hlen.
  - case_decide; [lia|].
    set (w1 := mkWorld _ _ _ _).
    rewrite (CacheFacts.getFromCache_run Date_now cacheKey entry w1 Hentry).
    destruct (Z.ltb_spec (expires entry) (Date_now (reads w1)));
      [simpl in *; lia|].
    simpl. rewrite Htruthy. simpl. repeat split.
    + by rewrite <- app_assoc.
    + by rewrite lookup_insert_eq.
  - case_decide; [|lia]. by simpl.
Qed.

(** A denied client gets an error, whatever follows in the flow. *)
Lemma suggest_denied body s w :
  suggestion body = Some s ->
  JsString.nonempty (text s) = true ->
  (RATE_LIMIT_MAX_REQUESTS
   <= length (live (Date_now (reads w) - RATE_LIMIT_WINDOW)
                   (default [] (rateLimitStore w !! getClientId body))))%nat ->
  (handleSuggest body w).1 = Throws "Rate limit exceeded".
Proof.
  intros Hs Htext Hfull. rewrite (handleSuggest_run body s w Hs Htext).
  rewrite RateLimitFacts.checkRateLimit_run. case_decide; [done|lia].
Qed.



End Environment.

Lemma suggest_limiter_before_cache_witness :
  let r := mkRationale (JStr "Shared doubt") (JStr "Both question habit.")
                       (JArr [JStr "oblique"]) in
  let body := mkBody None (Some (mkQuote "q2" "Know thyself" None None))
                     None None None None None in
  let w := mkWorld ∅ {[ "suggest:q2:1544803905" := mkEntry (VRationale r) 5000 ]}
                   0 [] in
  let run := handleSuggestLogic (fun _ => Throws "Unexpected token") None
               (fun _ => FetchRejects "offline")
               (fun n => 1000 + Z.of_nat n) body w in
  run.1 = Returns (mkSuggest (VRationale r))
  /\ events run.2 = [RateLimitChecked "1544803905";
                     CacheRead "suggest:q2:1544803905"]
  /\ rateLimitStore run.2 !! "1544803905" = Some [1000].
Proof.
  intros r body w run.
  destruct (suggest_limiter_before_cache
              (fun _ => Throws "Unexpected token") None
              (fun _ => FetchRejects "offline") (fun n => 1000 + Z.of_nat n)
              body (mkQuote "q2" "Know thyself" None None)
              (mkEntry (VRationale r) 5000) w)
    as (_ & Hhit & _).
  - reflexivity.
  - reflexivity.
  - vm_compute. reflexivity.
  - reflexivity.
  - simpl. lia.
  - destruct Hhit as (A & B & C & _).
    + vm_compute. lia.
    + split; [exact A|]. split; [exact B|]. exact C.
Defined.

(** C1 as stated fails: at a first request for a key with an unexpired
    cached entry, the cached value is returned, but the limiter has been
    consulted first and the timestamp of the request is in the rate window. *)
Lemma cached_suggestion_is_rate_checked :
  let r := mkRationale (JStr "Shared doubt") (JStr "Both question habit.")
                       (JArr [JStr "oblique"]) in
  let body := mkBody None (Some (mkQuote "q2" "Know thyself" None None))
                     None None None None None in
  let w := mkWorld ∅ {[ "suggest:q2:1544803905" := mkEntry (VRationale r) 5000 ]}
                   0 [] in
  let run := handleSuggestLogic (fun _ => Throws "Unexpected token") None
               (fun _ => FetchRejects "offline")
               (fun n => 1000 + Z.of_nat n) body w in
  (responseCache w !! "suggest:q2:1544803905"
   = Some (mkEntry (VRationale r) 5000)
   /\ 1000 <= 5000)
  /\ run.1 = Returns (mkSuggest (VRationale r))
  /\ rateLimitStore w !! "1544803905" = None
  /\ rateLimitStore run.2 !! "1544803905" = Some [1000]
  /\ rateLimitStore run.2 <> rateLimitStore w
  /\ head (events run.2) = Some (RateLimitChecked "1544803905").
Proof.
  intros r body w run.
  assert (Hrec : rateLimitStore run.2 !! "1544803905" = Some [1000])
    by (vm_compute; reflexivity).
  repeat split; try (vm_compute; reflexivity); try lia; try exact Hrec.
  intros E. rewrite E in Hrec. discriminate Hrec.
Qed.

(** The same key, once the client has thirty live timestamps: the request
    raises although its answer is in the cache. *)
Lemma cached_suggestion_is_rate_limited :
  let r := mkRationale (JStr "Shared doubt") (JStr "Both question habit.")
                       (JArr [JStr "oblique"]) in
  let body := mkBody None (Some (mkQuote "q2" "Know thyself" None None))
                     None None None None None in
  let w := mkWorld {[ "1544803905" := replicate 30 900 ]}
                   {[ "suggest:q2:1544803905" := mkEntry (VRationale r) 5000 ]}
                   0 [] in
  let run := handleSuggestLogic (fun _ => Throws "Unexpected token") None
               (fun _ => FetchRejects "offline")
               (fun n => 1000 + Z.of_nat n) body w in
  run.1 = Throws "Rate limit exceeded"
  /\ events run.2 = [RateLimitChecked "1544803905"].
Proof. vm_compute. split; reflexivity. Qed.

End SuggestFacts.

(** ** Splitting and joining *)

Module SplitFacts.

Import JsString.

Lemma split_length c s : length (split c s) = S (count_char c s).
Proof.
  induction s as [|x s IH]; [done|]. simpl.
  destruct (Ascii.eqb x c); simpl; [by rewrite IH|].
  destruct (split c s); simpl in *; lia.
Qed.

Lemma includes_cons c x s :
  includes (String c EmptyString) (String x s)
  = Ascii.eqb x c || includes (String c EmptyString) s.
Proof.
  simpl. destruct (ascii_dec c x) as [->|Hne].
  - rewrite Ascii.eqb_refl. by destruct s.
  - destruct (Ascii.eqb_spec x c); [congruence|done].
Qed.

(** [s.includes(c)] holds exactly when [c] occurs in [s]. *)
Lemma includes_count c s :
  includes (String c EmptyString) s = false <-> count_char c s = 0%nat.
Proof.
  induction s as [|x s IH]; [done|].
  rewrite includes_cons. simpl count_char.
  destruct (Ascii.eqb x c); simpl; [split; [done|lia]|exact IH].
Qed.

Lemma count_char_app c s t :
  count_char c (s ++ t) = (count_char c s + count_char c t)%nat.
Proof. induction s as [|x s IH]; [done|]. simpl. rewrite IH. lia. Qed.

Lemma split_none c s : count_char c s = 0%nat -> split c s = [s].
Proof.
  induction s as [|x s IH]; [done|]. simpl.
  destruct (Ascii.eqb x c); simpl; [lia|]. intros H. by rewrite IH.
Qed.

Lemma split_app c s t :
  count_char c s = 0%nat ->
  split c (s ++ String c t) = s :: split c t.
Proof.
  induction s as [|x s IH]; simpl.
  - intros _. by rewrite Ascii.eqb_refl.
  - destruct (Ascii.eqb x c); simpl; [lia|]. intros H. by rewrite IH.
Qed.

Lemma count_char_sep c s : count_char c (String c s) = S (count_char c s).
Proof. simpl. by rewrite Ascii.eqb_refl. Qed.

Lemma count_char_join c l :
  count_char c (join (String c EmptyString) l)
  = (Nat.pred (length l) + sum_list (map (count_char c) l))%nat.
Proof.
  induction l as [|s l IH]; [done|].
  destruct l as [|s' l].
  - simpl. lia.
  - change (join (String c EmptyString) (s :: s' :: l))
      with (s ++ String c (join (String c EmptyString) (s' :: l))).
    rewrite count_char_app, count_char_sep, IH. simpl. lia.
Qed.

(** Joining with [c] and splitting on [c] gives the pieces back exactly
    when no piece contains [c]; the empty list comes back as one empty
    piece. *)
Lemma split_join c l :
  l <> [] ->
  split c (join (String c EmptyString) l) = l
  <-> Forall (fun s => includes (String c EmptyString) s = false) l.
Proof.
  intros Hne. split.
  - intros E. apply (f_equal length) in E.
    rewrite split_length, count_char_join in E.
    assert (Hsum : sum_list (map (count_char c) l) = 0%nat).
    { destruct l; [done|]. simpl in *. lia. }
    clear E Hne. induction l as [|s l IH]; [constructor|].
    simpl in Hsum. constructor.
    + apply includes_count. lia.
    + apply IH. lia.
  - intros Hall. induction Hall as [|s l Hs Hall IH]; [done|].
    destruct l as [|s' l].
    + simpl. apply split_none. by apply includes_count.
    + change (join (String c EmptyString) (s :: s' :: l))
        with (s ++ String c (join (String c EmptyString) (s' :: l))).
      rewrite split_app by by apply includes_count. by rewrite IH.
Qed.

End SplitFacts.

(** ** The route narration flow of the proxy *)

Module RouteFacts.

Import Server.

Section Environment.

Variable JSON_parse : string -> outcome json.
Variable OPENAI_API_KEY : option string.
Variable fetch : request -> fetch_reply.
Variable Date_now : nat -> Z.

Local Abbreviation handleRoute :=
  (handleRouteLogic OPENAI_API_KEY fetch Date_now).

(** Every response carries the joined ids, split again. *)
Lemma handleRoute_path body w resp w' :
  handleRoute body w = (Returns resp, w') ->
  exists quotes,
    path body = Some quotes /\ quotes <> []
    /\ resp_path resp = JsString.split "-" (JsString.join "-" (map id quotes)).
Proof.
  unfold handleRouteLogic.
  destruct (path body) as [[|q quotes]|]; [done| |done].
  intros Hrun. exists (q :: quotes). split; [done|]. split; [done|].
  revert Hrun. generalize (q :: quotes). intros l.
  unfold mbind at 1, Flow_bind at 1.
  destruct (checkRateLimit _ _ w) as [[[]|msg] w1]; simpl; try done.
  unfold mbind at 1, Flow_bind at 1.
  destruct (getFromCache _ _ w1) as [[cached|msg] w2]; simpl; try done.
  destruct (if_truthy cached) as [v|].
  { intros [= <- _]. done. }
  unfold mbind at 1, Flow_bind at 1.
  destruct (callOpenAI _ _ _ _ w2) as [[ai|msg] w3]; simpl; try done.
  intros [= <- _]. done.
Qed.

(** C9. The [path] of a response is the list of the ids of the quotes of
    the request exactly when no id contains the character [-]; in general
    it is the joined ids split on [-], so that it has one more element for
    each [-] inside an id. *)
Theorem route_path_iff_no_dash body w resp w'
  (Hrun : handleRoute body w = (Returns resp, w')) :
  exists quotes,
    path body = Some quotes
    /\ resp_path resp = JsString.split "-" (JsString.join "-" (map id quotes))
    /\ (resp_path resp = map id quotes
        <-> Forall (fun q => JsString.includes "-" (id q) = false) quotes)
    /\ length (resp_path resp)
       = (length quotes
          + sum_list (map (fun q => JsString.count_char "-" (id q)) quotes))%nat.
Proof.
  destruct (handleRoute_path body w resp w' Hrun) as (quotes & Hp & Hne & Hpath).
  exists quotes. split; [done|]. split; [done|]. split.
  - rewrite Hpath.
    rewrite (SplitFacts.split_join "-" (map id quotes));
      [|by destruct quotes].
    by rewrite Forall_fmap.
  - rewrite Hpath, SplitFacts.split_length.
    rewrite (SplitFacts.count_char_join "-" (map id quotes)).
    rewrite length_map, map_map. destruct quotes; [congruence|]. simpl. lia.
Qed.

(** A request with a path, an allowed client, a configured key and a 2xx
    reply does get a response. *)
Lemma handleRoute_returns body q quotes w apiKey status c :
  path body = Some (q :: quotes) ->
  (length (live (Date_now (reads w) - RATE_LIMIT_WINDOW)
                (default [] (rateLimitStore w !! getClientId body)))
   < RATE_LIMIT_MAX_REQUESTS)%nat ->
  OPENAI_API_KEY = Some apiKey -> JsString.nonempty apiKey = true ->
  (forall r, fetch r = HttpReply status (BodyContent c)) ->
  response_ok status = true ->
  exists resp, (handleRoute body w).1 = Returns resp.
Proof.
  intros Hp Hlen Hkey Hne Hfetch Hok.
  unfold handleRouteLogic. rewrite Hp.
  unfold mbind at 1, Flow_bind at 1.
  rewrite RateLimitFacts.checkRateLimit_run.
  case_decide; [lia|]. simpl.
  unfold mbind at 1, Flow_bind at 1.
  match goal with |- context [getFromCache _ ?k ?w1] =>
    destruct (CacheFacts.getFromCache_returns Date_now k w1) as [cached Hget];
    destruct (getFromCache Date_now k w1) as [got w2]
  end.
  simpl in Hget. subst got.
  destruct (if_truthy cached); [by eexists|].
  unfold mbind at 1, Flow_bind at 1.
  unfold callOpenAI. rewrite Hkey, Hne. simpl.
  unfold mbind at 1, Flow_bind at 1. simpl.
  rewrite Hfetch, Hok. simpl. by eexists.
Qed.

End Environment.

Lemma route_path_iff_no_dash_witness :
  let body := mkBody None None
                (Some [mkQuote "a-1" "Know thyself" None None;
                       mkQuote "b" "Nothing in excess" None None])
                None None None None in
  let run := handleRouteLogic (Some "sk-test")
               (fun _ => HttpReply 200 (BodyContent "A walk."))
               (fun n => 1000 + Z.of_nat n) body (mkWorld ∅ ∅ 0 []) in
  exists resp,
    run.1 = Returns resp
    /\ resp_path resp = ["a"; "1"; "b"]
    /\ resp_path resp <> ["a-1"; "b"].
Proof.
  intros body run.
  destruct run as [[resp|msg] w'] eqn:Hrun; [|by vm_compute in Hrun].
  destruct (route_path_iff_no_dash (Some "sk-test")
              (fun _ => HttpReply 200 (BodyContent "A walk."))
              (fun n => 1000 + Z.of_nat n) body (mkWorld ∅ ∅ 0 []) resp w' Hrun)
    as (quotes & Hp & Hpath & _ & _).
  injection Hp as <-.
  exists resp. split; [done|]. rewrite Hpath. split; [reflexivity|].
  vm_compute. discriminate.
Defined.

End RouteFacts.

(** ** Candidate generation *)

Module CandidateFacts.

Import Browser.

Lemma set_has_true {A} `{EqDecision A} (x : A) s : set_has x s = true <-> x ∈ s.
Proof. unfold set_has. apply bool_decide_eq_true. Qed.

Lemma set_has_false {A} `{EqDecision A} (x : A) s :
  set_has x s = false <-> x ∉ s.
Proof. unfold set_has. apply bool_decide_eq_false. Qed.

Lemma elem_of_set_add {A} `{EqDecision A} (x y : A) s :
  x ∈ set_add y s <-> x = y \/ x ∈ s.
Proof.
  unfold set_add. destruct (set_has y s) eqn:E.
  - apply set_has_true in E. split; [by right|]. intros [->|]; done.
  - rewrite elem_of_app, list_elem_of_singleton. tauto.
Qed.

Lemma set_add_NoDup {A} `{EqDecision A} (y : A) s :
  NoDup s -> NoDup (set_add y s).
Proof.
  intros Hs. unfold set_add. destruct (set_has y s) eqn:E; [done|].
  apply set_has_false in E. apply NoDup_app. split; [done|].
  split; [|apply NoDup_singleton].
  intros x Hx Hy. apply list_elem_of_singleton in Hy. by subst.
Qed.

Lemma find_quote_Some neighborId quotes i :
  find_quote neighborId quotes = Some i ->
  exists q, quotes !! i = Some q /\ id q = neighborId.
Proof.
  revert i. induction quotes as [|q quotes IH]; intros i; simpl; [done|].
  destruct (String.eqb_spec (id q) neighborId) as [E|_].
  - intros [= <-]. by exists q.
  - destruct (find_quote neighborId quotes) as [j|]; simpl; [|done].
    intros [= <-]. by apply IH.
Qed.

(** What the members of the candidate set have in common. *)
Local Abbreviation admissible a seed :=
  (fun i : nat =>
     exists q,
       quotes a !! i = Some q
       /\ (id q ∉ recentPicks a)
       /\ (id q = id seed -> id seed ∈ default [] (neighbors a !! id seed))).

Lemma add_neighbor_admissible a seed candidates neighborId :
  neighborId ∈ default [] (neighbors a !! id seed) ->
  Forall (admissible a seed) candidates ->
  Forall (admissible a seed) (add_neighbor a candidates neighborId).
Proof.
  intros Hin Hall. unfold add_neighbor.
  destruct (find_quote neighborId (quotes a)) as [i|] eqn:Hfind; [|done].
  destruct (find_quote_Some _ _ _ Hfind) as (q & Hq & Hid).
  rewrite Hq. destruct (set_has (id q) (recentPicks a)) eqn:Hrecent; [done|].
  simpl. apply Forall_forall. intros j Hj.
  apply elem_of_set_add in Hj as [->|Hj].
  - exists q. split; [done|]. split; [by apply set_has_false|].
    intros E. rewrite Hid in E. by rewrite <- E at 1.
  - by apply (proj1 (Forall_forall _ _) Hall).
Qed.

Lemma add_lexical_admissible a seed seedWords candidates i q :
  quotes a !! i = Some q ->
  Forall (admissible a seed) candidates ->
  Forall (admissible a seed) (add_lexical a seed seedWords candidates (i, q)).
Proof.
  intros Hq Hall. unfold add_lexical.
  destruct (String.eqb_spec (id q) (id seed)) as [|Hne]; [done|].
  destruct (set_has (id q) (recentPicks a)) eqn:Hrecent; [done|].
  simpl. case_decide; [|done].
  apply Forall_forall. intros j Hj.
  apply elem_of_set_add in Hj as [->|Hj].
  - exists q. split; [done|]. split; [by apply set_has_false|done].
  - by apply (proj1 (Forall_forall _ _) Hall).
Qed.

Lemma candidate_set_admissible a seed :
  Forall (admissible a seed) (candidate_set a seed).
Proof.
  unfold candidate_set.
  assert (Hn : forall l candidates,
             l ⊆ default [] (neighbors a !! id seed) ->
             Forall (admissible a seed) candidates ->
             Forall (admissible a seed) (foldl (add_neighbor a) candidates l)).
  { induction l as [|n l IH]; intros candidates Hsub Hall; [done|].
    simpl. apply IH.
    - intros x Hx. apply Hsub. by apply list_elem_of_further.
    - apply add_neighbor_admissible; [|done].
      apply Hsub. apply list_elem_of_here. }
  assert (Hl : forall l candidates,
             Forall (fun e => quotes a !! (e.1) = Some (e.2)) l ->
             Forall (admissible a seed) candidates ->
             Forall (admissible a seed)
               (foldl (add_lexical a seed (JsString.split_ws
                         (JsString.toLowerCase (text seed)))) candidates l)).
  { induction l as [|[i q] l IH]; intros candidates Hl Hall; [done|].
    simpl. inversion Hl; subst. apply IH; [done|].
    by apply add_lexical_admissible. }
  apply Hl.
  - apply Forall_forall. intros [i q] Hin.
    apply elem_of_lookup_imap in Hin as (j & x & [= -> ->] & Hx). done.
  - apply Hn; [done|constructor].
Qed.

(** No candidate is in the recency set, whichever branch it comes from. *)
Lemma getCandidates_not_recent a seed q :
  q ∈ getCandidates a seed -> id q ∉ recentPicks a.
Proof.
  unfold getCandidates. intros Hq.
  apply list_elem_of_omap in Hq as (i & Hi & Hlook).
  destruct (proj1 (Forall_forall _ _) (candidate_set_admissible a seed) i Hi)
    as (q' & Hq' & Hrecent & _).
  congruence.
Qed.

(** The seed is not a candidate when its neighbor list does not name it. *)
Lemma getCandidates_not_seed a seed q :
  id seed ∉ default [] (neighbors a !! id seed) ->
  q ∈ getCandidates a seed -> id q <> id seed.
Proof.
  unfold getCandidates. intros Hself Hq.
  apply list_elem_of_omap in Hq as (i & Hi & Hlook).
  destruct (proj1 (Forall_forall _ _) (candidate_set_admissible a seed) i Hi)
    as (q' & Hq' & _ & Hseed).
  assert (q' = q) as -> by congruence. intros E. by apply Hself, Hseed.
Qed.

(** C4 fails on the neighbor branch: a seed that its own neighbor list
    names is returned as a candidate, although the lexical branch skips
    the seed. *)
Lemma getCandidates_returns_seed :
  let q1 := mkQuote "q1" "the unexamined life is not worth living"
                    (Some "Socrates") None in
  let q2 := mkQuote "q2" "an examined life" None None in
  let a := mkApp [q1; q2] {[ "q1" := ["q1"; "q2"] ]} []
                 (mkSettings "gpt-4o-mini" (7 # 10) 150 EmptyString "prompt")
                 ∅ None [] [] in
  getCandidates a q1 = [q1; q2] /\ q1 ∈ getCandidates a q1.
Proof.
  intros q1 q2 a.
  assert (E : getCandidates a q1 = [q1; q2]) by (vm_compute; reflexivity).
  split; [exact E|]. rewrite E. apply list_elem_of_here.
Qed.

End CandidateFacts.

(** ** Ranking *)

Module RankFacts.

Import Browser.

(** *** The token set of the seed *)

Lemma set_of_array_acc (l s : list string) :
  NoDup s ->
  NoDup (foldl (fun s x => set_add x s) s l)
  /\ forall x, x ∈ foldl (fun s x => set_add x s) s l <-> x ∈ s \/ x ∈ l.
Proof.
  revert s. induction l as [|y l IH]; intros s Hs; simpl.
  - split; [done|]. intros x. rewrite elem_of_nil. tauto.
  - destruct (IH (set_add y s)) as [Hnd Hin];
      [by apply CandidateFacts.set_add_NoDup|].
    split; [done|]. intros x.
    rewrite Hin, CandidateFacts.elem_of_set_add, elem_of_cons. tauto.
Qed.

Lemma set_of_array_NoDup (l : list string) : NoDup (set_of_array l).
Proof. apply set_of_array_acc. constructor. Qed.

Lemma elem_of_set_of_array (l : list string) x : x ∈ set_of_array l <-> x ∈ l.
Proof.
  unfold set_of_array.
  destruct (set_of_array_acc l []) as [_ H]; [constructor|].
  rewrite H, elem_of_nil. tauto.
Qed.

(** The size of [new Set(l)] is the number of distinct members of [l]. *)
Lemma set_of_array_size (l : list string) :
  length (set_of_array l) = size (list_to_set l : gset string).
Proof.
  rewrite <- (size_list_to_set (C := gset string) (set_of_array l))
    by apply set_of_array_NoDup.
  f_equal. apply set_eq. intros x.
  by rewrite !elem_of_list_to_set, elem_of_set_of_array.
Qed.

Lemma filter_in_set (l seedTokens : list string) :
  filter (fun word => word ∈ set_of_array seedTokens) l
  = filter (fun word => word ∈ (list_to_set seedTokens : gset string)) l.
Proof.
  apply list_filter_iff. intros x.
  by rewrite elem_of_set_of_array, elem_of_list_to_set.
Qed.

(** For a list without repetition, counting the members that lie in a set
    is measuring an intersection. *)
Lemma count_in_set (l : list string) (T : gset string) :
  NoDup l ->
  length (filter (fun x => x ∈ T) l) = size (T ∩ list_to_set l).
Proof.
  induction 1 as [|x l Hx Hl IH].
  - by rewrite list_to_set_nil, intersection_empty_r_L, size_empty.
  - rewrite filter_cons, list_to_set_cons.
    destruct (decide (x ∈ T)) as [Hin|Hout].
    + rewrite length_cons, IH.
      assert (E : T ∩ ({[x]} ∪ list_to_set l)
                  = {[x]} ∪ (T ∩ list_to_set l)).
      { apply set_eq. intros y.
        rewrite !elem_of_intersection, !elem_of_union, elem_of_intersection,
          elem_of_singleton.
        split; [tauto|]. intros [->|]; tauto. }
      rewrite E, (size_union (C := gset string) {[x]} (T ∩ list_to_set l)).
      { by rewrite size_singleton. }
      intros y Hy1 Hy2. apply elem_of_singleton in Hy1 as ->.
      apply elem_of_intersection in Hy2 as [_ Hy2].
      by apply elem_of_list_to_set in Hy2.
    + rewrite IH. f_equal. apply set_eq. intros y.
      rewrite !elem_of_intersection, elem_of_union, elem_of_singleton.
      split; [tauto|]. intros [Hy [->|Hy']]; [done|tauto].
Qed.

(** *** The position in the neighbor list *)

Lemma indexOf_Some x l i :
  indexOf x l = Some i <->
  l !! i = Some x /\ forall j, (j < i)%nat -> l !! j <> Some x.
Proof.
  revert i. induction l as [|y l IH]; intros i; simpl.
  - split; [done|]. by intros [? _].
  - destruct (String.eqb_spec y x) as [->|Hne].
    + split.
      * intros [= <-]. split; [done|]. intros j Hj. lia.
      * intros [Hi Hfirst]. destruct i as [|i]; [done|].
        exfalso. by apply (Hfirst 0%nat); [lia|].
    + destruct (indexOf x l) as [k|] eqn:Hk; simpl.
      * split.
        -- intros [= <-]. destruct (proj1 (IH k) eq_refl) as [Hl Hfirst].
           split; [done|]. intros [|j] Hj; simpl; [congruence|].
           apply Hfirst. lia.
        -- intros [Hi Hfirst]. destruct i as [|i]; simpl in Hi; [congruence|].
           f_equal. symmetry.
           assert (Some k = Some i) as [= ->]; [|done].
           apply IH. split; [done|]. intros j Hj.
           apply (Hfirst (S j)). lia.
      * split; [done|]. intros [Hi Hfirst].
        destruct i as [|i]; simpl in Hi; [congruence|].
        assert (None = Some i); [|done].
        apply IH. split; [done|]. intros j Hj. apply (Hfirst (S j)). lia.
Qed.

Lemma indexOf_None x l : indexOf x l = None <-> x ∉ l.
Proof.
  induction l as [|y l IH]; simpl.
  - split; [intros _; apply not_elem_of_nil|done].
  - destruct (String.eqb_spec y x) as [->|Hne].
    + split; [done|]. intros H. exfalso. apply H, list_elem_of_here.
    + rewrite not_elem_of_cons. destruct (indexOf x l); simpl.
      * split; [done|]. intros [_ H]. by apply IH in H.
      * split; [|done]. intros _. split; [done|]. by apply IH.
Qed.

(** *** The sort *)

Local Abbreviation above :=
  (fun x y : Quote * Q => (snd y <= snd x)%Q).

Lemma insert_desc_perm x l : insert_desc x l ≡ₚ x :: l.
Proof.
  induction l as [|y l IH]; simpl; [done|].
  destruct (Qle_bool (snd y) (snd x)); [done|].
  rewrite IH. apply Permutation_swap.
Qed.

Lemma insert_desc_sorted x l :
  StronglySorted above l -> StronglySorted above (insert_desc x l).
Proof.
  induction 1 as [|y l Hl IH Hy]; simpl.
  - repeat constructor.
  - destruct (Qle_bool (snd y) (snd x)) eqn:E.
    + apply Qle_bool_iff in E. constructor; [by constructor|].
      constructor; [done|].
      eapply Forall_impl; [exact Hy|]. intros z Hz. simpl in *.
      by apply Qle_trans with (snd y).
    + constructor; [done|].
      rewrite insert_desc_perm. constructor; [|done]. simpl.
      apply Qlt_le_weak, Qnot_le_lt. intros H.
      apply Qle_bool_iff in H. congruence.
Qed.

Lemma sort_desc_perm l : sort_desc l ≡ₚ l.
Proof.
  induction l as [|x l IH]; simpl; [done|].
  by rewrite insert_desc_perm, IH.
Qed.

Lemma sort_desc_sorted l : StronglySorted above (sort_desc l).
Proof.
  induction l as [|x l IH]; simpl; [constructor|].
  by apply insert_desc_sorted.
Qed.

(** *** The score *)

Lemma score_terms a seed candidate rnd :
  (score a seed candidate rnd
   == graph_term (default [] (neighbors a !! id seed)) (id candidate)
      + counted_lexical_term seed candidate
      + novelty_term seed candidate
      + rnd * (1 # 10))%Q.
Proof.
  unfold score, graph_term, counted_lexical_term, novelty_term, tokens.
  rewrite filter_in_set, set_of_array_size.
  destruct (indexOf (id candidate) (default [] (neighbors a !! id seed)));
    destruct (decide (author candidate <> author seed));
    destruct (decide (book_title candidate <> book_title seed)); ring.
Qed.

Lemma counted_is_set_term seed candidate :
  NoDup (tokens candidate) ->
  counted_lexical_term seed candidate = set_lexical_term seed candidate.
Proof.
  intros Hnd. unfold counted_lexical_term, set_lexical_term.
  rewrite (count_in_set _ _ Hnd).
  by rewrite (size_list_to_set (C := gset string) (tokens candidate) Hnd).
Qed.

(** C5, as the code has it. The score is the sum of the graph term, the
    lexical term, the novelty term and a tenth of the random draw, where
    the graph term is [(N - i) / N * 0.5] for a candidate first listed at
    position [i] among the [N] neighbors of the seed and 0 for one not
    listed; the lexical term counts the tokens of the candidate with their
    repetitions, both in the numerator and in the candidate's side of the
    denominator, and is the ratio of the token sets when the candidate has
    no repeated token; a draw in [0, 1) adds a value in [0, 0.1); and the
    result lists the candidates by descending score. *)
Theorem ranker_score a Math_random candidates seed :
  let listed := default [] (neighbors a !! id seed) in
  (forall candidate rnd,
     (score a seed candidate rnd
      == graph_term listed (id candidate)
         + counted_lexical_term seed candidate
         + novelty_term seed candidate
         + rnd * (1 # 10))%Q)
  /\ (forall candidate i,
        listed !! i = Some (id candidate) ->
        (forall j, (j < i)%nat -> listed !! j <> Some (id candidate)) ->
        graph_term listed (id candidate)
        = ((Qnat (length listed) - Qnat i) / Qnat (length listed) * (5 # 10))%Q)
  /\ (forall candidate,
        id candidate ∉ listed -> graph_term listed (id candidate) = 0%Q)
  /\ (forall candidate,
        NoDup (tokens candidate) ->
        counted_lexical_term seed candidate = set_lexical_term seed candidate)
  /\ (forall rnd, (0 <= rnd)%Q -> (rnd < 1)%Q ->
        (0 <= rnd * (1 # 10))%Q /\ (rnd * (1 # 10) < 1 # 10)%Q)
  /\ exists ranked,
        ranked ≡ₚ scored a Math_random candidates seed
        /\ StronglySorted (fun x y => (snd y <= snd x)%Q) ranked
        /\ rankCandidates a Math_random candidates seed = map fst ranked.
Proof.
  intros listed. repeat split.
  - intros candidate rnd. apply score_terms.
  - intros candidate i Hi Hfirst. unfold graph_term.
    by rewrite (proj2 (indexOf_Some _ _ _) (conj Hi Hfirst)).
  - intros candidate Hout. unfold graph_term.
    by rewrite (proj2 (indexOf_None _ _) Hout).
  - intros candidate. apply counted_is_set_term.
  - unfold Qle, Qlt in *. destruct rnd as [n d]. simpl in *. lia.
  - unfold Qle, Qlt in *. destruct rnd as [n d]. simpl in *. lia.
  - exists (sort_desc (scored a Math_random candidates seed)).
    split; [apply sort_desc_perm|]. split; [apply sort_desc_sorted|done].
Qed.

(** C5 as stated fails: with a repeated token in the candidate, the score of
    the code is not the score made of the ratio of the token sets. Here the
    code counts 3 common tokens out of 7 and the sets give 2 out of 6. *)
Lemma score_counts_repeated_tokens :
  let seed := mkQuote "q1" "to be or not to be" None None in
  let candidate :=
    mkQuote "q2" "be the change you wish to be" None None in
  let a := mkApp [seed; candidate] ∅ []
                 (mkSettings "gpt-4o-mini" (7 # 10) 150 EmptyString "prompt")
                 ∅ None [] [] in
  (score a seed candidate 0 == 9 # 70)%Q
  /\ (set_score a seed candidate 0 == 1 # 10)%Q
  /\ ~ (score a seed candidate 0 == set_score a seed candidate 0)%Q.
Proof.
  intros seed candidate a.
  assert (H1 : (score a seed candidate 0 == 9 # 70)%Q)
    by (vm_compute; reflexivity).
  assert (H2 : (set_score a seed candidate 0 == 1 # 10)%Q)
    by (vm_compute; reflexivity).
  split; [exact H1|]. split; [exact H2|].
  rewrite H1, H2. unfold Qeq. simpl. lia.
Qed.

(** The scenario of the specification, with the random draw pinned to 0:
    two listed neighbors and one lexical match are the candidates, and the
    first neighbor is ranked first. *)
Example ranked_scenario :
  let q1 := mkQuote "q1" "the unexamined life is not worth living"
                    (Some "Socrates") None in
  let q2 := mkQuote "q2" "know thyself" (Some "Socrates") None in
  let q3 := mkQuote "q3" "wonder is the beginning of wisdom"
                    (Some "Socrates") None in
  let q4 := mkQuote "q4" "a good life is worth the effort"
                    (Some "Seneca") None in
  let a := mkApp [q1; q2; q3; q4] {[ "q1" := ["q2"; "q3"] ]} []
                 (mkSettings "gpt-4o-mini" (7 # 10) 150 EmptyString "prompt")
                 ∅ None [] [] in
  getCandidates a q1 = [q2; q3; q4]
  /\ map (fun x => Qred (snd x))
         (scored a (fun _ => 0%Q) (getCandidates a q1) q1)
     = [1 # 2; 47 # 140; 19 # 70]
  /\ rankCandidates a (fun _ => 0%Q) (getCandidates a q1) q1 = [q2; q3; q4].
Proof. vm_compute. repeat split; reflexivity. Qed.

End RankFacts.

(** ** The recency set *)

Module RecencyFacts.

Import Browser.

Lemma set_add_length {A} `{EqDecision A} (x : A) s :
  (length (set_add x s) <= S (length s))%nat.
Proof.
  unfold set_add. destruct (set_has x s); [lia|].
  rewrite length_app. simpl. lia.
Qed.

(** Deleting the head of a duplicate-free list leaves its tail. *)
Lemma set_delete_head {A} `{EqDecision A} (x : A) s :
  NoDup (x :: s) -> set_delete x (x :: s) = s.
Proof.
  intros Hnd. apply NoDup_cons in Hnd as [Hx Hs]. unfold set_delete.
  rewrite filter_cons. case_decide; [done|].
  clear Hs. induction s as [|y s IH]; [done|].
  apply not_elem_of_cons in Hx as [Hne Hx].
  rewrite filter_cons. case_decide; [|congruence]. by rewrite IH.
Qed.

(** The recency set after an accepted suggestion, in closed form. *)
Lemma acceptSuggestion_recent a current :
  currentSuggestion a = Some current ->
  NoDup (recentPicks a) ->
  let added := set_add (id (quote current)) (recentPicks a) in
  recentPicks (acceptSuggestion a)
  = if decide (20 < length added)%nat then tail added else added.
Proof.
  intros Hcur Hnd added. unfold acceptSuggestion. rewrite Hcur. simpl.
  fold added. case_decide; [|done].
  assert (Hadd : NoDup added) by by apply CandidateFacts.set_add_NoDup.
  destruct added as [|oldest rest]; [done|].
  by rewrite set_delete_head.
Qed.

Lemma acceptSuggestion_invariant a :
  (length (recentPicks a) <= 20)%nat -> NoDup (recentPicks a) ->
  (length (recentPicks (acceptSuggestion a)) <= 20)%nat
  /\ NoDup (recentPicks (acceptSuggestion a)).
Proof.
  intros Hlen Hnd.
  destruct (currentSuggestion a) as [current|] eqn:Hcur.
  - rewrite (acceptSuggestion_recent a current Hcur Hnd).
    pose proof (set_add_length (id (quote current)) (recentPicks a)) as Hle.
    pose proof (CandidateFacts.set_add_NoDup (id (quote current)) _ Hnd)
      as Hadd.
    case_decide; [|split; [lia|done]].
    destruct (set_add (id (quote current)) (recentPicks a)) as [|o rest];
      simpl in *; [lia|].
    split; [lia|]. by apply NoDup_cons in Hadd as [_ ?].
  - unfold acceptSuggestion. by rewrite Hcur.
Qed.

(** C8. An accepted suggestion keeps the recency set within 20 ids and
    free of repetition. The id is added at the end unless it is a member
    already; when that makes 21 members, the oldest one, the first in
    insertion order, is the one removed. *)
Theorem recency_bound a
  (Hsize : (length (recentPicks a) <= 20)%nat)
  (Hnodup : NoDup (recentPicks a)) :
  (length (recentPicks (acceptSuggestion a)) <= 20)%nat
  /\ NoDup (recentPicks (acceptSuggestion a))
  /\ forall current,
       currentSuggestion a = Some current ->
       let added := set_add (id (quote current)) (recentPicks a) in
       ((length added <= 20)%nat -> recentPicks (acceptSuggestion a) = added)
       /\ ((20 < length added)%nat ->
           exists oldest rest,
             recentPicks a = oldest :: rest
             /\ (id (quote current) ∉ recentPicks a)
             /\ recentPicks (acceptSuggestion a)
                = (rest ++ [id (quote current)])%list).
Proof.
  destruct (acceptSuggestion_invariant a Hsize Hnodup) as [Hlen Hnd].
  split; [done|]. split; [done|].
  intros current Hcur added.
  rewrite (acceptSuggestion_recent a current Hcur Hnodup). fold added.
  split; intros Hadded.
  - case_decide; [lia|done].
  - case_decide; [|lia]. subst added. unfold set_add in *.
    destruct (set_has (id (quote current)) (recentPicks a)) eqn:Hhas; [lia|].
    apply CandidateFacts.set_has_false in Hhas.
    destruct (recentPicks a) as [|oldest rest]; [simpl in *; lia|].
    by exists oldest, rest.
Qed.

Lemma recency_bound_witness :
  let ids := (fun n : nat => "q" ++ pretty (Z.of_nat n)) <$> seq 1 20 in
  let current :=
    mkSuggestion (mkQuote "q21" "Nothing in excess" None None)
                 (mkQuote "q20" "Know thyself" None None)
                 Browser.noKeyRationale in
  let a := mkApp [] ∅ []
                 (mkSettings "gpt-4o-mini" (7 # 10) 150 EmptyString "prompt")
                 ∅ (Some current) ids [] in
  length (recentPicks (acceptSuggestion a)) = 20%nat
  /\ recentPicks (acceptSuggestion a) = (tail ids ++ ["q21"])%list
  /\ "q1" ∉ recentPicks (acceptSuggestion a).
Proof.
  intros ids current a.
  assert (Hnd : NoDup (recentPicks a)).
  { apply (bool_decide_unpack _). vm_compute. exact I. }
  destruct (recency_bound a) as (Hlen & _ & Hevict).
  - simpl. lia.
  - exact Hnd.
  - destruct (Hevict current eq_refl) as [_ Hfull].
    destruct Hfull as (oldest & rest & Hrec & _ & Hnew).
    { vm_compute. lia. }
    injection Hrec as <- <-.
    assert (E : recentPicks (acceptSuggestion a) = (tail ids ++ ["q21"])%list)
      by exact Hnew.
    split; [by rewrite E|]. split; [exact E|].
    rewrite E. apply (bool_decide_unpack _). vm_compute. exact I.
Defined.

End RecencyFacts.

(** ** Rationale retrieval in the browser *)

Module RationaleFacts.

Import Browser.

(** The state after the request has been sent. *)
Local Abbreviation after_request a seed suggestion :=
  (mkApp (quotes a) (neighbors a) (path a) (settings a) (cache a)
         (currentSuggestion a) (recentPicks a)
         (sent a ++ [requestBody a seed suggestion])).

(** The state after the answer has been stored. *)
Local Abbreviation after_store a seed suggestion key r :=
  (mkApp (quotes a) (neighbors a) (path a) (settings a)
         (<[key := r]> (cache a))
         (currentSuggestion a) (recentPicks a)
         (sent a ++ [requestBody a seed suggestion])).

Section Environment.

Variable JSON_parse : string -> outcome json.
Variable fetch : request -> fetch_reply.

Local Abbreviation request := (requestRationale JSON_parse fetch).
Local Abbreviation explain := (getAIRationale JSON_parse fetch).

Ltac run_request :=
  unfold requestRationale, mbind, Flow_bind, mret, Flow_ret, read,
    log_request, put_cache, throw; simpl.


Lemma request_refused a seed suggestion key status body :
  fetch (requestBody a seed suggestion) = HttpReply status body ->
  response_ok status = false ->
  request seed suggestion key a
  = (Throws ("API request failed: " ++ pretty status),
     after_request a seed suggestion).
Proof. intros H Hok. run_request. by rewrite H, Hok. Qed.

Lemma request_unreadable a seed suggestion key status msg :
  fetch (requestBody a seed suggestion) = HttpReply status (BodyThrows msg) ->
  response_ok status = true ->
  request seed suggestion key a
  = (Throws msg, after_request a seed suggestion).
Proof. intros H Hok. run_request. by rewrite H, Hok. Qed.


Lemma request_answered a seed suggestion key status c parsed r :
  fetch (requestBody a seed suggestion) = HttpReply status (BodyContent c) ->
  response_ok status = true ->
  JSON_parse c = Returns parsed ->
  rationale_of_parsed parsed = Some r ->
  request seed suggestion key a
  = (Returns r, after_store a seed suggestion key r).
Proof. intros H Hok Hp Hr. run_request. by rewrite H, Hok, Hp, Hr. Qed.

(** The [try] block either throws after the request, or stores its answer
    under the key and returns it. *)
Lemma request_cases a seed suggestion key :
  (exists msg, request seed suggestion key a
               = (Throws msg, after_request a seed suggestion))
  \/ (exists r, request seed suggestion key a
                = (Returns r, after_store a seed suggestion key r)).
Proof.
  run_request.
  destruct (fetch _) as [msg|status body]; [by left; eexists|].
  destruct (response_ok status); simpl; [|by left; eexists].
  destruct body as [msg|c]; [by left; eexists|].
  destruct (JSON_parse c) as [parsed|msg]; [|by left; eexists].
  destruct (rationale_of_parsed parsed) as [r|]; [|by left; eexists].
  right. by eexists.
Qed.

Lemma explain_cached a seed suggestion r :
  cache a !! cacheKey_of a suggestion = Some r ->
  explain seed suggestion a = (Returns r, a).
Proof.
  intros H. unfold getAIRationale, mbind, Flow_bind, read. simpl.
  by rewrite H.
Qed.

(** A miss with a usable key: the [try] block, and the fallback if it
    throws. *)
Lemma explain_requested a seed suggestion :
  cache a !! cacheKey_of a suggestion = None ->
  JsString.nonempty (openaiApiKey (settings a)) = true ->
  JsString.startsWith "sk-" (openaiApiKey (settings a)) = true ->
  explain seed suggestion a =
  match request seed suggestion (cacheKey_of a suggestion) a with
  | (Returns r, a') => (Returns r, a')
  | (Throws msg, a') => (Returns (fallbackRationale msg), a')
  end.
Proof.
  intros Hmiss Hkey Hsk. unfold getAIRationale, mbind, Flow_bind, read. simpl.
  rewrite Hmiss, Hkey, Hsk. simpl. unfold try_catch.
  by destruct (requestRationale _ _ _ _ _ a) as [[r|msg] a'].
Qed.

(** Every call returns a rationale. *)
Lemma explain_returns a seed suggestion :
  exists r, (explain seed suggestion a).1 = Returns r.
Proof.
  unfold getAIRationale, mbind, Flow_bind, read. simpl.
  destruct (cache a !! cacheKey_of a suggestion) as [r|]; [by eexists|].
  destruct (negb _ || negb _); [by eexists|].
  unfold try_catch.
  destruct (requestRationale _ _ _ _ _ a) as [[r|msg] a']; by eexists.
Qed.

(** A call changes the cache and the list of requests only, and keeps the
    entries that the cache has. *)
Lemma explain_frame a seed suggestion :
  let a' := (explain seed suggestion a).2 in
  quotes a' = quotes a /\ neighbors a' = neighbors a /\ path a' = path a
  /\ settings a' = settings a
  /\ currentSuggestion a' = currentSuggestion a
  /\ recentPicks a' = recentPicks a
  /\ forall k r, cache a !! k = Some r -> cache a' !! k = Some r.
Proof.
  unfold getAIRationale, mbind, Flow_bind, read. simpl.
  destruct (cache a !! cacheKey_of a suggestion) as [r|] eqn:Hlook;
    [by repeat split|].
  destruct (negb _ || negb _); [by repeat split|].
  unfold try_catch.
  destruct (request_cases a seed suggestion (cacheKey_of a suggestion))
    as [[msg ->]|[r ->]]; simpl; repeat split; try done.
  intros k r' Hk. rewrite lookup_insert_ne; [done|]. congruence.
Qed.

End Environment.

End RationaleFacts.

(** ** The two explain operations compared *)

Module ExplainFacts.

Import Browser.

(** C2, as the code has it. In the browser, [getAIRationale] never raises:
    every call returns a rationale, and an upstream answer 429 (rate
    limited) gives the degraded rationale with the label [adjacent] and
    the text that asks to try again. In the proxy, the only rate limiter of
    the code denies by raising: [handleSuggestLogic] throws
    "Rate limit exceeded". *)
Theorem explain_never_raises_in_browser JSON_parse fetch a seed suggestion :
  (exists r, (getAIRationale JSON_parse fetch seed suggestion a).1 = Returns r)
  /\ (forall body,
        cache a !! cacheKey_of a suggestion = None ->
        JsString.nonempty (openaiApiKey (settings a)) = true ->
        JsString.startsWith "sk-" (openaiApiKey (settings a)) = true ->
        fetch (requestBody a seed suggestion) = HttpReply 429 body ->
        (getAIRationale JSON_parse fetch seed suggestion a).1
        = Returns
            {| title := JStr "Connected Ideas";
               rationale :=
                 JStr "Rate limit reached. Please try again in a moment.";
               labels := JArr [JStr "adjacent"] |})
  /\ (forall parse key upstream Date_now body s w,
        Server.suggestion body = Some s ->
        JsString.nonempty (text s) = true ->
        (Server.RATE_LIMIT_MAX_REQUESTS
         <= length (Server.live
                      (Date_now (Server.reads w) - Server.RATE_LIMIT_WINDOW)
                      (default [] (Server.rateLimitStore w
                                     !! Server.getClientId body))))%nat ->
        (Server.handleSuggestLogic parse key upstream Date_now body w).1
        = Throws "Rate limit exceeded").
Proof.
  split; [apply RationaleFacts.explain_returns|]. split.
  - intros body Hmiss Hkey Hsk Hfetch.
    rewrite RationaleFacts.explain_requested by done.
    by rewrite (RationaleFacts.request_refused _ _ _ _ _ _ 429 body Hfetch).
  - intros parse key upstream Date_now body s w Hs Htext Hfull.
    by apply (SuggestFacts.suggest_denied parse key upstream Date_now body s w).
Qed.

Lemma explain_never_raises_in_browser_witness :
  let a := mkApp [] ∅ []
             (mkSettings "gpt-4o-mini" (7 # 10) 150 "sk-test" "Be brief.")
             ∅ None [] [] in
  let q := mkQuote "q2" "Know thyself" None None in
  (getAIRationale (fun _ => Throws "Unexpected token")
                  (fun _ => HttpReply 429 (BodyThrows "unread")) None q a).1
  = Returns
      {| title := JStr "Connected Ideas";
         rationale := JStr "Rate limit reached. Please try again in a moment.";
         labels := JArr [JStr "adjacent"] |}.
Proof.
  intros a q.
  destruct (explain_never_raises_in_browser
              (fun _ => Throws "Unexpected token")
              (fun _ => HttpReply 429 (BodyThrows "unread")) a None q)
    as (_ & Hlimited & _).
  apply (Hlimited (BodyThrows "unread")); reflexivity.
Defined.

(** C2 as stated fails in the proxy: a client with thirty requests in the
    last minute does not get a degraded rationale but an error. *)
Lemma suggest_raises_when_rate_limited :
  let body :=
    Server.mkBody None (Some (mkQuote "q2" "Know thyself" None None))
                  None None None None None in
  let w := Server.mkWorld {[ "1544803905" := replicate 30 900 ]} ∅ 0 [] in
  (Server.handleSuggestLogic (fun _ => Throws "Unexpected token")
     (Some "sk-test") (fun _ => HttpReply 200 (BodyContent "{}"))
     (fun n => 1000 + Z.of_nat n) body w).1
  = Throws "Rate limit exceeded".
Proof. vm_compute. reflexivity. Qed.




(** In the proxy a reply that is not JSON is answered with the fallback of
    [parseSuggestionResponse], and that fallback is written to the cache. *)
Lemma suggest_caches_unparsed_reply :
  let body :=
    Server.mkBody None (Some (mkQuote "q2" "Know thyself" None None))
                  None None None None None in
  let run :=
    Server.handleSuggestLogic (fun _ => Throws "Unexpected token")
      (Some "sk-test") (fun _ => HttpReply 200 (BodyContent "Sorry, no."))
      (fun n => 1000 + Z.of_nat n) body (Server.mkWorld ∅ ∅ 0 []) in
  let fallback :=
    {| title := JStr "Connected Ideas";
       rationale := JStr "Sorry, no....";
       labels := JArr [JStr "adjacent"] |} in
  run.1 = Returns (Server.mkSuggest (Server.VRationale fallback))
  /\ Server.responseCache run.2 !! "suggest:q2:1544803905"
     = Some (Server.mkEntry (Server.VRationale fallback) 3601001).
Proof. vm_compute. split; reflexivity. Qed.

End ExplainFacts.

(** ** A session of the browser application *)

Module SessionFacts.

Import Browser.

(** No operation removes or replaces an entry of the rationale cache. *)
Lemma step_keeps_cache a a' :
  step a a' -> forall k r, cache a !! k = Some r -> cache a' !! k = Some r.
Proof.
  intros Hstep k r Hk. destruct Hstep; simpl; try done.
  - unfold acceptSuggestion. by destruct (currentSuggestion a).
  - by apply RationaleFacts.explain_frame.
Qed.

Lemma session_keeps_cache a a' :
  rtc step a a' -> forall k r, cache a !! k = Some r -> cache a' !! k = Some r.
Proof.
  induction 1 as [|a1 a2 a3 Hstep _ IH]; [done|].
  intros k r Hk. apply IH. by apply (step_keeps_cache a1).
Qed.

(** C10. A rationale stored under the key made of the id of the suggestion
    and of the hash of the configured system prompt stays: after any
    further operations of the session, a call for a suggestion with the
    same id, under the same system prompt, returns exactly that rationale
    and leaves the state as it is, so that no request is sent. No clock is
    read on the way. *)
Theorem cached_rationale_permanent a a' suggestion r
  (Hstored : cache a !! cacheKey_of a suggestion = Some r)
  (Hlater : rtc step a a') :
  forall JSON_parse fetch seed' suggestion',
    id suggestion' = id suggestion ->
    systemPrompt (settings a') = systemPrompt (settings a) ->
    getAIRationale JSON_parse fetch seed' suggestion' a' = (Returns r, a')
    /\ sent (getAIRationale JSON_parse fetch seed' suggestion' a').2 = sent a'.
Proof.
  intros JSON_parse fetch seed' suggestion' Hid Hprompt.
  assert (Hrun : getAIRationale JSON_parse fetch seed' suggestion' a'
                 = (Returns r, a')).
  { apply RationaleFacts.explain_cached.
    apply (session_keeps_cache a a' Hlater).
    unfold cacheKey_of in *. by rewrite Hid, Hprompt. }
  split; [exact Hrun|]. by rewrite Hrun.
Qed.

(** A successful call stores what it returns. *)
Lemma explain_stores JSON_parse fetch a seed suggestion status c parsed r :
  cache a !! cacheKey_of a suggestion = None ->
  JsString.nonempty (openaiApiKey (settings a)) = true ->
  JsString.startsWith "sk-" (openaiApiKey (settings a)) = true ->
  fetch (requestBody a seed suggestion) = HttpReply status (BodyContent c) ->
  response_ok status = true ->
  JSON_parse c = Returns parsed ->
  rationale_of_parsed parsed = Some r ->
  let run := getAIRationale JSON_parse fetch seed suggestion a in
  run.1 = Returns r
  /\ cache run.2 !! cacheKey_of run.2 suggestion = Some r.
Proof.
  intros Hmiss Hkey Hsk Hfetch Hok Hparse Hr run. subst run.
  rewrite RationaleFacts.explain_requested by done.
  rewrite (RationaleFacts.request_answered _ _ _ _ _ _ status c parsed r)
    by done.
  simpl. split; [done|]. unfold cacheKey_of. simpl.
  apply lookup_insert_eq.
Qed.

Lemma cached_rationale_permanent_witness :
  let parse := fun c : string =>
    if String.eqb c "{}" then Returns (JObj []) else Throws "Unexpected token" in
  let online := fun _ : request => HttpReply 200 (BodyContent "{}") in
  let offline := fun _ : request => FetchRejects "Failed to fetch" in
  let q := mkQuote "q2" "Know thyself" None None in
  let a0 := mkApp [q] ∅ []
              (mkSettings "gpt-4o-mini" (7 # 10) 150 "sk-test" "Be brief.")
              ∅ None [] [] in
  let a1 := (getAIRationale parse online None q a0).2 in
  let a2 := acceptSuggestion (setCurrentSuggestion
                                (mkSuggestion q q noKeyRationale) a1) in
  let r := {| title := JStr "Connected Ideas";
              rationale := JStr "These quotes share interesting connections.";
              labels := JArr [JStr "adjacent"] |} in
  (getAIRationale parse online None q a0).1 = Returns r
  /\ getAIRationale parse offline (Some q) q a2 = (Returns r, a2)
  /\ length (sent a2) = 1%nat.
Proof.
  intros parse online offline q a0 a1 a2 r.
  split; [vm_compute; reflexivity|]. split; [|vm_compute; reflexivity].
  apply (cached_rationale_permanent a1 a2 q r).
  - vm_compute. reflexivity.
  - eapply rtc_l; [apply (step_suggestion (mkSuggestion q q noKeyRationale))|].
    eapply rtc_l; [apply step_accept|]. apply rtc_refl.
  - reflexivity.
  - reflexivity.
Defined.

(** The bound on the recency set holds in every state of a session. *)
Lemma recency_bound_reachable a :
  reachable a ->
  (length (recentPicks a) <= 20)%nat /\ NoDup (recentPicks a).
Proof.
  intros [s Hrtc]. revert a Hrtc.
  apply (rtc_ind_r (fun a => (length (recentPicks a) <= 20)%nat
                             /\ NoDup (recentPicks a))).
  - simpl. split; [lia|constructor].
  - intros a1 a2 _ Hstep [Hlen Hnd].
    destruct Hstep as [a|qs a|qs a|n a|p a|sg a|st a|parse upstream sd sg a];
      simpl; try (split; [lia|constructor]); try done.
    + by apply RecencyFacts.acceptSuggestion_invariant.
    + destruct (RationaleFacts.explain_frame parse upstream a sd sg)
        as (_ & _ & _ & _ & _ & Hrec & _).
      simpl in Hrec. by rewrite Hrec.
Qed.

End SessionFacts.

(** ** The string hash *)

Module HashFacts.

Import JsString.

Lemma to_int32_range x : - 2 ^ 31 <= to_int32 x < 2 ^ 31.
Proof.
  unfold to_int32.
  pose proof (Z.mod_pos_bound (x + 2 ^ 31) (2 ^ 32) ltac:(lia)). lia.
Qed.

Lemma to_int32_shift x k : to_int32 (x + k * 2 ^ 32) = to_int32 x.
Proof.
  unfold to_int32.
  replace (x + k * 2 ^ 32 + 2 ^ 31) with (x + 2 ^ 31 + k * 2 ^ 32) by lia.
  by rewrite Z_mod_plus_full.
Qed.

Lemma to_int32_wraps x : exists k, to_int32 x = x + k * 2 ^ 32.
Proof.
  exists (- ((x + 2 ^ 31) / 2 ^ 32)). unfold to_int32.
  pose proof (Z.div_mod (x + 2 ^ 31) (2 ^ 32) ltac:(lia)). lia.
Qed.

Lemma to_int32_id x : - 2 ^ 31 <= x < 2 ^ 31 -> to_int32 x = x.
Proof. intros H. unfold to_int32. rewrite Z.mod_small; lia. Qed.

(** One turn of the loop multiplies by 31 and adds the code unit, modulo
    2^32. *)
Lemma hash_step_31 x c :
  hash_step (to_int32 x) c = to_int32 (31 * x + code c).
Proof.
  unfold hash_step. rewrite Z.land_diag, Z.shiftl_mul_pow2 by lia.
  destruct (to_int32_wraps x) as [k1 ->].
  destruct (to_int32_wraps ((x + k1 * 2 ^ 32) * 2 ^ 5)) as [k2 ->].
  replace ((x + k1 * 2 ^ 32) * 2 ^ 5 + k2 * 2 ^ 32 - (x + k1 * 2 ^ 32) + code c)
    with (31 * x + code c + (31 * k1 + k2) * 2 ^ 32) by lia.
  apply to_int32_shift.
Qed.

Lemma hash_loop_horner x str :
  hash_loop (to_int32 x) str = to_int32 (Hash.horner31 x str).
Proof.
  revert x. induction str as [|c str IH]; intros x; simpl; [done|].
  by rewrite hash_step_31, IH.
Qed.

(** The hash of a string is the signed 32-bit wrap of the polynomial of its
    code units in base 31 (the hash code of Java strings); it lies in
    [-2^31, 2^31), and [hashString] prints it in decimal. *)
Theorem hashString_polynomial str :
  let hash := hash_loop 0 str in
  hash = to_int32 (Hash.horner31 0 str)
  /\ - 2 ^ 31 <= hash < 2 ^ 31
  /\ hashString str = pretty hash.
Proof.
  intros hash.
  assert (E : hash = to_int32 (Hash.horner31 0 str)).
  { subst hash. change (hash_loop 0 str) with (hash_loop (to_int32 0) str).
    apply hash_loop_horner. }
  split; [exact E|]. split; [|done].
  rewrite E. apply to_int32_range.
Qed.

End HashFacts.

(** ** More on strings *)

Module StringFacts.

Import JsString.

Lemma app_cons c (s t : string) : String c s ++ t = String c (s ++ t).
Proof. reflexivity. Qed.

Lemma app_nil_r (s : string) : s ++ EmptyString = s.
Proof. induction s as [|c s IH]; [done|]. by rewrite app_cons, IH. Qed.

Lemma app_assoc (a b c : string) : (a ++ b) ++ c = a ++ (b ++ c).
Proof. induction a as [|x a IH]; [done|]. by rewrite !app_cons, IH. Qed.

Lemma length_app (a b : string) :
  String.length (a ++ b) = (String.length a + String.length b)%nat.
Proof.
  induction a as [|x a IH]; [done|]. rewrite app_cons. simpl. by rewrite IH.
Qed.

Lemma prefix_nil (s : string) : String.prefix EmptyString s = true.
Proof. by destruct s. Qed.

Lemma prefix_cons c p x s :
  String.prefix (String c p) (String x s)
  = bool_decide (c = x) && String.prefix p s.
Proof. simpl. destruct (ascii_dec c x); by case_bool_decide. Qed.

Lemma prefix_app (p s : string) : String.prefix p (p ++ s) = true.
Proof.
  induction p as [|c p IH]; [apply prefix_nil|].
  rewrite app_cons, prefix_cons, IH. by case_bool_decide.
Qed.

Lemma prefix_app_r (p a b : string) :
  String.prefix p a = true -> String.prefix p (a ++ b) = true.
Proof.
  revert a. induction p as [|c p IH]; intros a; [intros _; apply prefix_nil|].
  destruct a as [|x a]; [done|].
  rewrite app_cons, !prefix_cons. intros H.
  apply andb_true_iff in H as [-> H]. by rewrite IH.
Qed.

Lemma includes_unfold sub x s :
  includes sub (String x s) = String.prefix sub (String x s) || includes sub s.
Proof. reflexivity. Qed.

Lemma includes_app_l sub a b :
  includes sub a = true -> includes sub (a ++ b) = true.
Proof.
  induction a as [|x a IH].
  - simpl. rewrite orb_false_r. destruct sub; [intros _|done].
    by destruct b.
  - rewrite app_cons, !includes_unfold. intros H.
    apply orb_true_iff in H as [H|H].
    + pose proof (prefix_app_r sub (String x a) b H) as Hp.
      rewrite app_cons in Hp. by rewrite Hp.
    + rewrite (IH H). apply orb_true_r.
Qed.

Lemma includes_app_r sub a b :
  includes sub b = true -> includes sub (a ++ b) = true.
Proof.
  intros H. induction a as [|x a IH]; [done|].
  rewrite app_cons, includes_unfold, IH. apply orb_true_r.
Qed.

Lemma includes_here sub s : includes sub (sub ++ s) = true.
Proof.
  pose proof (prefix_app sub s) as Hp.
  destruct (sub ++ s) as [|x t].
  - change (String.prefix sub EmptyString || false = true). by rewrite Hp.
  - rewrite includes_unfold. by rewrite Hp.
Qed.




End StringFacts.

(** ** The keys of the cache and of the rate window *)

Module KeyFacts.

Import JsString Server.



End KeyFacts.

(** ** More on the rate limiter *)

Module LimiterFacts.

Import Server.

Section Clock.

Variable Date_now : nat -> Z.

Lemma live_length ws l : (length (live ws l) <= length l)%nat.
Proof. unfold live. apply length_filter. Qed.

Lemma live_Forall ws l : Forall (fun t => ws < t) (live ws l).
Proof. unfold live. apply Forall_forall. intros t Ht.
  by apply list_elem_of_filter in Ht as [? _]. Qed.

(** Purging for a later window subsumes purging for an earlier one. *)
Lemma live_live ws1 ws2 l :
  ws1 <= ws2 -> live ws2 (live ws1 l) = live ws2 l.
Proof.
  intros Hle. unfold live. induction l as [|t l IH]; [done|].
  rewrite (filter_cons _ t l). case_decide as H1.
  - rewrite !filter_cons. case_decide; by rewrite IH.
  - rewrite IH, filter_cons. case_decide; [lia|done].
Qed.

(** After a check, whatever its verdict, every client of the store has a
    list of timestamps that is not empty, lies inside the window of the
    check, and, if no list had more than 30 timestamps before, has at most
    30. *)
Theorem limiter_store_bounded clientId w
  (Hbound : forall k ts, rateLimitStore w !! k = Some ts ->
              (length ts <= 30)%nat) :
  let now := Date_now (reads w) in
  let w' := (checkRateLimit Date_now clientId w).2 in
  forall k ts,
    rateLimitStore w' !! k = Some ts ->
    ts <> []
    /\ Forall (fun t => now - RATE_LIMIT_WINDOW < t) ts
    /\ (length ts <= 30)%nat.
Proof.
  intros now w' k ts. subst w'.
  rewrite RateLimitFacts.checkRateLimit_run. fold now.
  assert (Hclean : forall ts',
            clean_old_entries (now - RATE_LIMIT_WINDOW) (rateLimitStore w) !! k
            = Some ts' ->
            ts' <> [] /\ Forall (fun t => now - RATE_LIMIT_WINDOW < t) ts'
            /\ (length ts' <= 30)%nat).
  { intros ts'. unfold clean_old_entries. rewrite lookup_omap.
    destruct (rateLimitStore w !! k) as [orig|] eqn:Horig; simpl; [|done].
    case_decide as Hlen; [done|]. intros [= <-].
    split; [by destruct (live _ orig)|]. split; [apply live_Forall|].
    pose proof (live_length (now - RATE_LIMIT_WINDOW) orig).
    pose proof (Hbound k orig Horig). lia. }
  case_decide as Hfull; simpl; [apply Hclean|].
  destruct (decide (k = clientId)) as [->|Hne].
  - rewrite lookup_insert_eq. intros [= <-].
    split; [by destruct (live _ _)|]. split.
    + apply Forall_app. split; [apply live_Forall|].
      constructor; [|constructor]. unfold RATE_LIMIT_WINDOW. lia.
    + rewrite length_app. simpl. unfold RATE_LIMIT_MAX_REQUESTS in Hfull. lia.
  - rewrite lookup_insert_ne by done. apply Hclean.
Qed.

(** A check of one client does not change the verdict of the next check
    of another client: that verdict counts the timestamps which the other
    client had before, provided the clock does not run backwards. *)
Theorem limiter_clients_independent a b w
  (Hdiff : a <> b)
  (Hclock : Date_now (reads w) <= Date_now (S (reads w))) :
  let w1 := (checkRateLimit Date_now a w).2 in
  (checkRateLimit Date_now b w1).1
  = Returns
      (bool_decide
         (length (live (Date_now (S (reads w)) - RATE_LIMIT_WINDOW)
                       (default [] (rateLimitStore w !! b)))
          < RATE_LIMIT_MAX_REQUESTS)%nat).
Proof.
  intros w1. subst w1.
  rewrite (RateLimitFacts.checkRateLimit_run Date_now b).
  rewrite (RateLimitFacts.checkRateLimit_run Date_now a w).
  set (ws1 := Date_now (reads w) - RATE_LIMIT_WINDOW).
  assert (E : forall store',
            store' = clean_old_entries ws1 (rateLimitStore w)
            \/ (exists l, store' = <[a := l]>
                            (clean_old_entries ws1 (rateLimitStore w))) ->
            live (Date_now (S (reads w)) - RATE_LIMIT_WINDOW)
                 (default [] (store' !! b))
            = live (Date_now (S (reads w)) - RATE_LIMIT_WINDOW)
                   (default [] (rateLimitStore w !! b))).
  { intros store' [->|[l ->]]; rewrite ?lookup_insert_ne by done;
      rewrite RateLimitFacts.clean_lookup; apply live_live; unfold ws1; lia. }
  destruct (decide (RATE_LIMIT_MAX_REQUESTS
                    <= length (live ws1 (default [] (rateLimitStore w !! a))))%nat);
    simpl.
  - rewrite (E _ (or_introl eq_refl)).
    case_decide; case_bool_decide; done || lia.
  - rewrite (E _ (or_intror (ex_intro _ _ eq_refl))).
    case_decide; case_bool_decide; done || lia.
Qed.

End Clock.

Lemma limiter_store_bounded_witness :
  let w := mkWorld {[ "a" := [100; 59000]; "b" := [200] ]} ∅ 0 [] in
  let w' := (checkRateLimit (fun _ => 60150) "a" w).2 in
  rateLimitStore w' !! "a" = Some [59000; 60150]
  /\ rateLimitStore w' !! "b" = Some [200]
  /\ forall k ts, rateLimitStore w' !! k = Some ts ->
       ts <> [] /\ Forall (fun t => 60150 - RATE_LIMIT_WINDOW < t) ts
       /\ (length ts <= 30)%nat.
Proof.
  intros w w'. split; [vm_compute; reflexivity|].
  split; [vm_compute; reflexivity|].
  apply (limiter_store_bounded (fun _ => 60150) "a" w).
  intros k ts Hk.
  destruct (decide (k = "a")) as [->|Ha].
  { vm_compute in Hk. injection Hk as Hts. subst ts. simpl. lia. }
  destruct (decide (k = "b")) as [->|Hb].
  { vm_compute in Hk. injection Hk as Hts. subst ts. simpl. lia. }
  unfold w in Hk. simpl in Hk.
  rewrite lookup_insert_ne, lookup_singleton_ne in Hk by done. done.
Defined.

Lemma limiter_clients_independent_witness :
  let w := mkWorld {[ "b" := replicate 30 500 ]} ∅ 0 [] in
  let clock := fun n : nat => 1000 + Z.of_nat n in
  (checkRateLimit clock "b" (checkRateLimit clock "a" w).2).1 = Returns false.
Proof.
  intros w clock.
  rewrite (limiter_clients_independent clock "a" "b" w).
  - vm_compute. reflexivity.
  - discriminate.
  - unfold clock. simpl. lia.
Defined.

End LimiterFacts.

(** ** More on the suggestion flow of the proxy *)

Module FlowFacts.

Import Server.

Section Environment.

Variable JSON_parse : string -> outcome json.
Variable OPENAI_API_KEY : option string.
Variable fetch : request -> fetch_reply.
Variable Date_now : nat -> Z.

Local Abbreviation handleSuggest :=
  (handleSuggestLogic JSON_parse OPENAI_API_KEY fetch Date_now).

Lemma getFromCache_store key w :
  rateLimitStore (getFromCache Date_now key w).2 = rateLimitStore w.
Proof.
  destruct (responseCache w !! key) as [entry|] eqn:Hlook.
  - rewrite (CacheFacts.getFromCache_run Date_now key entry w Hlook).
    by destruct (expires entry <? Date_now (reads w)).
  - by rewrite (CacheFacts.getFromCache_miss Date_now key w Hlook).
Qed.

(** After the check of the limiter, the flow leaves the rate window alone. *)
Lemma suggest_store body s w :
  suggestion body = Some s ->
  JsString.nonempty (text s) = true ->
  rateLimitStore (handleSuggest body w).2
  = rateLimitStore (checkRateLimit Date_now (getClientId body) w).2.
Proof.
  intros Hs Htext. rewrite (SuggestFacts.handleSuggest_run _ _ _ _ body s w Hs Htext).
  destruct (checkRateLimit Date_now (getClientId body) w) as [[[]|msg] w1];
    simpl; try done.
  match goal with |- context [getFromCache _ ?k w1] =>
    pose proof (getFromCache_store k w1) as Hstore;
    destruct (getFromCache Date_now k w1) as [[cached|msg] w2]
  end; simpl in *; [|done].
  destruct (if_truthy cached); [done|].
  match goal with |- context [callOpenAI _ _ ?p ?o w2] =>
    pose proof (SuggestFacts.callOpenAI_world OPENAI_API_KEY fetch p o w2) as Hw;
    destruct (callOpenAI OPENAI_API_KEY fetch p o w2) as [[ai|msg] w3]
  end; simpl in *; subst w3; simpl; done.
Qed.

(** A request that passes validation and the limiter
    takes one place in the rate window of its client, whether it is then
    answered from the cache, by the AI client, or by an error. *)
Theorem admitted_request_is_counted body s w
  (Hs : suggestion body = Some s)
  (Htext : JsString.nonempty (text s) = true)
  (Hroom : (length (live (Date_now (reads w) - RATE_LIMIT_WINDOW)
                         (default [] (rateLimitStore w !! getClientId body)))
            < RATE_LIMIT_MAX_REQUESTS)%nat) :
  rateLimitStore (handleSuggest body w).2 !! getClientId body
  = Some (live (Date_now (reads w) - RATE_LIMIT_WINDOW)
               (default [] (rateLimitStore w !! getClientId body))
          ++ [Date_now (reads w)])%list.
Proof.
  rewrite (suggest_store body s w Hs Htext).
  rewrite RateLimitFacts.checkRateLimit_run. case_decide; [lia|].
  simpl. apply lookup_insert_eq.
Qed.

(** The AI client answers with the content of a 2xx reply. *)
Lemma callOpenAI_succeeds messages user options w apiKey status c :
  OPENAI_API_KEY = Some apiKey -> JsString.nonempty apiKey = true ->
  messages !! 1%nat = Some user ->
  (forall r, fetch r = HttpReply status (BodyContent c)) ->
  response_ok status = true ->
  (callOpenAI OPENAI_API_KEY fetch messages options w).1 = Returns c.
Proof.
  intros Hkey Hne Huser Hfetch Hok.
  unfold callOpenAI, mbind, Flow_bind, mret, Flow_ret, throw; simpl.
  rewrite Hkey, Hne. simpl. rewrite Huser, Hfetch, Hok. done.
Qed.

(** A miss answered by the AI client, in closed form. *)
Lemma suggest_miss_answered body s w apiKey status c :
  suggestion body = Some s ->
  JsString.nonempty (text s) = true ->
  (length (live (Date_now (reads w) - RATE_LIMIT_WINDOW)
                (default [] (rateLimitStore w !! getClientId body)))
   < RATE_LIMIT_MAX_REQUESTS)%nat ->
  responseCache w !! getCacheKey "suggest" (id s) (systemPrompt body) = None ->
  OPENAI_API_KEY = Some apiKey -> JsString.nonempty apiKey = true ->
  (forall r, fetch r = HttpReply status (BodyContent c)) ->
  response_ok status = true ->
  let clientId := getClientId body in
  let cacheKey := getCacheKey "suggest" (id s) (systemPrompt body) in
  let answer := VRationale (parseSuggestionResponse JSON_parse c) in
  handleSuggest body w =
  (Returns (mkSuggest answer),
   mkWorld
     (<[clientId := (live (Date_now (reads w) - RATE_LIMIT_WINDOW)
                          (default [] (rateLimitStore w !! clientId))
                     ++ [Date_now (reads w)])%list]>
        (clean_old_entries (Date_now (reads w) - RATE_LIMIT_WINDOW)
                           (rateLimitStore w)))
     (<[cacheKey := mkEntry answer (Date_now (S (reads w)) + CACHE_TTL)]>
        (responseCache w))
     (S (S (reads w)))
     (events w ++ [RateLimitChecked clientId; CacheRead cacheKey;
                   AICalled (buildSuggestionPrompt (seed body) s
                                                   (systemPrompt body));
                   CacheWritten cacheKey])).
Proof.
  intros Hs Htext Hroom Hmiss Hkey Hne Hfetch Hok clientId cacheKey answer.
  subst clientId cacheKey answer.
  rewrite (SuggestFacts.handleSuggest_run _ _ _ _ body s w Hs Htext).
  rewrite RateLimitFacts.checkRateLimit_run.
  case_decide; [lia|].
  set (w1 := mkWorld _ _ _ _).
  rewrite (CacheFacts.getFromCache_miss Date_now _ w1 Hmiss). simpl.
  match goal with |- context [callOpenAI _ _ ?p ?o ?w2] =>
    pose proof (callOpenAI_succeeds p (mkMessage "user"
                  (suggestionUserMessage em_dash (seed body) s)) o w2
                  apiKey status c Hkey Hne eq_refl Hfetch Hok) as Hres;
    pose proof (SuggestFacts.callOpenAI_world OPENAI_API_KEY fetch p o w2) as Hw;
    destruct (callOpenAI OPENAI_API_KEY fetch p o w2) as [res w3]
  end.
  simpl in Hres, Hw. subst res w3. simpl.
  by rewrite <- !app_assoc.
Qed.

(** A hit, in closed form. *)
Lemma suggest_hit body s entry w :
  suggestion body = Some s ->
  JsString.nonempty (text s) = true ->
  (length (live (Date_now (reads w) - RATE_LIMIT_WINDOW)
                (default [] (rateLimitStore w !! getClientId body)))
   < RATE_LIMIT_MAX_REQUESTS)%nat ->
  responseCache w !! getCacheKey "suggest" (id s) (systemPrompt body)
  = Some entry ->
  truthy (data entry) = true ->
  Date_now (S (reads w)) <= expires entry ->
  (handleSuggest body w).1 = Returns (mkSuggest (data entry))
  /\ events (handleSuggest body w).2
     = (events w ++ [RateLimitChecked (getClientId body);
                     CacheRead (getCacheKey "suggest" (id s)
                                            (systemPrompt body))])%list.
Proof.
  intros Hs Htext Hroom Hentry Htruthy Hfresh.
  rewrite (SuggestFacts.handleSuggest_run _ _ _ _ body s w Hs Htext).
  rewrite RateLimitFacts.checkRateLimit_run. case_decide; [lia|].
  set (w1 := mkWorld _ _ _ _).
  rewrite (CacheFacts.getFromCache_run Date_now _ entry w1 Hentry).
  destruct (Z.ltb_spec (expires entry) (Date_now (reads w1)));
    [simpl in *; lia|].
  simpl. rewrite Htruthy. simpl. split; [done|]. by rewrite <- app_assoc.
Qed.

End Environment.

(** A request answered by the AI client is answered from the cache when
    its suggestion comes again under the same system prompt, whatever the
    seed, the text of the suggestion, the model and the other fields of the
    second request are: if the limiter allows the second request and its
    cache read is made within one hour of the write, the second flow
    returns the response of the first without a call of the AI client,
    whatever the surroundings of the second flow are. *)
Theorem suggest_warm_cache JSON_parse key1 fetch1 key2 fetch2 parse2 Date_now
    body s body2 s2 w apiKey status c
  (Hs : suggestion body = Some s)
  (Htext : JsString.nonempty (text s) = true)
  (Hroom : (length (live (Date_now (reads w) - RATE_LIMIT_WINDOW)
                         (default [] (rateLimitStore w !! getClientId body)))
            < RATE_LIMIT_MAX_REQUESTS)%nat)
  (Hmiss : responseCache w
             !! getCacheKey "suggest" (id s) (systemPrompt body) = None)
  (Hkey : key1 = Some apiKey) (Hne : JsString.nonempty apiKey = true)
  (Hfetch : forall r, fetch1 r = HttpReply status (BodyContent c))
  (Hok : response_ok status = true)
  (Hs2 : suggestion body2 = Some s2)
  (Htext2 : JsString.nonempty (text s2) = true)
  (Hid : id s2 = id s)
  (Hprompt : systemPrompt body2 = systemPrompt body) :
  let first := handleSuggestLogic JSON_parse key1 fetch1 Date_now body w in
  let second :=
    handleSuggestLogic parse2 key2 fetch2 Date_now body2 first.2 in
  first.1
  = Returns (mkSuggest (VRationale (parseSuggestionResponse JSON_parse c)))
  /\ ((length (live (Date_now (S (S (reads w))) - RATE_LIMIT_WINDOW)
                    (default [] (rateLimitStore first.2 !! getClientId body)))
       < RATE_LIMIT_MAX_REQUESTS)%nat ->
      Date_now (S (S (S (reads w)))) <= Date_now (S (reads w)) + CACHE_TTL ->
      second.1 = first.1
      /\ events second.2
         = (events first.2
            ++ [RateLimitChecked (getClientId body);
                CacheRead (getCacheKey "suggest" (id s)
                                       (systemPrompt body))])%list).
Proof.
  intros first second. subst second first.
  rewrite (suggest_miss_answered JSON_parse key1 fetch1 Date_now body s w
             apiKey status c) by done.
  simpl. split; [done|]. intros Hroom2 Hfresh.
  set (w1 := mkWorld _ _ _ _) in *.
  assert (Hclient : getClientId body2 = getClientId body).
  { unfold getClientId. by rewrite Hprompt. }
  pose proof (suggest_hit parse2 key2 fetch2 Date_now body2 s2
                (mkEntry (VRationale (parseSuggestionResponse JSON_parse c))
                         (Date_now (S (reads w)) + CACHE_TTL)) w1 Hs2 Htext2)
    as Hhit.
  rewrite Hclient, Hid, Hprompt in Hhit.
  apply Hhit; try done.
  unfold w1. simpl. apply lookup_insert_eq.
Qed.

Lemma admitted_request_is_counted_witness :
  let body := mkBody None (Some (mkQuote "q2" "Know thyself" None None))
                     None None None None None in
  let run := handleSuggestLogic (fun _ => Throws "Unexpected token") None
               (fun _ => FetchRejects "offline")
               (fun n => 1000 + Z.of_nat n) body (mkWorld ∅ ∅ 0 []) in
  run.1 = Throws "OpenAI API key not configured"
  /\ rateLimitStore run.2 !! "1544803905" = Some [1000].
Proof.
  intros body run. split; [vm_compute; reflexivity|].
  assert (Hroom : (length (live (1000 - RATE_LIMIT_WINDOW)%Z
                             (default [] ((∅ : gmap string (list Z))
                                            !! getClientId body)))
                   < RATE_LIMIT_MAX_REQUESTS)%nat)
    by (vm_compute; lia).
  pose proof (admitted_request_is_counted (fun _ => Throws "Unexpected token")
                None (fun _ => FetchRejects "offline")
                (fun n => 1000 + Z.of_nat n) body
                (mkQuote "q2" "Know thyself" None None) (mkWorld ∅ ∅ 0 [])
                eq_refl eq_refl Hroom) as Hcounted.
  exact Hcounted.
Defined.

Lemma suggest_warm_cache_witness :
  let q2 := mkQuote "q2" "Know thyself" None None in
  let body := mkBody None (Some q2) None None None None None in
  let body2 :=
    mkBody (Some (mkQuote "q1" "Nothing in excess" None None))
           (Some (mkQuote "q2" "Know yourself" (Some "Thales") None))
           None None (Some "gpt-4o") None None in
  let clock := fun n : nat => 1000 + Z.of_nat n in
  let first := handleSuggestLogic (fun _ => Throws "Unexpected token")
                 (Some "sk-test")
                 (fun _ => HttpReply 200 (BodyContent "Sorry, no."))
                 clock body (mkWorld ∅ ∅ 0 []) in
  let second := handleSuggestLogic (fun _ => Throws "Unexpected token") None
                  (fun _ => FetchRejects "offline") clock body2 first.2 in
  second.1 = first.1 /\ length (events second.2) = 6%nat.
Proof.
  intros q2 body body2 clock first second.
  destruct (suggest_warm_cache (fun _ => Throws "Unexpected token")
              (Some "sk-test")
              (fun _ => HttpReply 200 (BodyContent "Sorry, no."))
              None (fun _ => FetchRejects "offline")
              (fun _ => Throws "Unexpected token") clock
              body q2 body2
              (mkQuote "q2" "Know yourself" (Some "Thales") None)
              (mkWorld ∅ ∅ 0 [])
              "sk-test" 200 "Sorry, no.") as [_ Hsecond];
    try reflexivity.
  - vm_compute. lia.
  - destruct Hsecond as [Hsame Hevents].
    + vm_compute. lia.
    + vm_compute. discriminate.
    + split; [exact Hsame|]. fold first in Hevents. fold second in Hevents.
      rewrite Hevents. vm_compute. reflexivity.
Defined.

End FlowFacts.

(** ** The platform adapters *)

Module AdapterFacts.

Import Server Adapter.

Section Environment.

Variable ALLOWED_ORIGINS : option string.
Variable decode : string -> outcome request_body.
Variable JSON_parse : string -> outcome json.
Variable OPENAI_API_KEY : option string.
Variable fetch : request -> fetch_reply.
Variable Date_now : nat -> Z.

Local Abbreviation cors := (getCorsHeaders ALLOWED_ORIGINS).
Local Abbreviation netlify :=
  (handleNetlifyRequest ALLOWED_ORIGINS decode JSON_parse OPENAI_API_KEY
                        fetch Date_now).
Local Abbreviation vercel :=
  (handleRequest ALLOWED_ORIGINS decode JSON_parse OPENAI_API_KEY
                 fetch Date_now).



(** The Allow-Origin header is the origin of the request only when that
    origin is in the allow list or the list holds the wildcard; it is the
    wildcard when the request has no origin, and the word "null" otherwise. *)
Theorem cors_origin_policy o :
  let answer := cors o !! "Access-Control-Allow-Origin" in
  match o with
  | None => answer = Some "*"
  | Some origin =>
      if JsString.nonempty origin then
        if bool_decide (origin ∈ allowedOrigins ALLOWED_ORIGINS)
           || bool_decide ("*" ∈ allowedOrigins ALLOWED_ORIGINS)
        then answer = Some origin
        else answer = Some "null"
      else answer = Some "*"
  end.
Proof.
  unfold getCorsHeaders. rewrite lookup_insert_eq.
  destruct o as [origin|]; [|done]. unfold isAllowed. simpl.
  destruct origin as [|c origin]; [done|]. simpl.
  by destruct (_ || _).
Qed.



Lemma cors_first o (extra : gmap string string) k v :
  cors o !! k = Some v -> (cors o ∪ extra) !! k = Some v.
Proof. intros H. by apply lookup_union_Some_l. Qed.


End Environment.

(** A GET on the suggestion end point, on both adapters: the adapter for
    the fetch API refuses it, the Netlify adapter runs the engine. *)
Example get_on_suggest :
  let get := mkHttpRequest "GET" "/api/suggest" None "{}" in
  let decode := fun _ : string =>
    Returns (mkBody None (Some (mkQuote "q2" "Know thyself" None None))
                    None None None None None) in
  let parse := fun _ : string => Throws "Unexpected token" in
  let upstream := fun _ : request => FetchRejects "offline" in
  let clock := fun n : nat => 1000 + Z.of_nat n in
  let w := mkWorld ∅ ∅ 0 [] in
  handleRequest None decode parse None upstream clock get w
  = (Returns (mkHttpResponse 405
                (getCorsHeaders None None ∪ contentType)
                (ErrorBody "Method not allowed")), w)
  /\ rateLimitStore
       (handleNetlifyRequest None decode parse None upstream clock get w).2
       !! "1544803905" = Some [1000].
Proof. split; [reflexivity|vm_compute; reflexivity]. Qed.

End AdapterFacts.

(** ** What the AI client is asked and what is made of its answer *)

Module ParseFacts.

Import JsString Server.







(** The user message of a suggestion asks for JSON in so many words. *)
Lemma user_message_mentions_JSON dash seed suggestion :
  includes "JSON" (suggestionUserMessage dash seed suggestion) = true.
Proof.
  unfold suggestionUserMessage.
  repeat (apply StringFacts.includes_app_r). vm_compute. reflexivity.
Qed.

(** The suggestion flow of the proxy sends nothing but requests in JSON
    mode made of two messages, the first by the system and the second by
    the user: two networks that answer such requests alike give the same
    flow. *)
Theorem suggest_requests_json_mode JSON_parse OPENAI_API_KEY fetch1 fetch2
    Date_now body w
  (Hagree : forall r system user,
      req_json_object r = true ->
      req_messages r = [mkMessage "system" system; mkMessage "user" user] ->
      fetch1 r = fetch2 r) :
  handleSuggestLogic JSON_parse OPENAI_API_KEY fetch1 Date_now body w
  = handleSuggestLogic JSON_parse OPENAI_API_KEY fetch2 Date_now body w.
Proof.
  unfold handleSuggestLogic.
  destruct (suggestion body) as [s|]; [|done].
  destruct (nonempty (text s)); [|done]. simpl.
  unfold mbind at 1 5, Flow_bind at 1 5.
  destruct (checkRateLimit Date_now (getClientId body) w) as [[[]|msg] w1];
    simpl; try done.
  unfold mbind at 1 4, Flow_bind at 1 4.
  destruct (getFromCache Date_now _ w1) as [[cached|msg] w2]; simpl; try done.
  destruct (if_truthy cached); [done|].
  unfold mbind at 1 3, Flow_bind at 1 3.
  assert (E : forall o,
            callOpenAI OPENAI_API_KEY fetch1
              (buildSuggestionPrompt (seed body) s (systemPrompt body)) o w2
            = callOpenAI OPENAI_API_KEY fetch2
              (buildSuggestionPrompt (seed body) s (systemPrompt body)) o w2).
  { intros o. unfold callOpenAI, mbind, Flow_bind, mret, Flow_ret, throw.
    simpl. destruct OPENAI_API_KEY as [apiKey|]; [|done].
    destruct (nonempty apiKey); [|done]. simpl.
    erewrite Hagree;
      [done
      |exact (user_message_mentions_JSON em_dash (seed body) s)
      |reflexivity]. }
  by rewrite E.
Qed.

Lemma suggest_requests_json_mode_witness :
  let body := mkBody None (Some (mkQuote "q2" "Know thyself" None None))
                     None None None None None in
  let parse := fun _ : string => Throws "Unexpected token" in
  let fetch1 := fun _ : request => HttpReply 200 (BodyContent "Sorry, no.") in
  let fetch2 := fun r : request =>
    if req_json_object r && bool_decide (length (req_messages r) = 2%nat)
    then HttpReply 200 (BodyContent "Sorry, no.")
    else FetchRejects "offline" in
  let clock := fun n : nat => 1000 + Z.of_nat n in
  handleSuggestLogic parse (Some "sk-test") fetch1 clock body
                     (mkWorld ∅ ∅ 0 [])
  = handleSuggestLogic parse (Some "sk-test") fetch2 clock body
                       (mkWorld ∅ ∅ 0 []).
Proof.
  intros body parse fetch1 fetch2 clock.
  apply suggest_requests_json_mode.
  intros r system user Hjson Hmsgs. unfold fetch1, fetch2.
  rewrite Hjson, Hmsgs. reflexivity.
Defined.

End ParseFacts.

(** ** More on candidate generation *)

Module CandidateSetFacts.

Import JsString Browser.

(** The seed and a quote share two words of more than three characters,
    counted along the words of the seed. *)
Local Abbreviation shares seed q :=
  (2 <= length (filter (fun word => (3 < String.length word)%nat
                                    /\ word ∈ split_ws (toLowerCase (text q)))
                       (split_ws (toLowerCase (text seed)))))%nat.





Lemma fold_neighbors_NoDup a l c :
  NoDup c -> NoDup (foldl (add_neighbor a) c l).
Proof.
  revert c. induction l as [|n l IH]; intros c Hc; simpl; [done|].
  apply IH. unfold add_neighbor.
  destruct (find_quote n (quotes a)) as [i|]; [|done].
  destruct (quotes a !! i) as [q|]; [|done].
  destruct (negb _); [|done]. by apply CandidateFacts.set_add_NoDup.
Qed.

Lemma fold_lexical_NoDup a seed words l c :
  NoDup c -> NoDup (foldl (add_lexical a seed words) c l).
Proof.
  revert c. induction l as [|[i q] l IH]; intros c Hc; simpl; [done|].
  apply IH. unfold add_lexical.
  destruct (_ || _); [done|]. case_decide; [|done].
  by apply CandidateFacts.set_add_NoDup.
Qed.

Lemma candidate_set_NoDup a seed : NoDup (candidate_set a seed).
Proof.
  unfold candidate_set. apply fold_lexical_NoDup, fold_neighbors_NoDup.
  constructor.
Qed.

Lemma omap_ids_NoDup (quotes : list Quote) (l : list nat) :
  NoDup (id <$> quotes) -> NoDup l ->
  NoDup (id <$> omap (fun i => quotes !! i) l).
Proof.
  intros Hids. induction l as [|i l IH]; intros Hl; simpl; [constructor|].
  apply NoDup_cons in Hl as [Hi Hl].
  destruct (quotes !! i) as [q|] eqn:Hq; simpl; [|by apply IH].
  apply NoDup_cons. split; [|by apply IH].
  intros Hin. apply list_elem_of_fmap in Hin as (q' & Hid & Hin).
  apply list_elem_of_omap in Hin as (j & Hj & Hq').
  assert (i = j) as ->; [|done].
  apply (NoDup_lookup (id <$> quotes) i j (id q)); [done| |].
  - by rewrite list_lookup_fmap, Hq.
  - by rewrite list_lookup_fmap, Hq', Hid.
Qed.

Lemma getCandidates_stored a seed q :
  q ∈ getCandidates a seed -> q ∈ quotes a.
Proof.
  unfold getCandidates. intros Hq.
  apply list_elem_of_omap in Hq as (j & _ & Hj).
  by apply list_elem_of_lookup_2 in Hj.
Qed.

(** In a library whose quotes have distinct ids, no two candidates of a
    seed have the same id, and there are no more candidates than quotes
    that are not recent picks. *)
Theorem candidates_distinct a seed
  (Hids : NoDup (id <$> quotes a)) :
  NoDup (id <$> getCandidates a seed)
  /\ (length (getCandidates a seed)
      <= length (filter (fun q => id q ∉ recentPicks a) (quotes a)))%nat.
Proof.
  assert (Hnd : NoDup (id <$> getCandidates a seed)).
  { apply omap_ids_NoDup; [done|apply candidate_set_NoDup]. }
  split; [done|].
  assert (Hq : NoDup (getCandidates a seed)).
  { by apply (NoDup_fmap_1 id). }
  apply submseteq_length, NoDup_submseteq; [done|].
  intros q Hin. apply list_elem_of_filter. split.
  - by apply CandidateFacts.getCandidates_not_recent in Hin.
  - by apply getCandidates_stored in Hin.
Qed.

Lemma candidates_distinct_witness :
  let q1 := mkQuote "q1" "the unexamined life is not worth living"
                    (Some "Socrates") None in
  let q2 := mkQuote "q2" "a life worth living is examined" None None in
  let q3 := mkQuote "q3" "know thyself" None None in
  let a := mkApp [q1; q2; q3] {[ "q1" := ["q2"; "q3"; "q2"] ]} []
                 (mkSettings "gpt-4o-mini" (7 # 10) 150 EmptyString "prompt")
                 ∅ None ["q3"] [] in
  NoDup (id <$> getCandidates a q1)
  /\ (length (getCandidates a q1) <= 2)%nat.
Proof.
  intros q1 q2 q3 a.
  apply (candidates_distinct a q1).
  apply (bool_decide_unpack _). vm_compute. reflexivity.
Defined.

End CandidateSetFacts.

(** ** More on ranking *)

Module RankingFacts.

Import JsString Browser.

Lemma scored_quotes a Math_random candidates seed :
  map fst (scored a Math_random candidates seed) = candidates.
Proof.
  unfold scored. generalize Math_random.
  induction candidates as [|c l IH]; intros rnd; simpl; [done|].
  f_equal. apply (IH (fun k => rnd (S k))).
Qed.

Lemma rank_permutation a Math_random candidates seed :
  rankCandidates a Math_random candidates seed ≡ₚ candidates.
Proof.
  unfold rankCandidates.
  rewrite <- (scored_quotes a Math_random candidates seed) at 2.
  apply fmap_Permutation, RankFacts.sort_desc_perm.
Qed.

Lemma rank_head_best a Math_random candidates seed best rest :
  rankCandidates a Math_random candidates seed = best :: rest ->
  exists k, candidates !! k = Some best
    /\ forall j c, candidates !! j = Some c ->
         (score a seed c (Math_random j)
          <= score a seed best (Math_random k))%Q.
Proof.
  unfold rankCandidates.
  pose proof (RankFacts.sort_desc_perm
                (scored a Math_random candidates seed)) as Hperm.
  pose proof (RankFacts.sort_desc_sorted
                (scored a Math_random candidates seed)) as Hsorted.
  destruct (sort_desc (scored a Math_random candidates seed))
    as [|[best' s] ranked] eqn:E; simpl; [done|].
  intros [= -> _].
  assert (Hin : (best, s) ∈ scored a Math_random candidates seed).
  { rewrite <- Hperm. apply list_elem_of_here. }
  apply elem_of_lookup_imap in Hin as (k & c & [= <- ->] & Hk).
  exists k. split; [done|]. intros j c Hj.
  assert (Hc : (c, score a seed c (Math_random j))
               ∈ scored a Math_random candidates seed).
  { apply elem_of_lookup_imap. by exists j, c. }
  rewrite <- Hperm in Hc. apply elem_of_cons in Hc as [Heq|Hc].
  - pose proof (f_equal snd Heq) as Hs. cbn [snd] in Hs.
    rewrite Hs. apply Qle_refl.
  - apply StronglySorted_inv in Hsorted as [_ Hhd].
    apply (proj1 (Forall_forall _ _) Hhd) in Hc. exact Hc.
Qed.

(** Ranking neither drops nor adds a candidate, and the quote it puts
    first has a score that no other candidate exceeds, each candidate
    being scored with the random draw of its position. *)
Theorem rank_best_first a Math_random candidates seed :
  let ranked := rankCandidates a Math_random candidates seed in
  ranked ≡ₚ candidates
  /\ match ranked with
     | [] => candidates = []
     | best :: _ =>
         exists k, candidates !! k = Some best
           /\ forall j c, candidates !! j = Some c ->
                (score a seed c (Math_random j)
                 <= score a seed best (Math_random k))%Q
     end.
Proof.
  intros ranked. subst ranked.
  pose proof (rank_permutation a Math_random candidates seed) as Hperm.
  split; [done|].
  destruct (rankCandidates a Math_random candidates seed)
    as [|best rest] eqn:E.
  - by apply Permutation_nil_l in Hperm.
  - by apply (rank_head_best a Math_random candidates seed best rest).
Qed.

End RankingFacts.

(** ** The range of the score *)

Module ScoreFacts.

Import JsString Browser.



Lemma Qnat_pos n : (0 < n)%nat -> (0 < Qnat n)%Q.
Proof.
  intros H. unfold Qnat. change 0%Q with (inject_Z 0).
  rewrite <- Zlt_Qlt. lia.
Qed.







End ScoreFacts.

(** ** What a call for a rationale sends *)

Module RequestFacts.

Import JsString Browser.

(** A call for a rationale either leaves the application as it was, or
    sends one request: the one built from the settings, the seed and the
    suggestion. It sends one only on a miss of the cache with a key of the
    form sk-..., and then either leaves the cache as it was or stores the
    rationale it returns under the key of the suggestion. *)
Theorem rationale_sends_at_most_once JSON_parse fetch a seed suggestion :
  let run := getAIRationale JSON_parse fetch seed suggestion a in
  run.2 = a
  \/ (sent run.2 = (sent a ++ [requestBody a seed suggestion])%list
      /\ cache a !! cacheKey_of a suggestion = None
      /\ startsWith "sk-" (openaiApiKey (settings a)) = true
      /\ (cache run.2 = cache a
          \/ exists r, run.1 = Returns r
               /\ cache run.2 = <[cacheKey_of a suggestion := r]> (cache a))).
Proof.
  intros run. subst run.
  destruct (cache a !! cacheKey_of a suggestion) as [r|] eqn:Hc.
  { left. by rewrite (RationaleFacts.explain_cached _ _ _ _ _ r). }
  destruct (nonempty (openaiApiKey (settings a))) eqn:Hk;
    [destruct (startsWith "sk-" (openaiApiKey (settings a))) eqn:Hs|].
  - right. rewrite RationaleFacts.explain_requested by done.
    destruct (RationaleFacts.request_cases JSON_parse fetch a seed suggestion
                (cacheKey_of a suggestion)) as [[msg E]|[r E]];
      rewrite E; simpl.
    + repeat split; try done. by left.
    + repeat split; try done. right. by exists r.
  - left. unfold getAIRationale, mbind, Flow_bind, read, mret, Flow_ret.
    by rewrite Hc, Hk, Hs.
  - left. unfold getAIRationale, mbind, Flow_bind, read, mret, Flow_ret.
    by rewrite Hc, Hk.
Qed.

(** Without a key of the form sk-... the application sends nothing: the
    call returns the cached rationale of the suggestion if there is one and
    the invitation to add a key otherwise, and changes nothing. *)
Theorem no_key_no_request JSON_parse fetch a seed suggestion
  (Hkey : startsWith "sk-" (openaiApiKey (settings a)) = false) :
  getAIRationale JSON_parse fetch seed suggestion a
  = (Returns (default noKeyRationale (cache a !! cacheKey_of a suggestion)),
     a).
Proof.
  unfold getAIRationale, mbind, Flow_bind, read, mret, Flow_ret.
  destruct (cache a !! cacheKey_of a suggestion) as [r|]; [done|].
  rewrite Hkey. simpl. by rewrite orb_true_r.
Qed.

Lemma no_key_no_request_witness :
  let a := mkApp [] ∅ []
             (mkSettings "gpt-4o-mini" (7 # 10) 150 "key-123" "Be brief.")
             ∅ None [] [] in
  let q := mkQuote "q2" "Know thyself" None None in
  getAIRationale (fun _ => Throws "Unexpected token")
                 (fun _ => HttpReply 200 (BodyContent "{}")) None q a
  = (Returns noKeyRationale, a).
Proof.
  intros a q.
  apply (no_key_no_request _ _ a None q). reflexivity.
Defined.

End RequestFacts.

(** ** Search, seed and suggestion *)

Module ExplorerFacts.

Import JsString Browser Explorer.

(** A word counts when it occurs in the text, the title or the author. *)
Local Abbreviation hits text title author :=
  (fun word : string =>
     includes word text || includes word title || includes word author
     = true).

Lemma word_score_step text title author score word :
  score <= word_score text title author score word <= score + 4
  /\ (score < word_score text title author score word
      <-> hits text title author word).
Proof.
  unfold word_score.
  destruct (includes word text), (includes word title),
    (includes word author); simpl; split; try lia;
    split; try done; lia.
Qed.

Lemma word_scores text title author words score :
  score <= foldl (word_score text title author) score words
        <= score + 4 * Z.of_nat (length words)
  /\ (score < foldl (word_score text title author) score words
      <-> exists word, word ∈ words /\ hits text title author word).
Proof.
  revert score. induction words as [|w words IH]; intros score; simpl.
  - split; [lia|]. split; [lia|]. intros (word & H & _).
    by apply elem_of_nil in H.
  - destruct (IH (word_score text title author score w)) as [Hb Hi].
    destruct (word_score_step text title author score w) as [Sb Si].
    split; [lia|]. split.
    + intros Hlt.
      destruct (decide (score < word_score text title author score w))
        as [Hw|Hw].
      * exists w. split; [apply list_elem_of_here|by apply Si].
      * assert (word_score text title author score w = score) as E by lia.
        rewrite E in Hi. destruct (proj1 Hi) as (word & Hin & Hh).
        { by rewrite E in Hlt. }
        exists word. split; [by apply list_elem_of_further|done].
    + intros (word & Hin & Hh). apply elem_of_cons in Hin as [->|Hin].
      * apply Si in Hh. lia.
      * assert (word_score text title author score w
                < foldl (word_score text title author)
                        (word_score text title author score w) words).
        { apply Hi. by exists word. }
        lia.
Qed.

(** The search returns exactly the quotes of the library with a positive
    score, in the order of their scores, the highest first. The score of a
    quote is positive exactly when the text holds the query in lower case
    or one of its words occurs in the text, the title or the author, all
    in lower case; it is at most 10 plus 4 for each word. *)
Theorem search_results a query :
  let queryLower := toLowerCase query in
  let words := split_ws queryLower in
  let relevance := search_score queryLower words in
  (forall q, q ∈ searchQuotes a query <-> q ∈ quotes a /\ 0 < relevance q)
  /\ StronglySorted (fun x y => relevance y <= relevance x)
                    (searchQuotes a query)
  /\ (forall q,
        (0 < relevance q <->
         includes queryLower (toLowerCase (text q)) = true
         \/ exists word, word ∈ words
              /\ hits (toLowerCase (text q))
                      (toLowerCase (or_default (book_title q) EmptyString))
                      (toLowerCase (or_default (author q) EmptyString))
                      word)
        /\ 0 <= relevance q <= 10 + 4 * Z.of_nat (length words)).
Proof.
  intros queryLower words relevance. unfold searchQuotes.
  fold queryLower. fold words. fold relevance.
  set (items := filter (fun item : Quote * Z => 0 < item.2)
                       (map (fun quote => (quote, relevance quote))
                            (quotes a))).
  set (keyed := map (fun item : Quote * Z => (item.1, inject_Z item.2))
                    items).
  assert (Hkeyed : forall x, x ∈ sort_desc keyed ->
                     snd x = inject_Z (relevance (fst x))
                     /\ fst x ∈ quotes a /\ 0 < relevance (fst x)).
  { intros x Hx. rewrite (RankFacts.sort_desc_perm keyed) in Hx.
    apply list_elem_of_fmap in Hx as ([q s] & -> & Hin).
    apply list_elem_of_filter in Hin as [Hpos Hin].
    apply list_elem_of_fmap in Hin as (q' & [= -> ->] & Hin). done. }
  split; [|split].
  - intros q. split.
    + intros Hq. apply list_elem_of_fmap in Hq as (x & -> & Hx).
      by apply Hkeyed in Hx as (_ & ? & ?).
    + intros [Hin Hpos]. apply list_elem_of_fmap.
      exists (q, inject_Z (relevance q)). split; [done|].
      rewrite (RankFacts.sort_desc_perm keyed).
      apply list_elem_of_fmap. exists (q, relevance q). split; [done|].
      apply list_elem_of_filter. split; [done|].
      apply list_elem_of_fmap. by exists q.
  - pose proof (RankFacts.sort_desc_sorted keyed) as Hsorted.
    revert Hkeyed Hsorted. generalize (sort_desc keyed). intros l Hl Hs.
    induction Hs as [|x l Hs IH Hhd]; simpl; [constructor|].
    constructor.
    + apply IH. intros y Hy. apply Hl. by apply list_elem_of_further.
    + apply Forall_fmap, Forall_forall. intros y Hy. simpl.
      apply (proj1 (Forall_forall _ _) Hhd) in Hy as Hle.
      destruct (Hl x (list_elem_of_here _ _)) as (Ex & _).
      destruct (Hl y (list_elem_of_further _ _ _ Hy)) as (Ey & _).
      rewrite Ex, Ey in Hle. by rewrite <- Zle_Qle in Hle.
  - intros q. unfold relevance, search_score.
    set (t := toLowerCase (text q)).
    set (ti := toLowerCase (or_default (book_title q) EmptyString)).
    set (au := toLowerCase (or_default (author q) EmptyString)).
    destruct (includes queryLower t) eqn:Hphrase.
    + destruct (word_scores t ti au words (0 + 10)) as [Hb _].
      split; [|lia]. split; [by left|lia].
    + destruct (word_scores t ti au words 0) as [Hb Hi].
      split; [|lia]. rewrite Hi. split; [by right|].
      by intros [|].
Qed.

Lemma floor_index_bounds rnd n :
  (0 <= rnd)%Q -> (rnd < 1)%Q -> (0 < n)%nat ->
  0 <= Qfloor (rnd * Qnat n) < Z.of_nat n.
Proof.
  intros Hlow Hhigh Hn.
  pose proof (ScoreFacts.Qnat_pos n Hn) as Hpos.
  split.
  - change 0 with (Qfloor 0%Q). apply Qfloor_resp_le.
    apply Qmult_le_0_compat; [done|]. by apply Qlt_le_weak.
  - rewrite Zlt_Qlt.
    apply (Qle_lt_trans _ (rnd * Qnat n)); [apply Qfloor_le|].
    fold (Qnat n).
    apply (Qlt_le_trans _ (1 * Qnat n)); [by apply Qmult_lt_compat_r|lra].
Qed.

Lemma at_index_Some {A} (l : list A) i :
  0 <= i < Z.of_nat (length l) -> exists x, at_index l i = Some x /\ x ∈ l.
Proof.
  intros Hi. unfold at_index.
  destruct (Z.ltb_spec i 0) as [|_]; [lia|].
  destruct (lookup_lt_is_Some_2 l (Z.to_nat i)) as [x Hx]; [lia|].
  exists x. split; [done|]. by apply list_elem_of_lookup_2 in Hx.
Qed.

(** With a random draw in [0, 1), the random quote is a quote of the
    library; there is none only when the library is empty; and it is not a
    recent pick as long as some quote of the library is not. *)
Theorem random_quote_is_fresh a rnd
  (Hlow : (0 <= rnd)%Q) (Hhigh : (rnd < 1)%Q) :
  match getRandomQuote a rnd with
  | None => quotes a = []
  | Some q =>
      q ∈ quotes a
      /\ ((exists q', q' ∈ quotes a /\ id q' ∉ recentPicks a) ->
          id q ∉ recentPicks a)
  end.
Proof.
  unfold getRandomQuote.
  case_decide as Hlen; [by destruct (quotes a)|].
  set (available := filter (fun q => id q ∉ recentPicks a) (quotes a)).
  case_decide as Hav.
  - destruct (at_index_Some available
                (Qfloor (rnd * Qnat (length available)))) as (q & -> & Hq).
    { by apply floor_index_bounds. }
    apply list_elem_of_filter in Hq as [Hfresh Hq]. done.
  - destruct (at_index_Some (quotes a)
                (Qfloor (rnd * Qnat (length (quotes a))))) as (q & -> & Hq).
    { apply floor_index_bounds; [done|done|lia]. }
    split; [done|]. intros (q' & Hq' & Hfresh). exfalso.
    assert (Hin : q' ∈ available) by by apply list_elem_of_filter.
    destruct available; [by apply elem_of_nil in Hin|simpl in Hav; lia].
Qed.

Lemma random_quote_is_fresh_witness :
  let q1 := mkQuote "q1" "Know thyself" None None in
  let q2 := mkQuote "q2" "Nothing in excess" None None in
  let a := mkApp [q1; q2] ∅ []
                 (mkSettings "gpt-4o-mini" (7 # 10) 150 EmptyString "prompt")
                 ∅ None ["q1"] [] in
  match getRandomQuote a (1 # 4) with
  | None => [q1; q2] = []
  | Some q =>
      q ∈ [q1; q2]
      /\ ((exists q', q' ∈ [q1; q2] /\ id q' ∉ ["q1"]) -> id q ∉ ["q1"])
  end.
Proof.
  intros q1 q2 a.
  apply (random_quote_is_fresh a (1 # 4)); unfold Qle, Qlt; simpl; lia.
Defined.

Section Environment.

Variable JSON_parse : string -> outcome json.
Variable fetch : request -> fetch_reply.

Local Abbreviation suggest := (getSuggestion JSON_parse fetch).
Local Abbreviation explain := (getAIRationale JSON_parse fetch).

Local Abbreviation chosen a seedQuote rnd :=
  (or_quote seedQuote
            (or_quote (getLastPathQuote a) (getRandomQuote a rnd))).

Lemma suggest_no_seed a seedQuote rnd Math_random :
  chosen a seedQuote rnd = None ->
  suggest seedQuote rnd Math_random a
  = (Returns (Some "Please upload your Kindle highlights first."), a).
Proof.
  intros E. unfold getSuggestion, try_catch, mbind, Flow_bind, read.
  by rewrite E.
Qed.

Lemma suggest_no_candidate a seedQuote rnd Math_random seed :
  chosen a seedQuote rnd = Some seed ->
  getCandidates a seed = [] ->
  suggest seedQuote rnd Math_random a
  = (Returns (Some "No more suggestions available."), a).
Proof.
  intros E Hc. unfold getSuggestion, try_catch, mbind, Flow_bind, read.
  by rewrite E, Hc.
Qed.

Lemma suggest_shown a seedQuote rnd Math_random seed :
  chosen a seedQuote rnd = Some seed ->
  getCandidates a seed <> [] ->
  exists best rest r,
    rankCandidates a Math_random (getCandidates a seed) seed = best :: rest
    /\ (explain (Some seed) best a).1 = Returns r
    /\ suggest seedQuote rnd Math_random a
       = (Returns None,
          setCurrentSuggestion (mkSuggestion best seed r)
                               (explain (Some seed) best a).2).
Proof.
  intros E Hc.
  pose proof (RankingFacts.rank_permutation a Math_random
                (getCandidates a seed) seed) as Hperm.
  destruct (rankCandidates a Math_random (getCandidates a seed) seed)
    as [|best rest] eqn:Hrank.
  { by apply Permutation_nil_l in Hperm. }
  destruct (RationaleFacts.explain_returns JSON_parse fetch a (Some seed) best)
    as [r Hr].
  exists best, rest, r. split; [done|]. split; [done|].
  unfold getSuggestion, try_catch, mbind, Flow_bind, read.
  rewrite E. case_decide as Hlen; [by destruct (getCandidates a seed)|].
  rewrite Hrank. simpl.
  destruct (explain (Some seed) best a) as [[r'|msg] a'] eqn:Hrun;
    simpl in Hr; [|done].
  by injection Hr as ->.
Qed.

(** The three ways in which a call for a suggestion ends. *)
Lemma suggest_cases a seedQuote rnd Math_random :
  let run := suggest seedQuote rnd Math_random a in
  (chosen a seedQuote rnd = None
   /\ run = (Returns (Some "Please upload your Kindle highlights first."), a))
  \/ (exists seed,
        chosen a seedQuote rnd = Some seed
        /\ getCandidates a seed = []
        /\ run = (Returns (Some "No more suggestions available."), a))
  \/ (exists seed best rest r,
        chosen a seedQuote rnd = Some seed
        /\ getCandidates a seed <> []
        /\ rankCandidates a Math_random (getCandidates a seed) seed
           = best :: rest
        /\ (explain (Some seed) best a).1 = Returns r
        /\ run = (Returns None,
                  setCurrentSuggestion (mkSuggestion best seed r)
                                       (explain (Some seed) best a).2)).
Proof.
  intros run. subst run.
  destruct (chosen a seedQuote rnd) as [seed|] eqn:E.
  2:{ left. split; [done|]. by apply suggest_no_seed. }
  destruct (decide (getCandidates a seed = [])) as [Hc|Hc].
  { right. left. exists seed. split; [done|]. split; [done|].
    by apply (suggest_no_candidate _ _ _ _ seed). }
  destruct (suggest_shown a seedQuote rnd Math_random seed E Hc)
    as (best & rest & r & Hrank & Hr & Hrun).
  right. right. by exists seed, best, rest, r.
Qed.


Lemma accept_recent a current :
  currentSuggestion a = Some current ->
  (length (recentPicks a) <= 20)%nat -> NoDup (recentPicks a) ->
  id (quote current) ∈ recentPicks (acceptSuggestion a).
Proof.
  intros Hcur Hlen Hnd.
  rewrite (RecencyFacts.acceptSuggestion_recent a current) by done.
  simpl.
  pose proof (CandidateFacts.set_add_NoDup (id (quote current)) _ Hnd) as Hn.
  assert (Hin : id (quote current)
                ∈ set_add (id (quote current)) (recentPicks a)).
  { apply CandidateFacts.elem_of_set_add. by left. }
  case_decide as Hbig; [|done].
  unfold set_add in *.
  destruct (set_has (id (quote current)) (recentPicks a)); [lia|].
  destruct (recentPicks a) as [|oldest rest] eqn:Hr; [simpl in Hbig; lia|].
  simpl. apply elem_of_app. right. apply list_elem_of_here.
Qed.

(** After a suggestion is accepted in a state whose recent picks are at
    most 20 and distinct, the suggestion that follows by itself starts
    from the accepted quote, which is the last of the path, and never
    proposes a quote with the id of the accepted one. *)
Theorem accepted_quote_is_not_suggested_next a current rnd Math_random
  (Hcur : currentSuggestion a = Some current)
  (Hlen : (length (recentPicks a) <= 20)%nat)
  (Hnd : NoDup (recentPicks a)) :
  let accepted := acceptSuggestion a in
  let run := suggest None rnd Math_random accepted in
  path accepted = (path a ++ [quote current])%list
  /\ id (quote current) ∈ recentPicks accepted
  /\ (forall seed, quote current ∉ getCandidates accepted seed)
  /\ (run.1 = Returns None ->
      exists s, currentSuggestion run.2 = Some s
        /\ seed s = quote current
        /\ id (quote s) <> id (quote current)).
Proof.
  intros accepted run.
  assert (Hpath : path accepted = (path a ++ [quote current])%list).
  { unfold accepted, acceptSuggestion. by rewrite Hcur. }
  assert (Hrecent : id (quote current) ∈ recentPicks accepted)
    by by apply accept_recent.
  split; [done|]. split; [done|]. split.
  { intros seed Hin. by apply CandidateFacts.getCandidates_not_recent in Hin. }
  subst run.
  destruct (suggest_cases accepted None rnd Math_random)
    as [[_ ->]|[(seed & _ & _ & ->)
               |(seed & best & rest & r & Hseed & _ & Hrank & _ & ->)]];
    simpl; [done|done|].
  intros _. exists (mkSuggestion best seed r). split; [done|]. simpl.
  unfold getLastPathQuote in Hseed. rewrite Hpath, last_snoc in Hseed.
  simpl in Hseed. injection Hseed as <-. split; [done|].
  assert (Hin : best ∈ getCandidates accepted (quote current)).
  { rewrite <- (RankingFacts.rank_permutation accepted Math_random), Hrank.
    apply list_elem_of_here. }
  apply CandidateFacts.getCandidates_not_recent in Hin.
  intros E. by rewrite E in Hin.
Qed.

End Environment.

Lemma accepted_quote_is_not_suggested_next_witness :
  let q1 := mkQuote "q1" "the unexamined life is not worth living"
                    (Some "Socrates") None in
  let q2 := mkQuote "q2" "a life worth living is examined" None None in
  let q3 := mkQuote "q3" "is living a life worth it" None None in
  let a := mkApp [q1; q2; q3] {[ "q2" := ["q1"; "q2"] ]} [q1]
             (mkSettings "gpt-4o-mini" (7 # 10) 150 EmptyString "prompt")
             ∅ (Some (mkSuggestion q2 q1 noKeyRationale)) ["q1"] [] in
  let run := getSuggestion (fun _ => Throws "Unexpected token")
               (fun _ => FetchRejects "offline") None 0 (fun _ => 0%Q)
               (acceptSuggestion a) in
  path (acceptSuggestion a) = [q1; q2]
  /\ "q2" ∈ recentPicks (acceptSuggestion a)
  /\ (forall seed, q2 ∉ getCandidates (acceptSuggestion a) seed)
  /\ (run.1 = Returns None ->
      exists s, currentSuggestion run.2 = Some s
        /\ seed s = q2 /\ id (quote s) <> "q2").
Proof.
  intros q1 q2 q3 a run.
  apply (accepted_quote_is_not_suggested_next
           (fun _ => Throws "Unexpected token")
           (fun _ => FetchRejects "offline")
           a (mkSuggestion q2 q1 noKeyRationale) 0 (fun _ => 0%Q)).
  - reflexivity.
  - simpl. lia.
  - apply (bool_decide_unpack _). vm_compute. reflexivity.
Defined.

End ExplorerFacts.

(** ** The cache of the narration flow *)

Module RouteFlowFacts.

Import Server.

Section Environment.

Variable OPENAI_API_KEY : option string.
Variable fetch : request -> fetch_reply.
Variable Date_now : nat -> Z.

Local Abbreviation handleRoute :=
  (handleRouteLogic OPENAI_API_KEY fetch Date_now).

Lemma handleRoute_run body quotes w :
  path body = Some quotes -> quotes <> [] ->
  let clientId := getClientId body in
  let pathIds := JsString.join "-" (map id quotes) in
  let cacheKey := getCacheKey "route" pathIds (systemPrompt body) in
  let prompt := buildRoutePrompt quotes (systemPrompt body) in
  let options :=
    {| opt_model := JsString.or_default (model body) DEFAULT_MODEL;
       opt_temperature := Q_or (temperature body) DEFAULT_TEMPERATURE;
       opt_max_tokens := (fun n => n * 2) <$> maxTokens body |} in
  handleRoute body w =
  match checkRateLimit Date_now clientId w with
  | (Returns true, w1) =>
      match getFromCache Date_now cacheKey w1 with
      | (Returns cached, w2) =>
          match if_truthy cached with
          | Some v => (Returns (mkRoute (JsString.split "-" pathIds) v), w2)
          | None =>
              match callOpenAI OPENAI_API_KEY fetch prompt options w2 with
              | (Returns aiResponse, w3) =>
                  (Returns (mkRoute (JsString.split "-" pathIds)
                                    (VText aiResponse)),
                   (setCache Date_now cacheKey (VText aiResponse) w3).2)
              | (Throws msg, w3) => (Throws msg, w3)
              end
          end
      | (Throws msg, w2) => (Throws msg, w2)
      end
  | (Returns false, w1) => (Throws "Rate limit exceeded", w1)
  | (Throws msg, w1) => (Throws msg, w1)
  end.
Proof.
  intros Hp Hne clientId pathIds cacheKey prompt options.
  unfold handleRouteLogic. rewrite Hp.
  destruct quotes as [|q quotes]; [done|].
  fold clientId pathIds cacheKey prompt options.
  unfold mbind at 1, Flow_bind at 1.
  destruct (checkRateLimit Date_now clientId w) as [[[]|msg] w1]; simpl;
    try done.
  unfold mbind at 1, Flow_bind at 1.
  destruct (getFromCache Date_now cacheKey w1) as [[cached|msg] w2]; simpl;
    try done.
  destruct (if_truthy cached) as [v|]; [done|].
  unfold mbind at 1, Flow_bind at 1.
  destruct (callOpenAI OPENAI_API_KEY fetch prompt options w2)
    as [[aiResponse|msg] w3]; simpl; try done.
Qed.

(** A miss answered by the AI client, in closed form. *)
Lemma route_miss_answered body quotes w apiKey status c :
  path body = Some quotes -> quotes <> [] ->
  (length (live (Date_now (reads w) - RATE_LIMIT_WINDOW)
                (default [] (rateLimitStore w !! getClientId body)))
   < RATE_LIMIT_MAX_REQUESTS)%nat ->
  responseCache w
    !! getCacheKey "route" (JsString.join "-" (map id quotes))
                   (systemPrompt body) = None ->
  OPENAI_API_KEY = Some apiKey -> JsString.nonempty apiKey = true ->
  (forall r, fetch r = HttpReply status (BodyContent c)) ->
  response_ok status = true ->
  let clientId := getClientId body in
  let pathIds := JsString.join "-" (map id quotes) in
  let cacheKey := getCacheKey "route" pathIds (systemPrompt body) in
  handleRoute body w =
  (Returns (mkRoute (JsString.split "-" pathIds) (VText c)),
   mkWorld
     (<[clientId := (live (Date_now (reads w) - RATE_LIMIT_WINDOW)
                          (default [] (rateLimitStore w !! clientId))
                     ++ [Date_now (reads w)])%list]>
        (clean_old_entries (Date_now (reads w) - RATE_LIMIT_WINDOW)
                           (rateLimitStore w)))
     (<[cacheKey := mkEntry (VText c) (Date_now (S (reads w)) + CACHE_TTL)]>
        (responseCache w))
     (S (S (reads w)))
     (events w ++ [RateLimitChecked clientId; CacheRead cacheKey;
                   AICalled (buildRoutePrompt quotes (systemPrompt body));
                   CacheWritten cacheKey])).
Proof.
  intros Hp Hq Hroom Hmiss Hkey Hne Hfetch Hok clientId pathIds cacheKey.
  subst clientId pathIds cacheKey.
  rewrite (handleRoute_run body quotes w Hp Hq).
  rewrite RateLimitFacts.checkRateLimit_run.
  case_decide; [lia|].
  set (w1 := mkWorld _ _ _ _).
  rewrite (CacheFacts.getFromCache_miss Date_now _ w1 Hmiss). simpl.
  match goal with |- context [callOpenAI _ _ ?p ?o ?w2] =>
    pose proof (FlowFacts.callOpenAI_succeeds OPENAI_API_KEY fetch p _ o w2
                  apiKey status c Hkey Hne eq_refl Hfetch Hok) as Hres;
    pose proof (SuggestFacts.callOpenAI_world OPENAI_API_KEY fetch p o w2) as Hw;
    destruct (callOpenAI OPENAI_API_KEY fetch p o w2) as [res w3]
  end.
  simpl in Hres, Hw. subst res w3. simpl.
  by rewrite <- !app_assoc.
Qed.

(** A hit, in closed form. *)
Lemma route_hit body quotes entry w :
  path body = Some quotes -> quotes <> [] ->
  (length (live (Date_now (reads w) - RATE_LIMIT_WINDOW)
                (default [] (rateLimitStore w !! getClientId body)))
   < RATE_LIMIT_MAX_REQUESTS)%nat ->
  responseCache w
    !! getCacheKey "route" (JsString.join "-" (map id quotes))
                   (systemPrompt body) = Some entry ->
  truthy (data entry) = true ->
  Date_now (S (reads w)) <= expires entry ->
  (handleRoute body w).1
  = Returns (mkRoute (JsString.split "-" (JsString.join "-" (map id quotes)))
                     (data entry))
  /\ events (handleRoute body w).2
     = (events w
        ++ [RateLimitChecked (getClientId body);
            CacheRead (getCacheKey "route"
                         (JsString.join "-" (map id quotes))
                         (systemPrompt body))])%list.
Proof.
  intros Hp Hq Hroom Hentry Htruthy Hfresh.
  rewrite (handleRoute_run body quotes w Hp Hq).
  rewrite RateLimitFacts.checkRateLimit_run. case_decide; [lia|].
  set (w1 := mkWorld _ _ _ _).
  rewrite (CacheFacts.getFromCache_run Date_now _ entry w1 Hentry).
  destruct (Z.ltb_spec (expires entry) (Date_now (reads w1)));
    [simpl in *; lia|].
  simpl. rewrite Htruthy. simpl. split; [done|]. by rewrite <- app_assoc.
Qed.

End Environment.

(** The narration of a path is cached under the ids of the path joined by
    dashes and the system prompt, and under nothing else: a narration that
    the AI client gave, if it is not the empty string, is returned to a
    later request whose ids give the same joined string under the same
    system prompt, whatever its quotes say and however its ids are cut, if
    the limiter allows that request and its cache read is made within one
    hour of the write; the AI client is not called for it. *)
Theorem route_narration_cached_by_ids key1 fetch1 key2 fetch2 Date_now
    body quotes body2 quotes2 w apiKey status c
  (Hp : path body = Some quotes) (Hq : quotes <> [])
  (Hroom : (length (live (Date_now (reads w) - RATE_LIMIT_WINDOW)
                         (default [] (rateLimitStore w !! getClientId body)))
            < RATE_LIMIT_MAX_REQUESTS)%nat)
  (Hmiss : responseCache w
             !! getCacheKey "route" (JsString.join "-" (map id quotes))
                            (systemPrompt body) = None)
  (Hkey : key1 = Some apiKey) (Hne : JsString.nonempty apiKey = true)
  (Hfetch : forall r, fetch1 r = HttpReply status (BodyContent c))
  (Hok : response_ok status = true)
  (Hc : JsString.nonempty c = true)
  (Hp2 : path body2 = Some quotes2) (Hq2 : quotes2 <> [])
  (Hids : JsString.join "-" (map id quotes2)
          = JsString.join "-" (map id quotes))
  (Hprompt : systemPrompt body2 = systemPrompt body) :
  let first := handleRouteLogic key1 fetch1 Date_now body w in
  let second := handleRouteLogic key2 fetch2 Date_now body2 first.2 in
  first.1
  = Returns (mkRoute (JsString.split "-" (JsString.join "-" (map id quotes)))
                     (VText c))
  /\ ((length (live (Date_now (S (S (reads w))) - RATE_LIMIT_WINDOW)
                    (default [] (rateLimitStore first.2 !! getClientId body)))
       < RATE_LIMIT_MAX_REQUESTS)%nat ->
      Date_now (S (S (S (reads w)))) <= Date_now (S (reads w)) + CACHE_TTL ->
      second.1 = first.1
      /\ events second.2
         = (events first.2
            ++ [RateLimitChecked (getClientId body);
                CacheRead (getCacheKey "route"
                             (JsString.join "-" (map id quotes))
                             (systemPrompt body))])%list).
Proof.
  intros first second. subst second first.
  rewrite (route_miss_answered key1 fetch1 Date_now body quotes w
             apiKey status c) by done.
  simpl. split; [done|]. intros Hroom2 Hfresh.
  set (w1 := mkWorld _ _ _ _) in *.
  assert (Hclient : getClientId body2 = getClientId body).
  { unfold getClientId. by rewrite Hprompt. }
  pose proof (route_hit key2 fetch2 Date_now body2 quotes2
                (mkEntry (VText c) (Date_now (S (reads w)) + CACHE_TTL)) w1
                Hp2 Hq2) as Hhit.
  rewrite Hclient, Hids, Hprompt in Hhit.
  apply Hhit; try done.
  unfold w1. simpl. apply lookup_insert_eq.
Qed.

Lemma route_narration_cached_by_ids_witness :
  let body :=
    mkBody None None
      (Some [mkQuote "a-1" "Know thyself" None None;
             mkQuote "b" "Nothing in excess" None None])
      None None None None in
  let body2 :=
    mkBody None None
      (Some [mkQuote "a" "The only true wisdom" None None;
             mkQuote "1-b" "Wonder is the beginning" None None])
      None None None None in
  let clock := fun n : nat => 1000 + Z.of_nat n in
  let first := handleRouteLogic (Some "sk-test")
                 (fun _ => HttpReply 200 (BodyContent "A walk."))
                 clock body (mkWorld ∅ ∅ 0 []) in
  let second := handleRouteLogic None (fun _ => FetchRejects "offline")
                  clock body2 first.2 in
  second.1 = Returns (mkRoute ["a"; "1"; "b"] (VText "A walk."))
  /\ length (events second.2) = 6%nat.
Proof.
  intros body body2 clock first second.
  destruct (route_narration_cached_by_ids (Some "sk-test")
              (fun _ => HttpReply 200 (BodyContent "A walk."))
              None (fun _ => FetchRejects "offline") clock
              body
              [mkQuote "a-1" "Know thyself" None None;
               mkQuote "b" "Nothing in excess" None None]
              body2
              [mkQuote "a" "The only true wisdom" None None;
               mkQuote "1-b" "Wonder is the beginning" None None]
              (mkWorld ∅ ∅ 0 [])
              "sk-test" 200 "A walk.") as [Hfirst Hsecond];
    [try reflexivity; try done; vm_compute; lia..|].
  destruct Hsecond as [Hsame Hevents].
  - vm_compute. lia.
  - vm_compute. discriminate.
  - fold first in Hsame, Hevents, Hfirst. fold second in Hsame, Hevents.
    split; [by rewrite Hsame, Hfirst|].
    rewrite Hevents. vm_compute. reflexivity.
Defined.

End RouteFlowFacts.

(** ** Import of highlights in CSV form *)

Module CsvFacts.

Import JsString.

Lemma parse_loop_bounds n line result current inQuotes :
  (String.length line <= n)%nat ->
  (length result + 1 <= length (Csv.parse_loop line result current inQuotes)
   <= length result + 1 + count_char Csv.comma line)%nat.
Proof.
  revert line result current inQuotes.
  induction n as [|n IH]; intros line result current inQuotes Hn.
  { destruct line; [|simpl in Hn; lia]. simpl. rewrite length_app. simpl. lia. }
  destruct line as [|char rest]; simpl.
  { rewrite length_app. simpl. lia. }
  simpl in Hn.
  destruct (Ascii.eqb_spec char Csv.quote_char) as [->|Hq].
  - change (Ascii.eqb Csv.quote_char Csv.comma) with false. simpl.
    destruct rest as [|next rest'].
    + simpl. rewrite length_app. simpl. lia.
    + destruct (inQuotes && Ascii.eqb next Csv.quote_char) eqn:E.
      * apply andb_true_iff in E as [_ E].
        apply Ascii.eqb_eq in E as ->.
        pose proof (IH rest' result (current ++ dquote) inQuotes) as H.
        simpl in Hn. change (Ascii.eqb Csv.quote_char Csv.comma) with false.
        simpl. lia.
      * apply IH. simpl in Hn |- *. lia.
  - destruct (Ascii.eqb char Csv.comma && negb inQuotes) eqn:E.
    + apply andb_true_iff in E as [E _]. rewrite E.
      pose proof (IH rest (result ++ [Csv.trim current])%list EmptyString
                     inQuotes) as H.
      rewrite length_app in H. simpl in H. lia.
    + pose proof (IH rest result (current ++ String char EmptyString)
                     inQuotes) as H.
      destruct (Ascii.eqb char Csv.comma); lia.
Qed.

Lemma parse_loop_plain line result current :
  count_char Csv.quote_char line = 0%nat ->
  Csv.parse_loop line result current false
  = (result ++ match split Csv.comma line with
               | piece :: pieces =>
                   Csv.trim (current ++ piece) :: map Csv.trim pieces
               | [] => [Csv.trim current]
               end)%list.
Proof.
  revert result current.
  induction line as [|char rest IH]; intros result current Hq; simpl.
  { by rewrite StringFacts.app_nil_r. }
  simpl in Hq.
  destruct (Ascii.eqb char Csv.quote_char) eqn:E; [simpl in Hq; lia|].
  rewrite andb_true_r.
  destruct (Ascii.eqb char Csv.comma) eqn:Ec.
  - rewrite IH by done. rewrite StringFacts.app_nil_r.
    rewrite <- app_assoc. simpl. f_equal. f_equal.
    pose proof (SplitFacts.split_length Csv.comma rest) as Hlen.
    destruct (split Csv.comma rest); [simpl in Hlen; lia|done].
  - rewrite IH by done.
    pose proof (SplitFacts.split_length Csv.comma rest) as Hlen.
    destruct (split Csv.comma rest) as [|piece pieces]; [simpl in Hlen; lia|].
    by rewrite StringFacts.app_assoc, StringFacts.app_cons.
Qed.

(** A line of a CSV file has at least one field and at most one more than
    it has commas; a line without double quote is cut at its commas and
    every piece is trimmed. *)
Theorem csv_line_fields line :
  (1 <= length (Csv.parseCSVLine line) <= 1 + count_char Csv.comma line)%nat
  /\ (count_char Csv.quote_char line = 0%nat ->
      Csv.parseCSVLine line = map Csv.trim (split Csv.comma line)).
Proof.
  unfold Csv.parseCSVLine. split.
  - pose proof (parse_loop_bounds (String.length line) line [] EmptyString
                                  false (le_n _)) as H.
    simpl in H. lia.
  - intros Hq. rewrite parse_loop_plain by done. simpl.
    pose proof (SplitFacts.split_length Csv.comma line) as Hlen.
    destruct (split Csv.comma line); [simpl in Hlen; lia|done].
Qed.

Lemma parse_loop_quoted field rest result current :
  String.prefix dquote rest = false ->
  Csv.parse_loop (Csv.escaped field ++ String Csv.quote_char rest)
                 result current true
  = Csv.parse_loop rest result (current ++ field) false.
Proof.
  intros Hrest. revert current.
  induction field as [|c field IH]; intros current.
  - rewrite StringFacts.app_nil_r.
    change (Csv.escaped EmptyString ++ String Csv.quote_char rest)
      with (String Csv.quote_char rest).
    simpl. destruct rest as [|next rest']; [done|].
    simpl in Hrest.
    destruct (Ascii.eqb_spec next Csv.quote_char) as [->|_]; [|done].
    by destruct rest'.
  - simpl. destruct (Ascii.eqb_spec c Csv.quote_char) as [->|Hc].
    + rewrite !StringFacts.app_cons. simpl.
      rewrite IH. by rewrite StringFacts.app_assoc.
    + rewrite StringFacts.app_cons. simpl.
      destruct (Ascii.eqb_spec c Csv.quote_char) as [|_]; [done|].
      rewrite andb_false_r, IH.
      by rewrite StringFacts.app_assoc, StringFacts.app_cons.
Qed.

Lemma parse_loop_field field rest result :
  String.prefix dquote rest = false ->
  Csv.parse_loop (Csv.quoted field ++ rest) result EmptyString false
  = Csv.parse_loop rest result field false.
Proof.
  intros Hrest. unfold Csv.quoted.
  rewrite StringFacts.app_cons, StringFacts.app_assoc.
  change (dquote ++ rest) with (String Csv.quote_char rest).
  transitivity (Csv.parse_loop
                  (Csv.escaped field ++ String Csv.quote_char rest)
                  result EmptyString true).
  - simpl.
    destruct (Csv.escaped field ++ String Csv.quote_char rest) eqn:E;
      [by destruct (Csv.escaped field)|done].
  - exact (parse_loop_quoted field rest result EmptyString Hrest).
Qed.

Lemma parse_loop_fields fields result :
  fields <> [] ->
  Csv.parse_loop (join "," (map Csv.quoted fields)) result EmptyString false
  = (result ++ map Csv.trim fields)%list.
Proof.
  revert result.
  induction fields as [|field fields IH]; intros result Hne; [done|].
  destruct fields as [|next fields].
  - change (join "," (map Csv.quoted [field])) with (Csv.quoted field).
    rewrite <- (StringFacts.app_nil_r (Csv.quoted field)).
    by rewrite parse_loop_field.
  - change (join "," (map Csv.quoted (field :: next :: fields)))
      with (Csv.quoted field
            ++ String Csv.comma (join "," (map Csv.quoted (next :: fields)))).
    rewrite parse_loop_field by done.
    simpl Csv.parse_loop.
    change (Ascii.eqb Csv.comma Csv.quote_char) with false.
    change (Ascii.eqb Csv.comma Csv.comma && negb false) with true.
    cbv iota. rewrite IH by done.
    by rewrite <- app_assoc.
Qed.

(** Reading is the inverse of quoting: a line made of fields that are
    quoted, with their double quotes doubled, and joined by commas is read
    back as these fields, trimmed, whatever commas and double quotes they
    hold. *)
Theorem csv_line_round_trip fields
  (Hfields : fields <> []) :
  Csv.parseCSVLine (join "," (map Csv.quoted fields)) = map Csv.trim fields.
Proof. unfold Csv.parseCSVLine. by rewrite parse_loop_fields. Qed.

Lemma csv_line_round_trip_witness :
  let fields := ["Know thyself, they say"; " 12 "; EmptyString;
                 "He said " ++ dquote ++ "no" ++ dquote] in
  Csv.parseCSVLine (join "," (map Csv.quoted fields))
  = ["Know thyself, they say"; "12"; EmptyString;
     "He said " ++ dquote ++ "no" ++ dquote].
Proof.
  intros fields.
  apply (csv_line_round_trip fields). done.
Defined.

End CsvFacts.

(** ** The rows of a CSV file *)

Module CsvImportFacts.

Import JsString.

(** The id that [parseCSVRow] gives to the row at [rowIndex]. *)
Local Abbreviation row_id rowIndex :=
  ("quote_" ++ Csv.padStart 6 "0" (pretty (Z.of_nat rowIndex + 1))).

Lemma pretty_N_go_head (x : N) s :
  (0 < x)%N ->
  exists c t, pretty_N_go x s = String c t /\ c <> "0"%char.
Proof.
  revert s. induction (N.lt_wf_0 x) as [x _ IH]; intros s Hpos.
  rewrite pretty_N_go_step by done.
  destruct (N.eq_0_gt_0_cases (x `div` 10)) as [Hz|Hdiv].
  - rewrite Hz, pretty_N_go_0. eexists _, _. split; [done|].
    assert (Hx : (x < 10)%N) by (apply N.div_small_iff in Hz; lia).
    rewrite N.mod_small by done.
    assert (x = 1 \/ x = 2 \/ x = 3 \/ x = 4 \/ x = 5 \/ x = 6 \/ x = 7
            \/ x = 8 \/ x = 9)%N as Hcases by lia.
    by repeat destruct Hcases as [->|Hcases]; try subst x.
  - apply IH; [|done]. apply N.div_lt; lia.
Qed.

Lemma pretty_row_head rowIndex :
  exists c t, pretty (Z.of_nat rowIndex + 1) = String c t /\ c <> "0"%char.
Proof.
  destruct (Z.of_nat rowIndex + 1) as [|p|p] eqn:E; [lia| |lia].
  change (pretty (Z.pos p)) with (pretty_N_go (N.pos p) EmptyString).
  by apply pretty_N_go_head.
Qed.

Lemma pad_inj k1 k2 c s1 s2 :
  (forall t, s1 <> String c t) -> (forall t, s2 <> String c t) ->
  Csv.pad k1 c s1 = Csv.pad k2 c s2 -> s1 = s2.
Proof.
  intros H1 H2. revert k2.
  induction k1 as [|k1 IH]; intros [|k2]; simpl; try done.
  - intros ->. by destruct (H1 (Csv.pad k2 c s2)).
  - intros <-. by destruct (H2 (Csv.pad k1 c s1)).
  - intros [= E]. by apply IH in E.
Qed.

Lemma row_id_inj i j : row_id i = row_id j -> i = j.
Proof.
  intros [= E]. unfold Csv.padStart in E.
  destruct (pretty_row_head i) as (c1 & t1 & E1 & H1).
  destruct (pretty_row_head j) as (c2 & t2 & E2 & H2).
  apply pad_inj in E.
  - apply (inj pretty) in E. lia.
  - intros t. rewrite E1. congruence.
  - intros t. rewrite E2. congruence.
Qed.

Lemma omap_length {A B} (f : A -> option B) (l : list A) :
  (length (omap f l) <= length l)%nat.
Proof.
  induction l as [|x l IH]; simpl; [done|].
  destruct (f x); simpl; [apply le_n_S|apply le_S]; exact IH.
Qed.

Section Environment.

Variable parseInt : string -> option Z.

(** The highlight that a line of the file gives, if any. *)
Local Abbreviation row_of columnMap :=
  (fun entry : nat * string =>
     if negb (nonempty (Csv.trim entry.2)) then None
     else Csv.parseCSVRow parseInt (Csv.parseCSVLine entry.2) columnMap
                          entry.1).

Lemma rows_fold columnMap entries quotes :
  foldl (Csv.add_row parseInt columnMap) quotes entries
  = (quotes ++ omap (row_of columnMap) entries)%list.
Proof.
  revert quotes.
  induction entries as [|[index line] entries IH]; intros quotes; simpl.
  { by rewrite app_nil_r. }
  rewrite IH. destruct (negb (nonempty (Csv.trim line))); [done|].
  destruct (Csv.parseCSVRow _ _ _ _); [|done].
  by rewrite <- app_assoc.
Qed.

Lemma row_facts values columnMap rowIndex h :
  Csv.parseCSVRow parseInt values columnMap rowIndex = Some h ->
  Csv.id h = row_id rowIndex
  /\ nonempty (Csv.text h) = true
  /\ toLowerCase (Csv.text h) <> "n/a"
  /\ Csv.source h = "Kindle" /\ Csv.page h = None
  /\ exists index value,
       columnMap !! "highlight" = Some index
       /\ values !! index = Some value /\ Csv.text h = Csv.trim value.
Proof.
  unfold Csv.parseCSVRow.
  destruct (nonempty (Csv.getValue values columnMap "highlight")) eqn:Hne;
    [|done].
  destruct (String.eqb_spec
              (toLowerCase (Csv.getValue values columnMap "highlight"))
              "n/a") as [|Hna]; [done|].
  simpl. intros [= <-]. simpl. repeat split; try done.
  unfold Csv.getValue in Hne, Hna |- *.
  destruct (columnMap !! "highlight") as [index|]; [|by simpl in Hne].
  destruct (values !! index) as [value|] eqn:Hv; [|by simpl in Hne].
  exists index, value. simpl. done.
Qed.

Lemma rows_ids (f : nat * string -> option Csv.Highlight) lines
    (g : nat -> nat) :
  (forall entry h, f entry = Some h -> Csv.id h = row_id entry.1) ->
  Inj (=) (=) g ->
  NoDup (Csv.id <$> omap f (imap (fun i line => (g i, line)) lines))
  /\ forall h, h ∈ omap f (imap (fun i line => (g i, line)) lines) ->
       exists i line, lines !! i = Some line /\ f (g i, line) = Some h.
Proof.
  intros Hf. revert g.
  induction lines as [|line lines IH]; intros g Hg; simpl.
  { split; [constructor|]. intros h H. by apply elem_of_nil in H. }
  destruct (IH (fun i => g (S i))) as [Hnd Hin].
  { intros i j E. apply Hg in E. lia. }
  assert (Htail : forall h,
            h ∈ omap f (imap (fun i line => (g (S i), line)) lines) ->
            exists i line0, (line :: lines) !! i = Some line0
                            /\ f (g i, line0) = Some h /\ i <> 0%nat).
  { intros h H. destruct (Hin h H) as (i & line0 & Hl & Hh).
    by exists (S i), line0. }
  destruct (f (g 0%nat, line)) as [h0|] eqn:Hh0; simpl.
  - split.
    + apply NoDup_cons. split; [|done].
      intros H. apply list_elem_of_fmap in H as (h & Hid & H).
      destruct (Htail h H) as (i & line0 & _ & Hh & Hi).
      apply Hf in Hh, Hh0. simpl in Hh, Hh0.
      rewrite Hh, Hh0 in Hid. apply row_id_inj, Hg in Hid. done.
    + intros h H. apply elem_of_cons in H as [->|H].
      * by exists 0%nat, line.
      * destruct (Htail h H) as (i & line0 & Hl & Hh & _). by exists i, line0.
  - split; [done|]. intros h H.
    destruct (Htail h H) as (i & line0 & Hl & Hh & _). by exists i, line0.
Qed.

(** The highlights imported from a CSV file have distinct ids, the id of
    each being the word quote, an underscore and the number of its line
    among the data lines, written with six digits at least; there are no
    more of them than data lines. Each has a text that is not empty and
    not n/a in any case of letters: the trimmed field of its line under
    the column of the highlights; without such a column, or without a data
    line, nothing is imported. *)
Theorem csv_import_sound csvText :
  let imported := Csv.parseCSVHighlights parseInt csvText in
  let lines := split (ascii_of_nat 10) (Csv.trim csvText) in
  let columnMap :=
    Csv.createColumnMap
      (Csv.parseCSVLine (default EmptyString (lines !! 0%nat))) in
  NoDup (Csv.id <$> imported)
  /\ (length imported <= length lines - 1)%nat
  /\ Forall (fun h =>
       nonempty (Csv.text h) = true
       /\ toLowerCase (Csv.text h) <> "n/a"
       /\ Csv.source h = "Kindle" /\ Csv.page h = None
       /\ exists i line index value,
            lines !! S i = Some line
            /\ Csv.id h = row_id i
            /\ columnMap !! "highlight" = Some index
            /\ Csv.parseCSVLine line !! index = Some value
            /\ Csv.text h = Csv.trim value) imported
  /\ (columnMap !! "highlight" = None -> imported = []).
Proof.
  intros imported lines columnMap. subst imported.
  unfold Csv.parseCSVHighlights. fold lines.
  case_decide as Hlen.
  { repeat split; try done; try constructor. simpl. lia. }
  fold columnMap. rewrite rows_fold. simpl.
  destruct (rows_ids (row_of columnMap) (drop 1 lines) (fun i => i))
    as [Hnd Hin].
  { intros [i line] h. simpl.
    destruct (negb (nonempty (Csv.trim line))); [done|].
    intros Hrow. by apply row_facts in Hrow as (? & _). }
  { by intros i j. }
  assert (Hfacts : forall h,
    h ∈ omap (row_of columnMap) (imap (fun i line => (i, line)) (drop 1 lines))
    -> nonempty (Csv.text h) = true
       /\ toLowerCase (Csv.text h) <> "n/a"
       /\ Csv.source h = "Kindle" /\ Csv.page h = None
       /\ exists i line index value,
            lines !! S i = Some line
            /\ Csv.id h = row_id i
            /\ columnMap !! "highlight" = Some index
            /\ Csv.parseCSVLine line !! index = Some value
            /\ Csv.text h = Csv.trim value).
  { intros h H. destruct (Hin h H) as (i & line & Hl & Hrow).
    simpl in Hrow.
    destruct (negb (nonempty (Csv.trim line))); [done|].
    apply row_facts in Hrow
      as (Hid & Hne & Hna & Hsrc & Hpage & index & value & Hc & Hv & Ht).
    repeat split; try done.
    exists i, line, index, value. rewrite lookup_drop in Hl. done. }
  split; [done|]. split.
  { etrans; [apply omap_length|]. rewrite length_imap, length_drop. lia. }
  split.
  { apply Forall_forall. intros h H. by apply Hfacts. }
  intros Hnone.
  destruct (omap _ _) as [|h rest] eqn:E; [done|].
  destruct (Hfacts h) as (_ & _ & _ & _ & i & line & index & value & _ & _
                          & Hc & _).
  { apply list_elem_of_here. }
  congruence.
Qed.

End Environment.

Lemma field_of_variation colLower field :
  Csv.field_of colLower = Some field ->
  exists variations,
    (field, variations) ∈ Csv.columnMappings /\ colLower ∈ variations.
Proof.
  unfold Csv.field_of. intros H.
  destruct (List.find _ Csv.columnMappings) as [[f vars]|] eqn:E; [|done].
  simpl in H. injection H as ->.
  apply find_some in E as [Hin Hdec].
  exists vars. split; [by apply list_elem_of_In|].
  by apply bool_decide_eq_true in Hdec.
Qed.

Lemma columns_fold (header : list string) (g : nat -> nat)
    (map : gmap string nat) field index :
  (forall i j, (i < j)%nat -> (g i < g j)%nat) ->
  foldl Csv.add_column map (imap (fun i col => (g i, col)) header) !! field
  = Some index ->
  (map !! field = Some index
   /\ forall i col, header !! i = Some col ->
        Csv.field_of (Csv.trim (toLowerCase col)) <> Some field)
  \/ exists i col,
       index = g i /\ header !! i = Some col
       /\ Csv.field_of (Csv.trim (toLowerCase col)) = Some field
       /\ forall j col', (i < j)%nat -> header !! j = Some col' ->
            Csv.field_of (Csv.trim (toLowerCase col')) <> Some field.
Proof.
  revert g map.
  induction header as [|col header IH]; intros g map Hg; simpl.
  { intros H. left. split; [done|]. by intros i col'. }
  intros H. apply (IH (fun i => g (S i))) in H.
  2:{ intros i j Hij. apply Hg. lia. }
  destruct H as [[Hmap Hnone]|(i & col' & -> & Hcol & Hfield & Hlast)].
  - destruct (Csv.field_of (Csv.trim (toLowerCase col))) as [f|] eqn:Ef.
    + destruct (decide (f = field)) as [->|Hne].
      * rewrite lookup_insert_eq in Hmap. injection Hmap as <-.
        right. exists 0%nat, col. repeat split; try done.
        intros [|j] col' Hj Hl; [lia|]. by apply (Hnone j).
      * rewrite lookup_insert_ne in Hmap by done.
        left. split; [done|]. intros [|i] col' Hl.
        -- injection Hl as <-. congruence.
        -- by apply (Hnone i).
    + left. split; [done|]. intros [|i] col' Hl.
      * injection Hl as <-. congruence.
      * by apply (Hnone i).
  - right. exists (S i), col'. repeat split; try done.
    intros [|j] col'' Hj Hl; [lia|]. apply (Hlast j); [lia|done].
Qed.

(** The column that the header gives to a field is the last column whose
    name, in lower case and trimmed, is one of the names of the field. *)
Theorem column_map_last_wins header field index :
  Csv.createColumnMap header !! field = Some index <->
  exists col variations,
    header !! index = Some col
    /\ Csv.field_of (Csv.trim (toLowerCase col)) = Some field
    /\ (field, variations) ∈ Csv.columnMappings
    /\ Csv.trim (toLowerCase col) ∈ variations
    /\ forall j col', (index < j)%nat -> header !! j = Some col' ->
         Csv.field_of (Csv.trim (toLowerCase col')) <> Some field.
Proof.
  unfold Csv.createColumnMap. split.
  - intros H. apply (columns_fold header (fun i => i)) in H; [|done].
    destruct H as [[H _]|(i & col & -> & Hcol & Hfield & Hlast)]; [done|].
    destruct (field_of_variation _ _ Hfield) as (variations & Hin & Hvar).
    by exists col, variations.
  - intros (col & variations & Hcol & Hfield & _ & _ & Hlast).
    destruct (foldl Csv.add_column ∅
                (imap (fun i c => (i, c)) header) !! field) as [k|] eqn:E.
    + apply (columns_fold header (fun i => i)) in E; [|done].
      destruct E as [[E _]|(i & col' & -> & Hcol' & Hfield' & Hlast')];
        [done|].
      f_equal. destruct (Nat.lt_trichotomy i index) as [Hlt|[->|Hgt]].
      * by destruct (Hlast' index col Hlt Hcol).
      * done.
      * by destruct (Hlast i col' Hgt Hcol').
    + exfalso. revert E. generalize (∅ : gmap string nat).
      revert index Hcol Hlast.
      induction header as [|c header IH] using rev_ind;
        intros index Hcol Hlast map; [done|].
      rewrite imap_app, foldl_app. simpl. rewrite Nat.add_0_r.
      destruct (decide (index = length header)) as [->|Hne].
      * rewrite list_lookup_middle in Hcol by done. injection Hcol as ->.
        rewrite Hfield. by rewrite lookup_insert_eq.
      * assert (Hlt : (index < length header)%nat).
        { apply lookup_lt_Some in Hcol. rewrite length_app in Hcol.
          simpl in Hcol. lia. }
        rewrite lookup_app_l in Hcol by done.
        pose proof (Hlast (length header) c Hlt
                      (list_lookup_middle header [] c _ eq_refl)) as Hc.
        assert (Hbefore : forall j col', (index < j)%nat ->
                  header !! j = Some col' ->
                  Csv.field_of (Csv.trim (toLowerCase col')) <> Some field).
        { intros j col' Hj Hl. apply (Hlast j); [done|].
          by apply lookup_app_l_Some. }
        destruct (Csv.field_of (Csv.trim (toLowerCase c))) as [f|] eqn:Ef.
        -- rewrite lookup_insert_ne by congruence.
           by apply (IH index).
        -- by apply (IH index).
Qed.

End CsvImportFacts.

(** ** Two scenarios *)

Module Scenarios.

Import JsString.

(** A file with a quoted field, a line without highlight, a blank line and
    a column that comes twice. *)
Example csv_import_scenario :
  let nl := String (ascii_of_nat 10) EmptyString in
  let csvText :=
    "Highlight,Book Title,Author,Location,Tags,Text" ++ nl
    ++ "ignored,Maxims,Thales,12,wisdom; self," ++ dquote
    ++ "Know thyself, friend" ++ dquote ++ nl
    ++ "n/a,Maxims,Solon,13,,N/A" ++ nl
    ++ nl
    ++ "ignored,Maxims,Solon,x,,Nothing in excess" ++ nl in
  let parseInt := fun s : string =>
    if String.eqb s "12" then Some 12 else None in
  Csv.parseCSVHighlights parseInt csvText
  = [ Csv.mkHighlight "quote_000001" "Know thyself, friend" "Thales" "Maxims"
        None (Some 12) None ["wisdom"; "self"] None "Kindle" None None None;
      Csv.mkHighlight "quote_000004" "Nothing in excess" "Solon" "Maxims"
        None None None [] None "Kindle" None None None ].
Proof. vm_compute. reflexivity. Qed.

(** A search by a phrase, and the suggestion that starts from its first
    result in an application without key. *)
Example search_scenario :
  let q1 := mkQuote "q1" "The unexamined life is not worth living"
                    (Some "Socrates") (Some "Apology") in
  let q2 := mkQuote "q2" "A life worth living is examined" None None in
  let q3 := mkQuote "q3" "Know thyself" (Some "Thales") (Some "Life maxims") in
  let a := Browser.mkApp [q1; q2; q3] {[ "q2" := ["q3"] ]} []
             (Browser.mkSettings "gpt-4o-mini" (7 # 10) 150 EmptyString
                                 "prompt")
             ∅ None [] [] in
  let results := Explorer.searchQuotes a "Living IS" in
  let run := Explorer.getSuggestion (fun _ => Throws "Unexpected token")
               (fun _ => FetchRejects "offline") (head results) 0
               (fun _ => 0%Q) a in
  results = [q2; q1]
  /\ run.1 = Returns None
  /\ (Browser.quote <$> Browser.currentSuggestion run.2) = Some q3
  /\ Browser.sent run.2 = [].
Proof. vm_compute. repeat split; reflexivity. Qed.

End Scenarios.
